(** * gsElasticity: mixed Taylor-Hood visitor and Newton driver

    A shallow embedding of

    - [gsVisitorNonLinElasticityMixedTH<T>] (src/src/gsVisitorNonLinElasticityMixedTH.h):
      the per-element kernel [assemble] and the scatter [localToGlobal];
    - [gsElasticityMixedTHNewton<T>] (src/gsElasticityMixedTHNewton.h):
      [firstIteration], [nextIteration], [solve] and the accessors.

    Both classes are templates over the coefficient type [T].  The embedding
    keeps them generic: [T] is any type carrying the arithmetic the code uses
    (class [Scalar]).  Algebraic laws (commutative ring, field) are stated as
    hypotheses of the theorems that need them, so that every definition is
    executable at a concrete instance (the canonical rationals [Qc] below).
    Rounding of IEEE doubles is outside this model. *)

From Stdlib Require Import ZArith List Lia Bool Ring Field QArith Qcanon Qcabs String.
From Stdlib Require PrimFloat.
From stdpp Require Import base option gmap.

(** ** Coefficient type *)

(** The operations of the template parameter [T] used by the two classes:
    [+ - * /], unary minus, [math::log], [std::abs] and [operator<].
    [sinv] is the reciprocal [1/x]. *)
Class Scalar (T : Type) : Type := {
  s0 : T;
  s1 : T;
  sadd : T -> T -> T;
  smul : T -> T -> T;
  ssub : T -> T -> T;
  sopp : T -> T;
  sdiv : T -> T -> T;
  sinv : T -> T;
  slog : T -> T;
  sabs : T -> T;
  sltb : T -> T -> bool
}.

Declare Scope scalar_scope.
Delimit Scope scalar_scope with S.
Notation "x + y" := (sadd x y) : scalar_scope.
Notation "x * y" := (smul x y) : scalar_scope.
Notation "x - y" := (ssub x y) : scalar_scope.
Notation "x / y" := (sdiv x y) : scalar_scope.
Notation "- x" := (sopp x) : scalar_scope.
Notation "x <? y" := (sltb x y) : scalar_scope.

(** A value of [T] that may be [std::numeric_limits<T>::infinity()].  Only
    the Lame parameter [m_lambda] is ever compared with infinity; the test
    [m_lambda < std::numeric_limits<T>::infinity()] succeeds on [Finite]
    and fails on [Infinity]. *)
Inductive ext (T : Type) : Type :=
| Finite (x : T)
| Infinity.
Arguments Finite {T} x.
Arguments Infinity {T}.

(** ** Counted loops *)

(** [for (i = lo; i < lo + n; ++i) s = body i s] *)
Fixpoint for_loop {St : Type} (lo n : nat) (body : nat -> St -> St) (s : St) : St :=
  match n with
  | O => s
  | S n' => for_loop (S lo) n' body (body lo s)
  end.

(** [for (i = lo; i < hi; ++i) s = body i s] *)
Definition for_range {St : Type} (lo hi : nat) (body : nat -> St -> St) (s : St) : St :=
  for_loop lo (hi - lo) body s.

(** ** Dense matrices and vectors (Eigen) *)

Section Dense.
Context {T : Type} `{Scalar T}.
Local Open Scope scalar_scope.

(** A dense matrix is given by its coefficients [A(r,c)], a dense vector by
    [v(i)].  The sizes are carried by the code that uses them. *)
Definition Mat : Type := nat -> nat -> T.
Definition Vec : Type := nat -> T.

(** [f 0 + f 1 + ... + f (n-1)] *)
Fixpoint big_sum (n : nat) (f : nat -> T) : T :=
  match n with
  | O => s0
  | S m => big_sum m f + f m
  end.

Definition sum_range (lo hi : nat) (f : nat -> T) : T :=
  big_sum (hi - lo) (fun k => f (lo + k)%nat).

Definition setZero : Mat := fun _ _ => s0.
Definition vecZero : Vec := fun _ => s0.
Definition transpose (A : Mat) : Mat := fun r c => A c r.
Definition col (A : Mat) (c : nat) : Vec := fun r => A r c.
Definition mat_add (A B : Mat) : Mat := fun r c => A r c + B r c.
Definition mat_sub (A B : Mat) : Mat := fun r c => A r c - B r c.
Definition mat_scale (a : T) (A : Mat) : Mat := fun r c => a * A r c.
(** products of [n x n] matrices and of an [n x n] matrix with a vector *)
Definition mat_mul (n : nat) (A B : Mat) : Mat :=
  fun r c => big_sum n (fun k => A r k * B k c).
Definition mat_vec (n : nat) (A : Mat) (v : Vec) : Vec :=
  fun r => big_sum n (fun k => A r k * v k).
Definition trace (n : nat) (A : Mat) : T := big_sum n (fun i => A i i).

(** [A.row(d) = v] *)
Definition set_row (A : Mat) (d : nat) (v : Vec) : Mat :=
  fun r c => if (r =? d)%nat then v c else A r c.

(** [A(r,c) += x], [v(i) += x], [v(i) -= x] *)
Definition mat_add_at (A : Mat) (r c : nat) (x : T) : Mat :=
  fun r' c' => if (r' =? r)%nat && (c' =? c)%nat then A r' c' + x else A r' c'.
Definition mat_sub_at (A : Mat) (r c : nat) (x : T) : Mat :=
  fun r' c' => if (r' =? r)%nat && (c' =? c)%nat then A r' c' - x else A r' c'.
Definition vec_add_at (v : Vec) (i : nat) (x : T) : Vec :=
  fun i' => if (i' =? i)%nat then v i' + x else v i'.
Definition vec_sub_at (v : Vec) (i : nat) (x : T) : Vec :=
  fun i' => if (i' =? i)%nat then v i' - x else v i'.
End Dense.
Arguments Mat T : clear implicits.
Arguments Vec T : clear implicits.

(** [determinant()] and [inverse()] of an [n x n] Eigen matrix.  They belong
    to the linear-algebra library, not to this repository. *)
Class Eigen (T : Type) : Type := {
  determinant : nat -> Mat T -> T;
  inverse : nat -> Mat T -> Mat T
}.

(** ** The element visitor [gsVisitorNonLinElasticityMixedTH] *)

Module Visitor.

Section Model.
Context {T : Type} `{Scalar T} `{Eigen T}.
Local Open Scope scalar_scope.

(** Constructor arguments [lambda], [mu], [rho], [tfac]. *)
Record Material : Type := {
  m_lambda : ext T;
  m_mu : T;
  m_rho : T;
  m_tfac : T
}.

(** What [evaluate] leaves behind for one element: the data [assemble]
    reads.  The index [k] is the quadrature node. *)
Record Element : Type := {
  m_dim : nat;
  numActive : nat;
  numActive_p : nat;
  quRows : nat;                 (* quWeights.rows() *)
  quWeights : Vec T;            (* quWeights[k] *)
  measure : Vec T;              (* geoEval.measure(k) *)
  physGrad : nat -> Mat T;      (* physGrad after geoEval.transformGradients(k, bGrads, physGrad) *)
  geoJac : nat -> Mat T;        (* geoEval.jacobian(k) *)
  defJac : nat -> Mat T;        (* m_deformation->jacobian(k) *)
  pressure : nat -> T;          (* (m_pressure->value(k))(0,0) *)
  bVals : Mat T;                (* basisData[0] *)
  basisVals_p : Mat T;
  forceVals : Mat T
}.

(** The local matrices and right-hand sides the visitor accumulates into. *)
Record Local : Type := {
  localMatK : Mat T;
  localMatB : Mat T;
  localMatC : Mat T;
  localRhs_u : Vec T;
  localRhs_p : Vec T
}.

Definition with_localMatK (st : Local) (K : Mat T) : Local :=
  {| localMatK := K; localMatB := localMatB st; localMatC := localMatC st;
     localRhs_u := localRhs_u st; localRhs_p := localRhs_p st |}.
Definition with_localMatB (st : Local) (B : Mat T) : Local :=
  {| localMatK := localMatK st; localMatB := B; localMatC := localMatC st;
     localRhs_u := localRhs_u st; localRhs_p := localRhs_p st |}.
Definition with_localMatC (st : Local) (C : Mat T) : Local :=
  {| localMatK := localMatK st; localMatB := localMatB st; localMatC := C;
     localRhs_u := localRhs_u st; localRhs_p := localRhs_p st |}.
Definition with_localRhs_u (st : Local) (v : Vec T) : Local :=
  {| localMatK := localMatK st; localMatB := localMatB st; localMatC := localMatC st;
     localRhs_u := v; localRhs_p := localRhs_p st |}.
Definition with_localRhs_p (st : Local) (v : Vec T) : Local :=
  {| localMatK := localMatK st; localMatB := localMatB st; localMatC := localMatC st;
     localRhs_u := localRhs_u st; localRhs_p := v |}.

(** Local buffers with every coefficient zero. *)
Definition zeroLocal : Local :=
  {| localMatK := setZero; localMatB := setZero; localMatC := setZero;
     localRhs_u := vecZero; localRhs_p := vecZero |}.

Variable mp : Material.
Variable el : Element.

Let dim := m_dim el.
Let n := numActive el.
Let np := numActive_p el.
Let mu := m_mu mp.

(** *** Kinematics at quadrature node [k] (lines 92-125) *)

Definition weight (k : nat) : T := quWeights el k * measure el k.

Definition defDer_k (k : nat) : Mat T := transpose (defJac el k).

Definition prex_k (k : nat) : T := mu * pressure el k.

Definition muprex (k : nat) : T := mu - prex_k k.

(** [displGrad = geoEval.jacobian(k).transpose().inverse() * defDer_k] *)
Definition displGrad (k : nat) : Mat T :=
  mat_mul dim (inverse dim (transpose (geoJac el k))) (defDer_k k).

(** [defGrad = displGrad.transpose(); defGrad(di,di) += 1] for [di < m_dim] *)
Definition defGrad (k : nat) : Mat T :=
  fun r c =>
    if (r =? c)%nat && (r <? dim)%nat
    then transpose (displGrad k) r c + s1
    else transpose (displGrad k) r c.

Definition detF (k : nat) : T := determinant dim (defGrad k).

Definition logdetF (k : nat) : T := weight k * mu * slog (detF k).

Definition defGrad_inv (k : nat) : Mat T := inverse dim (defGrad k).

Definition locResMat (k : nat) : Mat T :=
  mat_add
    (mat_scale (weight k * mu) (mat_sub (defGrad k) (transpose (defGrad_inv k))))
    (mat_scale (weight k * prex_k k) (transpose (defGrad_inv k))).

(** *** Displacement rows (lines 127-175) *)

(** [locResVec = locResMat * physGrad.col(i)] *)
Definition locResVec (k i : nat) : Vec T :=
  mat_vec dim (locResMat k) (col (physGrad el k) i).

(** [gradU.setZero(); gradU.row(di) = physGrad.col(i)]; [gradV] is built
    the same way from [dj], [j]. *)
Definition gradU (k di i : nat) : Mat T :=
  set_row setZero di (col (physGrad el k) i).

Definition defGrad_inv_gradU (k di i : nat) : Mat T :=
  mat_mul dim (defGrad_inv k) (gradU k di i).

Definition defGrad_inv_gradU_trace (k di i : nat) : T :=
  trace dim (defGrad_inv_gradU k di i).

Definition locKtgVal (k di i dj j : nat) : T :=
  mu * trace dim (mat_mul dim (transpose (gradU k di i)) (gradU k dj j))
  + muprex k * trace dim (mat_mul dim (defGrad_inv_gradU k di i) (defGrad_inv_gradU k dj j)).

(** lines 148-167: [for j = i.. ; for dj] *)
Definition tangentK_loop (k i di : nat) (st : Local) : Local :=
  for_range i n (fun j =>
    for_range 0 dim (fun dj st =>
      with_localMatK st
        (mat_add_at (localMatK st) (di * n + i) (dj * n + j)
                    (weight k * locKtgVal k di i dj j)))) st.

(** lines 170-173 *)
Definition couplingB_loop (k i di : nat) (st : Local) : Local :=
  for_range 0 np (fun j st =>
    with_localMatB st
      (mat_add_at (localMatB st) j (di * n + i)
         (weight k * mu * defGrad_inv_gradU_trace k di i * basisVals_p el j k))) st.

(** lines 133-174: the body of the loop over [di] *)
Definition displacement_body (k i di : nat) (st : Local) : Local :=
  let st1 := with_localRhs_u st
               (vec_sub_at (localRhs_u st) (di * n + i) (locResVec k i di)) in
  let st2 := tangentK_loop k i di st1 in
  couplingB_loop k i di st2.

(** lines 128-175 *)
Definition displacement_loop (k : nat) (st : Local) : Local :=
  for_range 0 n (fun i => for_range 0 dim (fun di => displacement_body k i di)) st.

(** *** Pressure rows (lines 177-196) *)

(** [nearmup = m_mu*m_mu/m_lambda * weight]; the member is assigned and
    read only under [m_lambda < infinity]. *)
Definition nearmup (k : nat) (lam : T) : T := mu * mu / lam * weight k.

Definition pressure_body (k i : nat) (st : Local) : Local :=
  let st1 := with_localRhs_p st
               (vec_sub_at (localRhs_p st) i (logdetF k * basisVals_p el i k)) in
  match m_lambda mp with
  | Finite lam =>
      let st2 := with_localRhs_p st1
                   (vec_add_at (localRhs_p st1) i
                      (nearmup k lam / mu * prex_k k * basisVals_p el i k)) in
      for_range i np (fun j st =>
        with_localMatC st
          (mat_sub_at (localMatC st) i j
             (nearmup k lam * basisVals_p el i k * basisVals_p el j k))) st2
  | Infinity => st1
  end.

Definition pressure_loop (k : nat) (st : Local) : Local :=
  for_range 0 np (pressure_body k) st.

(** *** Body force (lines 198-201) *)

(** [v.middleRows(start, len) += x] *)
Definition middleRows_add (v : Vec T) (start len : nat) (x : Vec T) : Vec T :=
  fun r => if (start <=? r)%nat && (r <? start + len)%nat
           then v r + x (r - start)%nat else v r.

Definition bodyForce_loop (k : nat) (st : Local) : Local :=
  for_range 0 dim (fun j st =>
    with_localRhs_u st
      (middleRows_add (localRhs_u st) (j * n) n
         (fun i => weight k * m_rho mp * forceVals el j k * m_tfac mp * bVals el i k))) st.

(** *** [assemble] *)

(** One pass of the loop over quadrature nodes. *)
Definition quad_point (k : nat) (st : Local) : Local :=
  bodyForce_loop k (pressure_loop k (displacement_loop k st)).

Definition assemble (st : Local) : Local :=
  for_range 0 (quRows el) quad_point st.

(** *** Quantities named in the statements about [assemble] *)

(** The penalty added to row [i] of the pressure residual (line 187), as the
    code computes it; nothing when [m_lambda] is infinite. *)
Definition penalty_rhs (k i : nat) : T :=
  match m_lambda mp with
  | Finite lam => nearmup k lam / mu * prex_k k * basisVals_p el i k
  | Infinity => s0
  end.

(** The amount taken from entry [(i,j)] of the block C (line 193). *)
Definition penalty_C (k i j : nat) : T :=
  match m_lambda mp with
  | Finite lam => nearmup k lam * basisVals_p el i k * basisVals_p el j k
  | Infinity => s0
  end.

(** The body force added to row [di * numActive + i] (line 201). *)
Definition force_rhs (k i di : nat) : T :=
  weight k * m_rho mp * forceVals el di k * m_tfac mp * bVals el i k.

(** The blocks of K that belong to one basis function are symmetric. *)
Definition diag_blocks_symmetric (K : Mat T) : Prop :=
  forall a ci cj, (a < n)%nat -> (ci < dim)%nat -> (cj < dim)%nat ->
    K (ci * n + a)%nat (cj * n + a)%nat = K (cj * n + a)%nat (ci * n + a)%nat.

(** *** [localToGlobal] *)

(** The degree-of-freedom mappers, one per displacement component and one
    (index [m_dim]) for the pressure.  [ci_actives ci a] is
    [ci_actives[ci](a)] after the calls of [mappers[ci].localToGlobal];
    [is_free_index ci ii] is [mappers[ci].is_free_index(ii)]. *)
Record DofMaps : Type := {
  ci_actives : nat -> nat -> nat;
  is_free_index : nat -> nat -> bool
}.

(** The global system: a sparse matrix (stored entries only) and a dense
    right-hand side with one column. *)
Record Global : Type := {
  sysMatrix : gmap (nat * nat) T;
  rhsMatrix : Vec T
}.

(** The value of a sparse matrix at [(r,c)]; entries not stored are zero. *)
Definition coeff (M : gmap (nat * nat) T) (r c : nat) : T :=
  default s0 (M !! (r, c)).

(** [M.coeffRef(r,c) += x]: the entry is created if it is not stored. *)
Definition coeffRef_add (M : gmap (nat * nat) T) (r c : nat) (x : T) : gmap (nat * nat) T :=
  <[(r, c) := coeff M r c + x]> M.

Definition add_sys (g : Global) (r c : nat) (x : T) : Global :=
  {| sysMatrix := coeffRef_add (sysMatrix g) r c x; rhsMatrix := rhsMatrix g |}.

(** [rhsMatrix.row(r) += x] *)
Definition add_rhs (g : Global) (r : nat) (x : T) : Global :=
  {| sysMatrix := sysMatrix g; rhsMatrix := vec_add_at (rhsMatrix g) r x |}.

Variable maps : DofMaps.
Variable loc : Local.

(** lines 236-250 *)
Definition scatterK_loop (ci ai : nat) (g : Global) : Global :=
  let gi := (ci * n + ai)%nat in
  let ii := ci_actives maps ci ai in
  for_range ai n (fun aj =>
    for_range 0 dim (fun cj g =>
      let gj := (cj * n + aj)%nat in
      let jj := ci_actives maps cj aj in
      if is_free_index maps cj jj then
        let g1 := add_sys g ii jj (localMatK loc gi gj) in
        if (ai <? aj)%nat then add_sys g1 jj ii (localMatK loc gi gj) else g1
      else g)) g.

(** lines 252-264 *)
Definition scatterB_loop (ci ai : nat) (g : Global) : Global :=
  let gi := (ci * n + ai)%nat in
  let ii := ci_actives maps ci ai in
  let cj := dim in
  for_range 0 np (fun aj g =>
    let gj := aj in
    let jj := ci_actives maps cj aj in
    if is_free_index maps cj jj then
      add_sys (add_sys g ii jj (localMatB loc gj gi)) jj ii (localMatB loc gj gi)
    else g) g.

(** lines 226-268: the body of the loop over [ai] *)
Definition scatter_u_body (ci ai : nat) (g : Global) : Global :=
  let gi := (ci * n + ai)%nat in
  let ii := ci_actives maps ci ai in
  if is_free_index maps ci ii then
    scatterB_loop ci ai (scatterK_loop ci ai (add_rhs g ii (localRhs_u loc gi)))
  else g.

(** lines 286-297 *)
Definition scatterC_loop (ai : nat) (g : Global) : Global :=
  let gi := ai in
  let ii := ci_actives maps dim ai in
  let cj := dim in
  for_range ai np (fun aj g =>
    let gj := aj in
    let jj := ci_actives maps cj aj in
    if is_free_index maps cj jj then
      let g1 := add_sys g ii jj (localMatC loc gi gj) in
      if (ai <? aj)%nat then add_sys g1 jj ii (localMatC loc gi gj) else g1
    else g) g.

(** lines 274-299: the body of the loop over the pressure rows *)
Definition scatter_p_body (ai : nat) (g : Global) : Global :=
  let gi := ai in
  let ii := ci_actives maps dim ai in
  if is_free_index maps dim ii then
    scatterC_loop ai (add_rhs g ii (localRhs_p loc gi))
  else g.

Definition localToGlobal (g : Global) : Global :=
  let g1 := for_range 0 dim (fun ci => for_range 0 n (fun ai => scatter_u_body ci ai)) g in
  for_range 0 np scatter_p_body g1.

(** *** Quantities named in the statements about [localToGlobal] *)

(** [(ci, a)] is a local degree of freedom of the element: a displacement
    component with one of its active functions, or the pressure with one of
    its active functions. *)
Definition local_dof (ci a : nat) : Prop :=
  ((ci < dim)%nat /\ (a < n)%nat) \/ (ci = dim /\ (a < np)%nat).

(** Every local degree of freedom that resolves to the global index [r] is
    reported as eliminated by its mapper. *)
Definition eliminated_index (r : nat) : Prop :=
  forall ci a, local_dof ci a -> ci_actives maps ci a = r ->
    is_free_index maps ci r = false.

(** [x] if the write at [(r', c')] hits the entry [(r, c)], zero otherwise. *)
Definition entry (r' c' r c : nat) (x : T) : T :=
  if (r' =? r)%nat && (c' =? c)%nat then x else s0.

(** The entries in row [r] and in column [r] of the matrix, and row [r] of
    the right-hand side, are in [g] what they are in [g0]. *)
Definition untouched (r : nat) (g0 g : Global) : Prop :=
  (forall c, sysMatrix g !! (r, c) = sysMatrix g0 !! (r, c)
             /\ sysMatrix g !! (c, r) = sysMatrix g0 !! (c, r))
  /\ rhsMatrix g r = rhsMatrix g0 r.

(** What one pass of the innermost loops adds to the entry [(r, c)] of the
    global matrix: lines 243-248, 259-263 and 291-296. *)
Definition contribK (ci ai aj cj r c : nat) : T :=
  let gi := (ci * n + ai)%nat in
  let ii := ci_actives maps ci ai in
  let gj := (cj * n + aj)%nat in
  let jj := ci_actives maps cj aj in
  if is_free_index maps cj jj then
    entry ii jj r c (localMatK loc gi gj)
    + (if (ai <? aj)%nat then entry jj ii r c (localMatK loc gi gj) else s0)
  else s0.

Definition contribB (ci ai aj r c : nat) : T :=
  let gi := (ci * n + ai)%nat in
  let ii := ci_actives maps ci ai in
  let jj := ci_actives maps dim aj in
  if is_free_index maps dim jj then
    entry ii jj r c (localMatB loc aj gi) + entry jj ii r c (localMatB loc aj gi)
  else s0.

Definition contribC (ai aj r c : nat) : T :=
  let ii := ci_actives maps dim ai in
  let jj := ci_actives maps dim aj in
  if is_free_index maps dim jj then
    entry ii jj r c (localMatC loc ai aj)
    + (if (ai <? aj)%nat then entry jj ii r c (localMatC loc ai aj) else s0)
  else s0.

(** What the pass for the displacement row [(ci, ai)] adds. *)
Definition contrib_u (ci ai r c : nat) : T :=
  if is_free_index maps ci (ci_actives maps ci ai) then
    sum_range ai n (fun aj => big_sum dim (fun cj => contribK ci ai aj cj r c))
    + big_sum np (fun aj => contribB ci ai aj r c)
  else s0.

(** What the pass for the pressure row [ai] adds. *)
Definition contrib_p (ai r c : nat) : T :=
  if is_free_index maps dim (ci_actives maps dim ai) then
    sum_range ai np (fun aj => contribC ai aj r c)
  else s0.

(** The net amount one call of [localToGlobal] adds to the entry [(r, c)]. *)
Definition contribution (r c : nat) : T :=
  big_sum dim (fun ci => big_sum n (fun ai => contrib_u ci ai r c))
  + big_sum np (fun ai => contrib_p ai r c).

End Model.

Arguments Material T : clear implicits.
Arguments Element T : clear implicits.
Arguments Local T : clear implicits.
Arguments Global T : clear implicits.

End Visitor.


(** ** How a call ends *)

(** The error conditions the specification names. *)
Inductive failure : Type :=
| InvalidConfiguration
| SingularSystem.

(** A call either returns its result or leaves through an exception. *)
Inductive outcome (A : Type) : Type :=
| Returned (a : A)
| Thrown (e : failure).
Arguments Returned {A} a.
Arguments Thrown {A} e.

(** [gsVisitorNonLinElasticityMixedTH::assemble] is a [void] member function
    whose body (lines 84-204) has no [throw], no early [return] and no test
    of [detF]: a call always runs the loop over the quadrature nodes to its
    end. *)
Definition call_assemble {T : Type} `{Scalar T} `{Eigen T}
    (mp : Visitor.Material T) (el : Visitor.Element T) (st : Visitor.Local T)
  : outcome (Visitor.Local T) :=
  Returned (Visitor.assemble mp el st).

(** The loop over the quadrature nodes as the specification words it: at
    every node the determinant [J = det F] is tested before anything is
    computed from it, and the call leaves with [InvalidConfiguration] at the
    first node where the test [valid J] fails; a node that passes is
    processed as [quad_point] does.  This is the specified behaviour, to be
    compared with [call_assemble]; the source has no such test. *)
Definition assemble_with_test {T : Type} `{Scalar T} `{Eigen T} (valid : T -> bool)
    (mp : Visitor.Material T) (el : Visitor.Element T) (st : Visitor.Local T)
  : outcome (Visitor.Local T) :=
  for_range 0 (Visitor.quRows el)
    (fun k r =>
       match r with
       | Returned s =>
           if valid (Visitor.detF el k)
           then Returned (Visitor.quad_point mp el k s)
           else Thrown InvalidConfiguration
       | Thrown e => Thrown e
       end)
    (Returned st).

(** The specification's test is [J > 0]. *)
Definition assemble_as_specified {T : Type} `{Scalar T} `{Eigen T}
    (mp : Visitor.Material T) (el : Visitor.Element T) (st : Visitor.Local T)
  : outcome (Visitor.Local T) :=
  assemble_with_test (fun J => sltb s0 J) mp el st.

(** ** The Newton driver [gsElasticityMixedTHNewton] *)

Module Newton.

(** The collaborators of the driver: the assembler
    [gsElasticityMixedTHAssembler<T>] (its header is not part of the sources
    at hand), the sparse LU solver of Eigen, and the norm of a dense vector.
    Their states are threaded explicitly. *)
Record Collaborators (T : Type) : Type := {
  Field : Type;                 (* gsMultiPatch<T> *)
  Vector : Type;                (* gsMatrix<T> *)
  SpMat : Type;                 (* gsSparseMatrix<T> *)
  Asm : Type;                   (* state of the assembler *)
  Lu : Type;                    (* state of Eigen::SparseLU *)
  asm_assemble : Asm -> Asm;                     (* m_assembler.assemble() *)
  asm_assemble_at : Field -> Field -> Asm -> Asm; (* m_assembler.assemble(u, p) *)
  asm_matrix : Asm -> SpMat;                     (* m_assembler.matrix() *)
  asm_rhs : Asm -> Vector;                       (* m_assembler.rhs() *)
  lu_compute : Lu -> SpMat -> Lu;                (* m_solver.compute(A) *)
  lu_factorize : Lu -> SpMat -> Lu;              (* m_solver.factorize(A) *)
  lu_solve : Lu -> Vector -> Vector;             (* m_solver.solve(b) *)
  norm : Vector -> T;                            (* .norm() *)
  (* the two ingredients of [constructSolution] and [updateSolution] below *)
  field_of : Asm -> Vector -> Z -> Field;        (* the field of unknown [unk] held by a solution vector *)
  field_add : Field -> Field -> Field            (* coefficient-wise sum of two fields *)
}.
Arguments Field {T} c.
Arguments Vector {T} c.
Arguments SpMat {T} c.
Arguments Asm {T} c.
Arguments Lu {T} c.
Arguments asm_assemble {T} c.
Arguments asm_assemble_at {T} c.
Arguments asm_matrix {T} c.
Arguments asm_rhs {T} c.
Arguments lu_compute {T} c.
Arguments lu_factorize {T} c.
Arguments lu_solve {T} c.
Arguments norm {T} c.
Arguments field_of {T} c.
Arguments field_add {T} c.

Section Model.
Context {T : Type} `{Scalar T}.
Variable env : Collaborators T.
Local Open Scope scalar_scope.

(** Modelled from the spec: [gsElasticityMixedTHAssembler::constructSolution]
    is missing from the sources.  The specification has the first iteration
    "replace current solution by the update ... not an increment": the
    [result] argument is overwritten by the field of unknown [unk] built from
    the solution vector, whatever it held before. *)
Definition constructSolution (a : Asm env) (solVector : Vector env)
    (result : Field env) (unk : Z) : Field env :=
  field_of env a solVector unk.

(** Modelled from the spec: [gsElasticityMixedTHAssembler::updateSolution] is
    missing from the sources.  The specification describes it as the
    "additive update": the displacement (unknown 0) and pressure (unknown 1)
    parts of the solution vector are added to the current fields. *)
Definition updateSolution (a : Asm env) (solVector : Vector env)
    (u p : Field env) : Field env * Field env :=
  (field_add env u (field_of env a solVector 0),
   field_add env p (field_of env a solVector 1)).

(** The data members of the driver, with the state of the assembler it
    refers to.  [index_t] is a signed machine integer; the counters are kept
    in [Z] (the loop never counts past [m_maxIterations]). *)
Record State : Type := {
  m_assembler : Asm env;
  m_curSolution : Field env;
  m_curPressure : Field env;
  m_updateVector : Vector env;
  m_solver : Lu env;
  m_numIterations : Z;
  m_maxIterations : Z;
  m_tolerance : T;
  m_converged : bool;
  m_residue : T;
  m_updnorm : T
}.

(** The constructor.  [m_updateVector], [m_residue] and [m_updnorm] are not
    initialised by it; their indeterminate values are arguments here. *)
Definition make (assembler : Asm env) (initialSolution initialPressure : Field env)
    (solver0 : Lu env) (upd0 : Vector env) (residue0 updnorm0 : T)
    (tol_default : T) : State :=
  {| m_assembler := assembler;
     m_curSolution := initialSolution;
     m_curPressure := initialPressure;
     m_updateVector := upd0;
     m_solver := solver0;
     m_numIterations := 0;
     m_maxIterations := 100;
     m_tolerance := tol_default;   (* 1e-12 *)
     m_converged := false;
     m_residue := residue0;
     m_updnorm := updnorm0 |}.

Definition solution (st : State) (i : Z) : Field env :=
  if (i =? 0)%Z then m_curSolution st else m_curPressure st.

Definition converged (st : State) : bool := m_converged st.
Definition numIterations (st : State) : Z := m_numIterations st.
Definition tolerance (st : State) : T := m_tolerance st.
Definition residue (st : State) : T := m_residue st.

Definition setMaxIterations (nIter : Z) (st : State) : State :=
  {| m_assembler := m_assembler st; m_curSolution := m_curSolution st;
     m_curPressure := m_curPressure st; m_updateVector := m_updateVector st;
     m_solver := m_solver st; m_numIterations := m_numIterations st;
     m_maxIterations := nIter; m_tolerance := m_tolerance st;
     m_converged := m_converged st; m_residue := m_residue st;
     m_updnorm := m_updnorm st |}.

Definition setTolerance (tol : T) (st : State) : State :=
  {| m_assembler := m_assembler st; m_curSolution := m_curSolution st;
     m_curPressure := m_curPressure st; m_updateVector := m_updateVector st;
     m_solver := m_solver st; m_numIterations := m_numIterations st;
     m_maxIterations := m_maxIterations st; m_tolerance := tol;
     m_converged := m_converged st; m_residue := m_residue st;
     m_updnorm := m_updnorm st |}.

Definition set_numIterations (k : Z) (st : State) : State :=
  {| m_assembler := m_assembler st; m_curSolution := m_curSolution st;
     m_curPressure := m_curPressure st; m_updateVector := m_updateVector st;
     m_solver := m_solver st; m_numIterations := k;
     m_maxIterations := m_maxIterations st; m_tolerance := m_tolerance st;
     m_converged := m_converged st; m_residue := m_residue st;
     m_updnorm := m_updnorm st |}.

Definition set_converged (b : bool) (st : State) : State :=
  {| m_assembler := m_assembler st; m_curSolution := m_curSolution st;
     m_curPressure := m_curPressure st; m_updateVector := m_updateVector st;
     m_solver := m_solver st; m_numIterations := m_numIterations st;
     m_maxIterations := m_maxIterations st; m_tolerance := m_tolerance st;
     m_converged := b; m_residue := m_residue st;
     m_updnorm := m_updnorm st |}.

(** [firstIteration] (lines 164-189); the debug print is left out. *)
Definition firstIteration (st : State) : State :=
  let a := asm_assemble env (m_assembler st) in
  let lu := lu_compute env (m_solver st) (asm_matrix env a) in
  let upd := lu_solve env lu (asm_rhs env a) in
  {| m_assembler := a;
     m_curSolution := constructSolution a upd (m_curSolution st) 0;
     m_curPressure := constructSolution a upd (m_curPressure st) 1;
     m_updateVector := upd;
     m_solver := lu;
     m_numIterations := m_numIterations st;
     m_maxIterations := m_maxIterations st;
     m_tolerance := m_tolerance st;
     m_converged := false;
     m_residue := norm env (asm_rhs env a);
     m_updnorm := norm env upd |}.

(** [nextIteration] (lines 191-213); the debug print is left out. *)
Definition nextIteration (st : State) : State :=
  let a := asm_assemble_at env (m_curSolution st) (m_curPressure st) (m_assembler st) in
  let lu := lu_factorize env (m_solver st) (asm_matrix env a) in
  let upd := lu_solve env lu (asm_rhs env a) in
  let up := updateSolution a upd (m_curSolution st) (m_curPressure st) in
  {| m_assembler := a;
     m_curSolution := fst up;
     m_curPressure := snd up;
     m_updateVector := upd;
     m_solver := lu;
     m_numIterations := m_numIterations st;
     m_maxIterations := m_maxIterations st;
     m_tolerance := m_tolerance st;
     m_converged := m_converged st;
     m_residue := norm env (asm_rhs env a);
     m_updnorm := norm env upd |}.

(** The termination criteria of [solve] (lines 154-155). *)
Definition criteria (initResidue initUpdate : T) (st : State) : bool :=
  (sabs (m_updnorm st / initUpdate) <? m_tolerance st)
  || (sabs (m_residue st / initResidue) <? m_tolerance st).

(** The [for] loop of [solve] (lines 149-160), entered with [m_numIterations]
    already set.  [fuel] bounds the number of passes. *)
Fixpoint solve_loop (fuel : nat) (initResidue initUpdate : T) (st : State) : State :=
  match fuel with
  | O => st
  | S fuel' =>
      if (m_numIterations st <? m_maxIterations st)%Z then
        let st1 := nextIteration st in
        if criteria initResidue initUpdate st1
        then set_converged true st1                              (* break *)
        else solve_loop fuel' initResidue initUpdate
               (set_numIterations (m_numIterations st1 + 1) st1) (* ++m_numIterations *)
      else st
  end.

(** [solve] (lines 140-161).  The loop starts at 1 and stops at
    [m_maxIterations], so [m_maxIterations - 1] passes are enough. *)
Definition solve (st : State) : State :=
  let st0 := firstIteration st in
  let initResidue := m_residue st0 in
  let initUpdate := m_updnorm st0 in
  solve_loop (Z.to_nat (m_maxIterations st0 - 1)) initResidue initUpdate
    (set_numIterations 1 st0).

(** *** Quantities named in the statements about the driver *)

(** The state after [firstIteration] and [k] calls of [nextIteration]. *)
Definition iterate (k : nat) (st : State) : State :=
  Nat.iter k nextIteration (firstIteration st).

(** The criteria of [solve] hold after [k] calls of [nextIteration]; the
    baselines are the norms [firstIteration] recorded. *)
Definition meets (k : nat) (st : State) : bool :=
  criteria (m_residue (firstIteration st)) (m_updnorm (firstIteration st)) (iterate k st).

(** The driver started from other current fields. *)
Definition with_fields (u p : Field env) (st : State) : State :=
  {| m_assembler := m_assembler st; m_curSolution := u;
     m_curPressure := p; m_updateVector := m_updateVector st;
     m_solver := m_solver st; m_numIterations := m_numIterations st;
     m_maxIterations := m_maxIterations st; m_tolerance := m_tolerance st;
     m_converged := m_converged st; m_residue := m_residue st;
     m_updnorm := m_updnorm st |}.

End Model.

End Newton.

(** [gsElasticityMixedTHNewton::solve] has no [throw] and no [try]; the calls
    it makes are not guarded by any status test. *)
Definition call_solve {T : Type} `{Scalar T} (env : Newton.Collaborators T)
    (st : Newton.State env) : outcome (Newton.State env) :=
  Returned (Newton.solve env st).


(** ** Executable instances *)

(** Determinant by expansion along the first row and inverse by the adjugate:
    a reference implementation of the two Eigen routines, for any
    coefficient type. *)
Section Cofactor.
Context {T : Type} `{Scalar T}.
Local Open Scope scalar_scope.

Definition minor (A : Mat T) (i j : nat) : Mat T :=
  fun r c => A (if (r <? i)%nat then r else S r) (if (c <? j)%nat then c else S c).

Definition sign (j : nat) : T := if Nat.even j then s1 else - s1.

Fixpoint cofactor_det (n : nat) (A : Mat T) : T :=
  match n with
  | O => s1
  | S m => big_sum (S m) (fun j => sign j * A 0%nat j * cofactor_det m (minor A 0 j))
  end.

Definition adjugate_inverse (n : nat) (A : Mat T) : Mat T :=
  fun r c => sign (r + c) * cofactor_det (n - 1) (minor A c r) / cofactor_det n A.

Definition cofactor_Eigen : Eigen T :=
  {| determinant := cofactor_det; inverse := adjugate_inverse |}.
End Cofactor.

(** The canonical rationals as coefficient type.  [slog] has no rational
    counterpart; the instance uses [x - 1] in its place, and no theorem
    depends on that choice. *)
Definition Qc_ltb (x y : Qc) : bool :=
  (Qnum (this x) * Zpos (Qden (this y)) <? Qnum (this y) * Zpos (Qden (this x)))%Z.

#[export] Instance Qc_Scalar : Scalar Qc :=
  {| s0 := Q2Qc 0; s1 := Q2Qc 1;
     sadd := Qcplus; smul := Qcmult; ssub := Qcminus; sopp := Qcopp;
     sdiv := Qcdiv; sinv := Qcinv;
     slog := fun x => Qcminus x (Q2Qc 1);
     sabs := Qcabs;
     sltb := Qc_ltb |}.

#[export] Instance Qc_Eigen : Eigen Qc := cofactor_Eigen.

(** The rationals are a field for these operations. *)
Definition Qc_ring_theory : @ring_theory Qc s0 s1 sadd smul ssub sopp eq := Qcrt.
Definition Qc_field_theory
  : @field_theory Qc s0 s1 sadd smul ssub sopp sdiv sinv eq := Qcft.

(** [z] as a rational *)
Definition qz (z : Z) : Qc := Q2Qc (inject_Z z).

(** A one-node element in the plane with two displacement functions and one
    pressure function.  The reference map is the identity, the gradients of
    the two displacement functions are the unit vectors, and the Jacobian of
    the displacement field is [diag(a, 0)], so that [F = diag(1 + a, 1)] and
    [J = 1 + a]. *)
Definition unit_element (a p : Z) : Visitor.Element Qc :=
  {| Visitor.m_dim := 2;
     Visitor.numActive := 2;
     Visitor.numActive_p := 1;
     Visitor.quRows := 1;
     Visitor.quWeights := fun _ => qz 1;
     Visitor.measure := fun _ => qz 1;
     Visitor.physGrad := fun _ c i => if (c =? i)%nat then qz 1 else qz 0;
     Visitor.geoJac := fun _ r c => if (r =? c)%nat then qz 1 else qz 0;
     Visitor.defJac := fun _ r c => if (r =? 0)%nat && (c =? 0)%nat then qz a else qz 0;
     Visitor.pressure := fun _ => qz p;
     Visitor.bVals := fun _ _ => qz 1;
     Visitor.basisVals_p := fun _ _ => qz 1;
     Visitor.forceVals := fun _ _ => qz 0 |}.

Definition material (lam : ext Qc) (mu : Z) : Visitor.Material Qc :=
  {| Visitor.m_lambda := lam; Visitor.m_mu := qz mu;
     Visitor.m_rho := qz 1; Visitor.m_tfac := qz 1 |}.

(** Degree-of-freedom maps for [unit_element]: the displacement rows get the
    global indices 0..3, the pressure row gets 4, and the mapper of
    component 0 reports its index 1 as eliminated. *)
Definition unit_maps : Visitor.DofMaps :=
  {| Visitor.ci_actives := fun ci a => (ci * 2 + a)%nat;
     Visitor.is_free_index := fun ci ii => negb ((ci =? 0)%nat && (ii =? 1)%nat) |}.

Definition empty_system : Visitor.Global Qc :=
  {| Visitor.sysMatrix := ∅; Visitor.rhsMatrix := fun _ => qz 0 |}.

(** A scalar model problem for the driver: one displacement unknown, the
    linear systems are [1 * x = rhs_at u] at the current displacement [u]
    ([u = 0] for the first system), the pressure part of a solution vector
    is zero. *)
Definition toy (rhs_at : Qc -> Qc) : Newton.Collaborators Qc :=
  {| Newton.Field := Qc;
     Newton.Vector := Qc;
     Newton.SpMat := Qc;
     Newton.Asm := Qc * Qc;
     Newton.Lu := Qc;
     Newton.asm_assemble := fun _ => (qz 1, rhs_at (qz 0));
     Newton.asm_assemble_at := fun u _ _ => (qz 1, rhs_at u);
     Newton.asm_matrix := fst;
     Newton.asm_rhs := snd;
     Newton.lu_compute := fun _ A => A;
     Newton.lu_factorize := fun _ A => A;
     Newton.lu_solve := fun A b => Qcdiv b A;
     Newton.norm := Qcabs;
     Newton.field_of := fun _ v unk => if (unk =? 0)%Z then v else qz 0;
     Newton.field_add := Qcplus |}.

(** The driver on [toy], with iteration budget [maxIt] and tolerance [tol]. *)
Definition toy_driver (rhs_at : Qc -> Qc) (maxIt : Z) (tol : Qc)
  : Newton.State (toy rhs_at) :=
  Newton.setTolerance (toy rhs_at) tol
    (Newton.setMaxIterations (toy rhs_at) maxIt
       (Newton.make (toy rhs_at) (qz 0, qz 0) (qz 0) (qz 0) (qz 0) (qz 0) (qz 0) (qz 0)
          (qz 0))).

(** [rhs_at u = (3 - u) / 2]: the residual halves with every iteration. *)
Definition halving (u : Qc) : Qc := Qcdiv (Qcminus (qz 3) u) (qz 2).

(** [rhs_at u = 1]: the update never shrinks. *)
Definition stalled (u : Qc) : Qc := qz 1.

(** ** Further quantities of the visitor *)

Section VisitorQuantities.
Context {T : Type} `{Scalar T} `{Eigen T}.
Local Open Scope scalar_scope.

(** Component [d] of [F^-T grad(phi_i)] at node [k]: the gradient of the
    displacement function [i] pulled back by the inverse deformation
    gradient. *)
Definition FinvT_grad (el : Visitor.Element T) (k i d : nat) : T :=
  big_sum (Visitor.m_dim el)
    (fun a => Visitor.defGrad_inv el k a d * Visitor.physGrad el k a i).

(** The scalar product of the gradients of the displacement functions [i]
    and [j] at node [k]. *)
Definition grad_dot (el : Visitor.Element T) (k i j : nat) : T :=
  big_sum (Visitor.m_dim el)
    (fun c => Visitor.physGrad el k c i * Visitor.physGrad el k c j).

(** The symmetric completion of an upper block triangular local matrix:
    the entry of rows [(ci, ai)], [(cj, aj)] of the matrix that
    [localToGlobal] scatters for the block K. *)
Definition K_mirrored (el : Visitor.Element T) (loc : Visitor.Local T)
    (ci ai cj aj : nat) : T :=
  let n := Visitor.numActive el in
  if (ai <=? aj)%nat
  then Visitor.localMatK loc (ci * n + ai)%nat (cj * n + aj)%nat
  else Visitor.localMatK loc (cj * n + aj)%nat (ci * n + ai)%nat.

Definition C_mirrored (loc : Visitor.Local T) (ai aj : nat) : T :=
  if (ai <=? aj)%nat then Visitor.localMatC loc ai aj else Visitor.localMatC loc aj ai.

(** The mappers send different local degrees of freedom of the element to
    different global indices. *)
Definition dofs_distinct (el : Visitor.Element T) (maps : Visitor.DofMaps) : Prop :=
  forall ci a cj b,
    Visitor.local_dof el ci a -> Visitor.local_dof el cj b ->
    Visitor.ci_actives maps ci a = Visitor.ci_actives maps cj b ->
    ci = cj /\ a = b.

(** The pairs of global indices that [localToGlobal] does not write in
    mirror: the two different global indices [r], [c] of two free components
    [ci], [cj] of one displacement basis function [a].  For such a pair the
    pass [(ci, a)] adds [K(ci*n+a, cj*n+a)] to the entry [(r, c)] and the
    pass [(cj, a)] adds [K(cj*n+a, ci*n+a)] to the entry [(c, r)]
    (lines 236-250: the second write is made only when [aj > ai]). *)
Definition unmirrored (el : Visitor.Element T) (maps : Visitor.DofMaps) (r c : nat) : Prop :=
  exists a ci cj,
    (a < Visitor.numActive el)%nat /\ (ci < Visitor.m_dim el)%nat
    /\ (cj < Visitor.m_dim el)%nat
    /\ Visitor.ci_actives maps ci a = r /\ Visitor.ci_actives maps cj a = c
    /\ Visitor.is_free_index maps ci r = true /\ Visitor.is_free_index maps cj c = true
    /\ r <> c.

(** The coefficients of [s] with an index beyond the blocks of the element
    are those of [st]. *)
Definition outside_kept (el : Visitor.Element T) (st s : Visitor.Local T) : Prop :=
  let n := Visitor.numActive el in
  let np := Visitor.numActive_p el in
  let dim := Visitor.m_dim el in
  (forall R C, (dim * n <= R)%nat \/ (dim * n <= C)%nat ->
     Visitor.localMatK s R C = Visitor.localMatK st R C)
  /\ (forall R C, (np <= R)%nat \/ (dim * n <= C)%nat ->
        Visitor.localMatB s R C = Visitor.localMatB st R C)
  /\ (forall R C, (np <= R)%nat \/ (np <= C)%nat ->
        Visitor.localMatC s R C = Visitor.localMatC st R C)
  /\ (forall R, (dim * n <= R)%nat -> Visitor.localRhs_u s R = Visitor.localRhs_u st R)
  /\ (forall R, (np <= R)%nat -> Visitor.localRhs_p s R = Visitor.localRhs_p st R).

(** The net amount one call of [localToGlobal] adds to row [r] of the
    right-hand side: the local residual rows of the free local degrees of
    freedom that resolve to [r] (lines 233 and 281). *)
Definition contribution_rhs (el : Visitor.Element T) (maps : Visitor.DofMaps)
    (loc : Visitor.Local T) (r : nat) : T :=
  let n := Visitor.numActive el in
  let np := Visitor.numActive_p el in
  let dim := Visitor.m_dim el in
  big_sum dim (fun ci => big_sum n (fun ai =>
    if Visitor.is_free_index maps ci (Visitor.ci_actives maps ci ai)
       && (Visitor.ci_actives maps ci ai =? r)%nat
    then Visitor.localRhs_u loc (ci * n + ai)%nat else s0))
  + big_sum np (fun ai =>
      if Visitor.is_free_index maps dim (Visitor.ci_actives maps dim ai)
         && (Visitor.ci_actives maps dim ai =? r)%nat
      then Visitor.localRhs_p loc ai else s0).

End VisitorQuantities.

(** ** The time integrator [gsElTimeIntegrator] (src/gsElTimeIntegrator.hpp) *)

Module TimeIntegrator.

(** The collaborators: the sparse matrices of the two assemblers with the
    operations the code applies to them, and the LDLT solver.  The two
    assemblers are assembled once, in the constructor; afterwards only
    [matrix()] and [rhs()] are read. *)
Record Collaborators (T : Type) : Type := {
  SpMat : Type;                             (* gsSparseMatrix<T> *)
  stiff_matrix : SpMat;                     (* stiffAssembler.matrix() *)
  stiff_rhs : Vec T;                        (* stiffAssembler.rhs() *)
  mass_matrix : SpMat;                      (* massAssembler.matrix() *)
  sp_scale : T -> SpMat -> SpMat;           (* a * A *)
  sp_add : SpMat -> SpMat -> SpMat;         (* A + B *)
  sp_mul : SpMat -> Vec T -> Vec T;         (* A * v *)
  ldlt_solve : SpMat -> Vec T -> Vec T      (* SimplicialLDLT(A).solve(b) *)
}.
Arguments SpMat {T} c.
Arguments stiff_matrix {T} c.
Arguments stiff_rhs {T} c.
Arguments mass_matrix {T} c.
Arguments sp_scale {T} c.
Arguments sp_add {T} c.
Arguments sp_mul {T} c.
Arguments ldlt_solve {T} c.

Section Model.
Context {T : Type} `{Scalar T}.
Variable env : Collaborators T.
Local Open Scope scalar_scope.

(** Dense vectors with the coefficient-wise operations of Eigen. *)
Definition vscale (a : T) (v : Vec T) : Vec T := fun i => a * v i.
Definition vadd (v w : Vec T) : Vec T := fun i => v i + w i.
Definition vsub (v w : Vec T) : Vec T := fun i => v i - w i.

(** The literals [2], [0.25] and [0.5]. *)
Definition two : T := s1 + s1.
Definition beta : T := s1 / (two * two).
Definition gamma : T := s1 / two.

Record State : Type := {
  timeStepNum : Z;
  dispVector : Vec T;
  velVector : Vec T;
  accVector : Vec T;
  m_matrix : SpMat env;
  m_rhs : Vec T
}.

(** The constructor (lines 24-37); [m_matrix] and [m_rhs] are not
    initialised by it, their indeterminate values are arguments here. *)
Definition make (matrix0 : SpMat env) (rhs0 : Vec T) : State :=
  let disp : Vec T := vecZero in
  {| timeStepNum := 0;
     dispVector := disp;
     velVector := vecZero;
     accVector := ldlt_solve env (mass_matrix env)
                    (vadd (sp_mul env (sp_scale env (- s1) (stiff_matrix env)) disp)
                          (stiff_rhs env));
     m_matrix := matrix0;
     m_rhs := rhs0 |}.

(** The coefficients of [makeTimeStep] (lines 42-50); [pow(timeStep,2)] is
    the square. *)
Definition alpha1 (timeStep : T) : T := s1 / beta / (timeStep * timeStep).
Definition alpha2 (timeStep : T) : T := s1 / beta / timeStep.
Definition alpha3 : T := (s1 - two * beta) / two / beta.
Definition alpha4 (timeStep : T) : T := gamma / beta / timeStep.
Definition alpha5 : T := s1 - gamma / beta.
Definition alpha6 (timeStep : T) : T := (s1 - gamma / beta / two) * timeStep.

(** [makeTimeStep] (lines 39-61). *)
Definition makeTimeStep (timeStep : T) (st : State) : State :=
  let matrix := sp_add env (sp_scale env (alpha1 timeStep) (mass_matrix env))
                  (stiff_matrix env) in
  let rhs :=
    vadd (sp_mul env (mass_matrix env)
            (vadd (vadd (vscale (alpha1 timeStep) (dispVector st))
                        (vscale (alpha2 timeStep) (velVector st)))
                  (vscale alpha3 (accVector st))))
         (stiff_rhs env) in
  let newDispVector := ldlt_solve env matrix rhs in
  let tempVelVector := velVector st in
  let vel :=
    vadd (vadd (vscale (alpha4 timeStep) (vsub newDispVector (dispVector st)))
               (vscale alpha5 tempVelVector))
         (vscale (alpha6 timeStep) (accVector st)) in
  let acc :=
    vsub (vsub (vscale (alpha1 timeStep) (vsub newDispVector (dispVector st)))
               (vscale (alpha2 timeStep) tempVelVector))
         (vscale alpha3 (accVector st)) in
  {| timeStepNum := timeStepNum st;
     dispVector := newDispVector;
     velVector := vel;
     accVector := acc;
     m_matrix := matrix;
     m_rhs := rhs |}.

(** [makeTimeStepNL] (lines 63-77) computes the same six coefficients and
    uses none; [assemble] (lines 79-83) is empty. *)
Definition makeTimeStepNL (timeStep : T) (st : State) : State := st.
Definition assemble (st : State) : State := st.

End Model.

End TimeIntegrator.

(** A one-unknown model for the integrator over the rationals: mass [m],
    stiffness [k], load [f]. *)
Definition oscillator (m k f : Qc) : TimeIntegrator.Collaborators Qc :=
  {| TimeIntegrator.SpMat := Qc;
     TimeIntegrator.stiff_matrix := k;
     TimeIntegrator.stiff_rhs := fun _ => f;
     TimeIntegrator.mass_matrix := m;
     TimeIntegrator.sp_scale := Qcmult;
     TimeIntegrator.sp_add := Qcplus;
     TimeIntegrator.sp_mul := fun A v i => Qcmult A (v i);
     TimeIntegrator.ldlt_solve := fun A b i => Qcdiv (b i) A |}.

(** ** The progress bar [gsProgressBar] (src/gsBaseUtils.h) *)

Module ProgressBar.

(** What is sent to [gsInfo]: text, integers, [flush()] and [std::endl]. *)
Inductive token : Type :=
| Txt (s : string)
| Num (z : Z)
| Flush
| Endl.

(** What a call of [display] does: it prints, or [GISMO_ENSURE] throws with
    its message, or the call has no defined result (the conversion of
    [0./0] to [index_t] when [total] is zero). *)
Inductive shown : Type :=
| Printed (out : list token)
| EnsureFailed (msg : string)
| NoDefinedResult.

Record gsProgressBar : Type := { m_width : Z }.

(** The cell printed for position [i] (lines 134-139 and 154-159). *)
Definition cell (threshold i : Z) : token :=
  if (i <? threshold)%Z then Txt "="
  else if (i =? threshold)%Z then Txt ">"
  else Txt " ".

(** [for(index_t i = 0; i < m_width; i++)] (line 153) printing one cell per
    pass. *)
Definition cells (width threshold : Z) : list token :=
  for_range 0 (Z.to_nat width)
    (fun i out => out ++ [cell threshold (Z.of_nat i)]) [].

(** The text that closes the line (line 160): a space followed by a
    carriage return, the character of code 13. *)
Definition space_cr : string :=
  String (Ascii.ascii_of_nat 32) (String (Ascii.ascii_of_nat 13) EmptyString).

(** [display(index_t progress, index_t total)] (lines 148-165).  The
    threshold [index_t(1.*progress*m_width/total)] is computed in double
    precision and truncated; for [|m_width| * total < 2^53] the product is
    exact and the truncated quotient is the truncated quotient of the
    integers, which is what the model takes. *)
Definition display (bar : gsProgressBar) (progress total : Z) : shown :=
  if negb ((0 <=? progress)%Z && (progress <=? total)%Z && (0 <=? total)%Z)
  then EnsureFailed "Invalid progress value!"
  else if (total =? 0)%Z then NoDefinedResult
  else
    let threshold := Z.quot (progress * m_width bar) total in
    Printed
      ([Txt "["] ++ cells (m_width bar) threshold
       ++ [Txt "] "; Num progress; Txt "/"; Num total; Txt space_cr; Flush]
       ++ (if (progress =? total)%Z then [Endl] else [])).

(** The number of cells printed as [=]. *)
Definition is_fill (t : token) : bool :=
  match t with
  | Txt s => String.eqb s "="
  | _ => false
  end.

Definition filled (r : shown) : nat :=
  match r with
  | Printed out => List.length (List.filter is_fill out)
  | _ => 0%nat
  end.

End ProgressBar.

(** ** Further instances *)

(** Degree-of-freedom maps for [unit_element] with every index eliminated. *)
Definition pinned_maps : Visitor.DofMaps :=
  {| Visitor.ci_actives := fun ci a => (ci * 2 + a)%nat;
     Visitor.is_free_index := fun _ _ => false |}.

(** Degree-of-freedom maps of a neighbouring element: it shares the global
    indices 2, 3 and 4 and has 5 and 6 of its own; every index is free. *)
Definition neighbour_maps : Visitor.DofMaps :=
  {| Visitor.ci_actives := fun ci a =>
       match ci, a with
       | 0%nat, 0%nat => 2%nat
       | 0%nat, _ => 5%nat
       | 1%nat, 0%nat => 3%nat
       | 1%nat, _ => 6%nat
       | _, _ => 4%nat
       end;
     Visitor.is_free_index := fun _ _ => true |}.

(** The integrator at rest on the oscillator with unit mass and stiffness
    and load 3, and a state in motion. *)
Definition oscillator_start : TimeIntegrator.State (oscillator (qz 1) (qz 1) (qz 3)) :=
  TimeIntegrator.make (oscillator (qz 1) (qz 1) (qz 3)) (qz 0) (fun _ => qz 0).

Definition bar25 : ProgressBar.gsProgressBar := {| ProgressBar.m_width := 25 |}.

(** ** Double precision *)

(** IEEE 754 binary64 with rounding to nearest, the arithmetic of [real_t],
    the coefficient type the classes are instantiated with.  There is no
    primitive logarithm; the instance uses [x - 1] in the place of [slog],
    and what is computed with this instance below (the tangent block K and
    its scatter) does not involve it.  Determinant and inverse are those of
    [cofactor_Eigen]. *)
Module Binary64.
Import PrimFloat.

#[export] Instance binary64_Scalar : Scalar float :=
  {| s0 := 0%float; s1 := 1%float;
     sadd := PrimFloat.add; smul := PrimFloat.mul; ssub := PrimFloat.sub;
     sopp := PrimFloat.opp; sdiv := PrimFloat.div;
     sinv := fun x => PrimFloat.div 1%float x;
     slog := fun x => PrimFloat.sub x 1%float;
     sabs := PrimFloat.abs;
     sltb := PrimFloat.ltb |}.

#[export] Instance binary64_Eigen : Eigen float := cofactor_Eigen.

(** A one-node element in the plane with one displacement function and one
    pressure function.  The reference map is the identity, the gradient of
    the displacement function is [(7/8, -1)], and the Jacobian of the
    displacement field is [[7/8, 1/2], [-1/4, -5/8]], so that
    [F = [15/8, 1/2], [-1/4, 3/8]] and [J = 53/64 > 0]; the pressure is 0.
    All the data are binary fractions, hence exact in binary64. *)
Definition sheared_element : Visitor.Element float :=
  {| Visitor.m_dim := 2;
     Visitor.numActive := 1;
     Visitor.numActive_p := 1;
     Visitor.quRows := 1;
     Visitor.quWeights := fun _ => 1%float;
     Visitor.measure := fun _ => 1%float;
     Visitor.physGrad := fun _ c _ =>
       match c with 0%nat => 0.875%float | _ => (-1)%float end;
     Visitor.geoJac := fun _ r c => if (r =? c)%nat then 1%float else 0%float;
     Visitor.defJac := fun _ r c =>
       match r, c with
       | 0%nat, 0%nat => 0.875%float
       | 0%nat, _ => 0.5%float
       | _, 0%nat => (-0.25)%float
       | _, _ => (-0.625)%float
       end;
     Visitor.pressure := fun _ => 0%float;
     Visitor.bVals := fun _ _ => 1%float;
     Visitor.basisVals_p := fun _ _ => 1%float;
     Visitor.forceVals := fun _ _ => 0%float |}.

(** [mu = 1], [lambda] infinite. *)
Definition unit_material : Visitor.Material float :=
  {| Visitor.m_lambda := Infinity; Visitor.m_mu := 1%float;
     Visitor.m_rho := 1%float; Visitor.m_tfac := 1%float |}.

(** The two displacement components of the function get the global indices
    0 and 1, the pressure function gets 2; every index is free. *)
Definition component_maps : Visitor.DofMaps :=
  {| Visitor.ci_actives := fun ci a => (ci + a)%nat;
     Visitor.is_free_index := fun _ _ => true |}.

Definition empty_system : Visitor.Global float :=
  {| Visitor.sysMatrix := ∅; Visitor.rhsMatrix := fun _ => 0%float |}.

(** The determinant at the node, and the two values the element scatters
    into the entries [(0, 1)] and [(1, 0)]: they differ in the last binary
    digit. *)
Definition sheared_J : float := 0.828125%float.
Definition sheared_K01 : float := (-0x1.0dc2f06a7248cp-2)%float.
Definition sheared_K10 : float := (-0x1.0dc2f06a7248dp-2)%float.

End Binary64.
Import (hints) Binary64.


(** * Proofs *)

(** ** Loops *)

Section LoopFacts.
Context {St : Type}.
Implicit Types (body : nat -> St -> St) (s : St).

Lemma for_loop_last body s lo n :
  for_loop lo (S n) body s = body (lo + n)%nat (for_loop lo n body s).
Proof.
  revert lo s. induction n as [|n IH]; intros lo s.
  - simpl. now rewrite Nat.add_0_r.
  - change (for_loop lo (S (S n)) body s)
      with (for_loop (S lo) (S n) body (body lo s)).
    rewrite IH. simpl. now rewrite Nat.add_succ_r.
Qed.

Lemma for_range_empty body s lo hi : (hi <= lo)%nat -> for_range lo hi body s = s.
Proof.
  intros Hle. unfold for_range.
  replace (hi - lo)%nat with 0%nat by lia. reflexivity.
Qed.

Lemma for_range_last body s lo hi :
  (lo <= hi)%nat ->
  for_range lo (S hi) body s = body hi (for_range lo hi body s).
Proof.
  intros Hle. unfold for_range.
  replace (S hi - lo)%nat with (S (hi - lo)) by lia.
  rewrite for_loop_last. f_equal. lia.
Qed.

Lemma for_range_first body s lo hi :
  (lo < hi)%nat ->
  for_range lo hi body s = for_range (S lo) hi body (body lo s).
Proof.
  intros Hlt. unfold for_range.
  replace (hi - lo)%nat with (S (hi - S lo)) by lia. reflexivity.
Qed.

(** A property kept by every pass is kept by the loop. *)
Lemma for_range_inv (P : St -> Prop) body s lo hi :
  P s ->
  (forall i s', (lo <= i < hi)%nat -> P s' -> P (body i s')) ->
  P (for_range lo hi body s).
Proof.
  intros H0 Hstep.
  destruct (Nat.le_gt_cases hi lo) as [Hle|Hlt].
  - now rewrite for_range_empty.
  - assert (Hgen : forall m, (lo <= m <= hi)%nat -> P (for_range lo m body s)).
    { induction m as [|m IH]; intros Hm.
      - rewrite for_range_empty by lia. exact H0.
      - destruct (Nat.eq_dec lo (S m)) as [->|Hne].
        + rewrite for_range_empty by lia. exact H0.
        + rewrite for_range_last by lia. apply Hstep; [lia|]. apply IH. lia. }
    apply Hgen. lia.
Qed.

(** Two loops over the same range whose passes agree. *)
Lemma for_range_ext body body' s lo hi :
  (forall i s', (lo <= i < hi)%nat -> body i s' = body' i s') ->
  for_range lo hi body s = for_range lo hi body' s.
Proof.
  intros Hext. unfold for_range.
  assert (Hgen : forall n l s0, (lo <= l)%nat -> (l + n <= Nat.max lo hi)%nat ->
             for_loop l n body s0 = for_loop l n body' s0).
  { induction n as [|n IH]; intros l s0 Hl Hn; [reflexivity|].
    simpl. rewrite Hext by lia. apply IH; lia. }
  apply Hgen; lia.
Qed.
End LoopFacts.

(** ** Sums in a commutative ring *)

Section SumFacts.
Context {T : Type} `{Scalar T}.
Hypothesis Tring : ring_theory s0 s1 sadd smul ssub sopp (@eq T).
Add Ring Tring_ring : Tring.
Local Open Scope scalar_scope.

Lemma big_sum_ext (n : nat) (f g : nat -> T) :
  (forall k, (k < n)%nat -> f k = g k) -> big_sum n f = big_sum n g.
Proof.
  induction n as [|n IH]; intros Hfg; [reflexivity|].
  simpl. rewrite IH by (intros; apply Hfg; lia). rewrite Hfg by lia. reflexivity.
Qed.

Lemma big_sum_zero (n : nat) : big_sum n (fun _ => s0) = s0.
Proof. induction n as [|n IH]; simpl; [reflexivity|]. rewrite IH. ring. Qed.

Lemma big_sum_plus (n : nat) (f g : nat -> T) :
  big_sum n (fun k => f k + g k) = big_sum n f + big_sum n g.
Proof. induction n as [|n IH]; simpl; [ring|]. rewrite IH. ring. Qed.

Lemma big_sum_scale (n : nat) (a : T) (f : nat -> T) :
  big_sum n (fun k => a * f k) = a * big_sum n f.
Proof. induction n as [|n IH]; simpl; [ring|]. rewrite IH. ring. Qed.

Lemma big_sum_opp (n : nat) (f : nat -> T) :
  big_sum n (fun k => - f k) = - big_sum n f.
Proof. induction n as [|n IH]; simpl; [ring|]. rewrite IH. ring. Qed.

(** Exchange of two finite sums. *)
Lemma big_sum_swap (n m : nat) (f : nat -> nat -> T) :
  big_sum n (fun a => big_sum m (fun b => f a b))
  = big_sum m (fun b => big_sum n (fun a => f a b)).
Proof.
  induction n as [|n IH]; simpl.
  - now rewrite big_sum_zero.
  - rewrite IH, <- big_sum_plus. reflexivity.
Qed.

(** A sum with a single term that can be different from zero. *)
Lemma big_sum_single (n k0 : nat) (f : nat -> T) :
  big_sum n (fun k => if (k =? k0)%nat then f k else s0)
  = if (k0 <? n)%nat then f k0 else s0.
Proof.
  induction n as [|n IH]; simpl; [reflexivity|].
  rewrite IH.
  destruct (Nat.eqb_spec n k0) as [->|Hne].
  - rewrite Nat.ltb_irrefl.
    replace (k0 <? S k0)%nat with true by (symmetry; apply Nat.ltb_lt; lia). ring.
  - destruct (Nat.ltb_spec k0 n), (Nat.ltb_spec k0 (S n)); try lia; ring.
Qed.

Lemma sum_range_from_0 (n : nat) (f : nat -> T) : sum_range 0 n f = big_sum n f.
Proof. unfold sum_range. rewrite Nat.sub_0_r. reflexivity. Qed.

Lemma sum_range_empty (lo hi : nat) (f : nat -> T) :
  (hi <= lo)%nat -> sum_range lo hi f = s0.
Proof.
  intros Hle. unfold sum_range. replace (hi - lo)%nat with 0%nat by lia. reflexivity.
Qed.

Lemma sum_range_last (lo hi : nat) (f : nat -> T) :
  (lo <= hi)%nat -> sum_range lo (S hi) f = sum_range lo hi f + f hi.
Proof.
  intros Hle. unfold sum_range.
  replace (S hi - lo)%nat with (S (hi - lo)) by lia. simpl.
  replace (lo + (hi - lo))%nat with hi by lia. reflexivity.
Qed.

Lemma sum_range_ext (lo hi : nat) (f g : nat -> T) :
  (forall k, (lo <= k < hi)%nat -> f k = g k) -> sum_range lo hi f = sum_range lo hi g.
Proof. intros Hfg. unfold sum_range. apply big_sum_ext. intros k Hk. apply Hfg. lia. Qed.

Lemma sum_range_single (lo hi k0 : nat) (f : nat -> T) :
  sum_range lo hi (fun k => if (k =? k0)%nat then f k else s0)
  = if (lo <=? k0)%nat && (k0 <? hi)%nat then f k0 else s0.
Proof.
  unfold sum_range.
  destruct (Nat.leb_spec lo k0) as [Hle|Hgt]; simpl.
  - rewrite (big_sum_ext _ _
      (fun k => if (k =? k0 - lo)%nat then f (lo + k)%nat else s0)).
    + rewrite big_sum_single.
      replace (lo + (k0 - lo))%nat with k0 by lia.
      destruct (Nat.ltb_spec (k0 - lo) (hi - lo)), (Nat.ltb_spec k0 hi);
        try lia; reflexivity.
    + intros k _.
      destruct (Nat.eqb_spec (lo + k) k0), (Nat.eqb_spec k (k0 - lo));
        try lia; reflexivity.
  - rewrite (big_sum_ext _ _ (fun _ => s0)).
    + apply big_sum_zero.
    + intros k _. destruct (Nat.eqb_spec (lo + k) k0); [lia|reflexivity].
Qed.

Lemma sum_range_first (lo hi : nat) (f : nat -> T) :
  (lo < hi)%nat -> sum_range lo hi f = f lo + sum_range (S lo) hi f.
Proof.
  intros Hlt.
  induction hi as [|hi IH]; [lia|].
  destruct (Nat.eq_dec lo hi) as [->|Hne].
  - rewrite sum_range_last by lia.
    rewrite !sum_range_empty by lia. ring.
  - rewrite !sum_range_last by lia. rewrite IH by lia. ring.
Qed.

(** A loop whose passes each add [h i] to an observed coefficient adds the
    sum of the [h i]. *)
Lemma for_range_accum {St : Type} (get : St -> T) (body : nat -> St -> St)
    (h : nat -> T) (lo hi : nat) (s : St) :
  (forall i s', (lo <= i < hi)%nat -> get (body i s') = get s' + h i) ->
  get (for_range lo hi body s) = get s + sum_range lo hi h.
Proof.
  intros Hstep.
  destruct (Nat.le_gt_cases hi lo) as [Hle|Hlt].
  - rewrite for_range_empty, sum_range_empty by lia. ring.
  - assert (Hgen : forall m, (lo <= m <= hi)%nat ->
               get (for_range lo m body s) = get s + sum_range lo m h).
    { induction m as [|m IH]; intros Hm.
      - rewrite for_range_empty, sum_range_empty by lia. ring.
      - destruct (Nat.eq_dec lo (S m)) as [->|Hne].
        + rewrite for_range_empty, sum_range_empty by lia. ring.
        + rewrite for_range_last, sum_range_last by lia.
          rewrite Hstep by lia. rewrite IH by lia. ring. }
    apply Hgen. lia.
Qed.

(** The trace of a product does not depend on the order of the factors. *)
Lemma trace_mul_comm (n : nat) (A B : Mat T) :
  trace n (mat_mul n A B) = trace n (mat_mul n B A).
Proof.
  unfold trace, mat_mul. rewrite big_sum_swap.
  apply big_sum_ext. intros a _. apply big_sum_ext. intros b _. ring.
Qed.

Lemma trace_transpose_mul_comm (n : nat) (A B : Mat T) :
  trace n (mat_mul n (transpose A) B) = trace n (mat_mul n (transpose B) A).
Proof.
  unfold trace, mat_mul, transpose.
  apply big_sum_ext. intros a _. apply big_sum_ext. intros b _. ring.
Qed.

End SumFacts.

(** ** Index arithmetic of the local matrices *)

(** Row [d * n + i] of a local matrix belongs to component [d] and basis
    function [i < n]; the pair is determined by the row. *)
Lemma block_index_eqb (n d i d' i' : nat) :
  (i < n)%nat -> (i' < n)%nat ->
  (d * n + i =? d' * n + i')%nat = ((d =? d')%nat && (i =? i')%nat).
Proof.
  intros Hi Hi'.
  destruct (Nat.eqb_spec d d') as [->|Hd]; simpl.
  - destruct (Nat.eqb_spec i i') as [->|Hne].
    + apply Nat.eqb_refl.
    + apply Nat.eqb_neq. lia.
  - apply Nat.eqb_neq. intros Heq. apply Hd.
    assert (Hlt : forall a b : nat, (a < b)%nat -> (a * n + n <= b * n)%nat) by (intros; nia).
    destruct (Nat.lt_trichotomy d d') as [Hlt'|[Heq'|Hgt]]; [|assumption|].
    + specialize (Hlt _ _ Hlt'). lia.
    + specialize (Hlt _ _ Hgt). lia.
Qed.

Section DoubleSums.
Context {T : Type} `{Scalar T}.
Hypothesis Tring : ring_theory s0 s1 sadd smul ssub sopp (@eq T).
Add Ring Tring_ring2 : Tring.
Local Open Scope scalar_scope.

Lemma big_sum_guard (n : nat) (b : bool) (f : nat -> T) :
  big_sum n (fun k => if b then f k else s0) = if b then big_sum n f else s0.
Proof. destruct b; [reflexivity|]. now apply big_sum_zero. Qed.

Lemma sum_range_guard (lo hi : nat) (b : bool) (f : nat -> T) :
  sum_range lo hi (fun k => if b then f k else s0) = if b then sum_range lo hi f else s0.
Proof. unfold sum_range. now apply big_sum_guard. Qed.

(** A double sum over basis functions [j] in [lo..n) and components [d]
    with one term different from zero. *)
Lemma sum_range_block_single (lo n dim j0 d0 : nat) (x : nat -> nat -> T) :
  (j0 < n)%nat -> (d0 < dim)%nat ->
  sum_range lo n (fun j => big_sum dim (fun d =>
      if (d0 * n + j0 =? d * n + j)%nat then x j d else s0))
  = if (lo <=? j0)%nat then x j0 d0 else s0.
Proof.
  intros Hj Hd.
  rewrite (sum_range_ext _ _ _
     (fun j => if (j =? j0)%nat then x j d0 else s0)).
  - rewrite (sum_range_single Tring).
    replace (j0 <? n)%nat with true by (symmetry; apply Nat.ltb_lt; lia).
    now rewrite andb_true_r.
  - intros j Hjr.
    rewrite (big_sum_ext _ _
      (fun d => if (d =? d0)%nat then (if (j =? j0)%nat then x j d else s0) else s0)).
    + rewrite (big_sum_single Tring).
      replace (d0 <? dim)%nat with true by (symmetry; apply Nat.ltb_lt; lia).
      reflexivity.
    + intros d _. rewrite block_index_eqb by lia.
      rewrite (Nat.eqb_sym d0 d), (Nat.eqb_sym j0 j).
      destruct (d =? d0)%nat, (j =? j0)%nat; reflexivity.
Qed.

Lemma big_sum_block_single (n dim j0 d0 : nat) (x : nat -> nat -> T) :
  (j0 < n)%nat -> (d0 < dim)%nat ->
  big_sum n (fun j => big_sum dim (fun d =>
      if (d0 * n + j0 =? d * n + j)%nat then x j d else s0))
  = x j0 d0.
Proof.
  intros Hj Hd. rewrite <- (sum_range_from_0 n).
  rewrite sum_range_block_single by assumption. reflexivity.
Qed.

End DoubleSums.

(** ** What [assemble] adds at one quadrature node *)

Section AssembleFacts.
Import Visitor.
Context {T : Type} `{Scalar T} `{Eigen T}.
Hypothesis Tring : ring_theory s0 s1 sadd smul ssub sopp (@eq T).
Add Ring Tring_ring3 : Tring.
Local Open Scope scalar_scope.

Variable mp : Material T.
Variable el : Element T.

Local Abbreviation n := (numActive el).
Local Abbreviation np := (numActive_p el).
Local Abbreviation dim := (m_dim el).
Local Abbreviation mu := (m_mu mp).

(** The loops over the tangent blocks leave the other buffers alone. *)
Lemma tangentK_loop_frame (k i di : nat) (st : Local T) :
  let st' := tangentK_loop mp el k i di st in
  localMatB st' = localMatB st /\ localMatC st' = localMatC st /\
  localRhs_u st' = localRhs_u st /\ localRhs_p st' = localRhs_p st.
Proof.
  unfold tangentK_loop. cbv zeta.
  apply (for_range_inv (fun s => localMatB s = localMatB st /\ localMatC s = localMatC st /\
                                 localRhs_u s = localRhs_u st /\ localRhs_p s = localRhs_p st));
    [tauto|].
  intros j s' _ Hs'. apply for_range_inv; [exact Hs'|].
  intros dj s'' _ Hs''. exact Hs''.
Qed.

Lemma couplingB_loop_frame (k i di : nat) (st : Local T) :
  let st' := couplingB_loop mp el k i di st in
  localMatK st' = localMatK st /\ localMatC st' = localMatC st /\
  localRhs_u st' = localRhs_u st /\ localRhs_p st' = localRhs_p st.
Proof.
  unfold couplingB_loop. cbv zeta.
  apply (for_range_inv (fun s => localMatK s = localMatK st /\ localMatC s = localMatC st /\
                                 localRhs_u s = localRhs_u st /\ localRhs_p s = localRhs_p st));
    [tauto|].
  intros j s' _ Hs'. exact Hs'.
Qed.

Lemma displacement_body_rhs_u (k i di : nat) (st : Local T) (idx : nat) :
  localRhs_u (displacement_body mp el k i di st) idx
  = localRhs_u st idx
    + (if (idx =? di * n + i)%nat then - locResVec mp el k i di else s0).
Proof.
  unfold displacement_body. cbv zeta.
  destruct (couplingB_loop_frame k i di
              (tangentK_loop mp el k i di
                 (with_localRhs_u st
                    (vec_sub_at (localRhs_u st) (di * n + i) (locResVec mp el k i di)))))
    as (_ & _ & -> & _).
  destruct (tangentK_loop_frame k i di
              (with_localRhs_u st
                 (vec_sub_at (localRhs_u st) (di * n + i) (locResVec mp el k i di))))
    as (_ & _ & -> & _).
  simpl. unfold vec_sub_at.
  destruct (idx =? di * n + i)%nat; ring.
Qed.

Lemma displacement_loop_rhs_u (k i di : nat) (st : Local T) :
  (i < n)%nat -> (di < dim)%nat ->
  localRhs_u (displacement_loop mp el k st) (di * n + i)%nat
  = localRhs_u st (di * n + i)%nat - locResVec mp el k i di.
Proof.
  intros Hi Hdi. unfold displacement_loop.
  rewrite (for_range_accum Tring (fun s => localRhs_u s (di * n + i)%nat) _
             (fun i' => big_sum dim (fun d' =>
                if (di * n + i =? d' * n + i')%nat then - locResVec mp el k i' d' else s0))).
  - rewrite (sum_range_from_0 n), (big_sum_block_single Tring) by assumption. ring.
  - intros i' s' _.
    rewrite (for_range_accum Tring (fun s => localRhs_u s (di * n + i)%nat) _
               (fun d' => if (di * n + i =? d' * n + i')%nat
                          then - locResVec mp el k i' d' else s0)).
    + now rewrite (sum_range_from_0 dim).
    + intros d' s'' _. apply displacement_body_rhs_u.
Qed.

(** *** The tangent block K *)

Lemma tangentK_loop_K (k i di : nat) (st : Local T) (R C : nat) :
  localMatK (tangentK_loop mp el k i di st) R C
  = localMatK st R C
    + sum_range i n (fun j => big_sum dim (fun dj =>
        if (R =? di * n + i)%nat && (C =? dj * n + j)%nat
        then weight el k * locKtgVal mp el k di i dj j else s0)).
Proof.
  unfold tangentK_loop.
  apply (for_range_accum Tring (fun s => localMatK s R C)).
  intros j s' _.
  rewrite (for_range_accum Tring (fun s => localMatK s R C) _
             (fun dj => if (R =? di * n + i)%nat && (C =? dj * n + j)%nat
                        then weight el k * locKtgVal mp el k di i dj j else s0)).
  - now rewrite (sum_range_from_0 dim).
  - intros dj s'' _. simpl. unfold mat_add_at.
    destruct ((R =? di * n + i)%nat && (C =? dj * n + j)%nat); ring.
Qed.

Lemma displacement_body_K (k i di : nat) (st : Local T) (R C : nat) :
  localMatK (displacement_body mp el k i di st) R C
  = localMatK st R C
    + sum_range i n (fun j => big_sum dim (fun dj =>
        if (R =? di * n + i)%nat && (C =? dj * n + j)%nat
        then weight el k * locKtgVal mp el k di i dj j else s0)).
Proof.
  unfold displacement_body. cbv zeta.
  destruct (couplingB_loop_frame k i di
              (tangentK_loop mp el k i di
                 (with_localRhs_u st
                    (vec_sub_at (localRhs_u st) (di * n + i) (locResVec mp el k i di)))))
    as (-> & _).
  now rewrite tangentK_loop_K.
Qed.

(** Entries of the upper block triangle ([i <= j]) receive the tangent
    value of the node; the other entries of K are left as they are. *)
Lemma displacement_loop_K (k i di j dj : nat) (st : Local T) :
  (i < n)%nat -> (j < n)%nat -> (di < dim)%nat -> (dj < dim)%nat ->
  localMatK (displacement_loop mp el k st) (di * n + i)%nat (dj * n + j)%nat
  = localMatK st (di * n + i)%nat (dj * n + j)%nat
    + (if (i <=? j)%nat then weight el k * locKtgVal mp el k di i dj j else s0).
Proof.
  intros Hi Hj Hdi Hdj. unfold displacement_loop.
  set (R := (di * n + i)%nat). set (C := (dj * n + j)%nat).
  rewrite (for_range_accum Tring (fun s => localMatK s R C) _
             (fun i' => big_sum dim (fun d' =>
                if (R =? d' * n + i')%nat
                then (if (i' <=? j)%nat
                      then weight el k * locKtgVal mp el k d' i' dj j else s0)
                else s0))).
  - rewrite (sum_range_from_0 n). unfold R.
    rewrite (big_sum_block_single Tring) by assumption. reflexivity.
  - intros i' s' Hi'.
    rewrite (for_range_accum Tring (fun s => localMatK s R C) _
               (fun d' => if (R =? d' * n + i')%nat
                          then (if (i' <=? j)%nat
                                then weight el k * locKtgVal mp el k d' i' dj j else s0)
                          else s0)).
    + now rewrite (sum_range_from_0 dim).
    + intros d' s'' _. rewrite displacement_body_K. f_equal.
      rewrite (sum_range_ext _ _ _
        (fun j' => if (R =? d' * n + i')%nat
                   then big_sum dim (fun dj' =>
                          if (C =? dj' * n + j')%nat
                          then weight el k * locKtgVal mp el k d' i' dj' j' else s0)
                   else s0)).
      * rewrite (sum_range_guard Tring).
        destruct (R =? d' * n + i')%nat; [|reflexivity].
        unfold C. now rewrite (sum_range_block_single Tring) by assumption.
      * intros j' _. rewrite <- (big_sum_guard Tring).
        apply big_sum_ext. intros dj' _.
        destruct (R =? d' * n + i')%nat, (C =? dj' * n + j')%nat; reflexivity.
Qed.

(** For one basis function, swapping the two components does not change the
    tangent value. *)
Lemma locKtgVal_swap (k a ci cj : nat) :
  locKtgVal mp el k ci a cj a = locKtgVal mp el k cj a ci a.
Proof.
  unfold locKtgVal.
  rewrite (trace_transpose_mul_comm Tring dim (gradU el k ci a)).
  rewrite (trace_mul_comm Tring dim (defGrad_inv_gradU el k ci a)).
  reflexivity.
Qed.

Lemma displacement_loop_frame (k : nat) (st : Local T) :
  let st' := displacement_loop mp el k st in
  localMatC st' = localMatC st /\ localRhs_p st' = localRhs_p st.
Proof.
  unfold displacement_loop. cbv zeta.
  apply (for_range_inv (fun s => localMatC s = localMatC st /\ localRhs_p s = localRhs_p st));
    [tauto|].
  intros i s' _ Hs'. apply for_range_inv; [exact Hs'|].
  intros di s'' _ Hs''. unfold displacement_body. cbv zeta.
  match goal with |- context [couplingB_loop mp el k i di ?x] =>
    destruct (couplingB_loop_frame k i di x) as (_ & -> & _ & ->) end.
  match goal with |- context [tangentK_loop mp el k i di ?x] =>
    destruct (tangentK_loop_frame k i di x) as (_ & -> & _ & ->) end.
  exact Hs''.
Qed.

(** *** The pressure rows *)

Lemma pressure_body_frame (k i : nat) (st : Local T) :
  let st' := pressure_body mp el k i st in
  localMatK st' = localMatK st /\ localMatB st' = localMatB st /\
  localRhs_u st' = localRhs_u st.
Proof.
  unfold pressure_body. cbv zeta.
  destruct (m_lambda mp); [|simpl; tauto].
  apply (for_range_inv (fun s => localMatK s = localMatK st /\ localMatB s = localMatB st /\
                                 localRhs_u s = localRhs_u st)); [simpl; tauto|].
  intros j s' _ Hs'. exact Hs'.
Qed.

Lemma pressure_body_rhs_p (k i : nat) (st : Local T) (idx : nat) :
  localRhs_p (pressure_body mp el k i st) idx
  = localRhs_p st idx
    + (if (idx =? i)%nat
       then penalty_rhs mp el k i - logdetF mp el k * basisVals_p el i k else s0).
Proof.
  unfold pressure_body, penalty_rhs. cbv zeta.
  destruct (m_lambda mp) as [lam|].
  - match goal with |- localRhs_p (for_range _ _ _ ?x) _ = _ =>
      transitivity (localRhs_p x idx) end.
    + apply (for_range_inv (fun s => localRhs_p s idx = _)); [reflexivity|].
      intros j s' _ Hs'. exact Hs'.
    + simpl. unfold vec_add_at, vec_sub_at.
      destruct (idx =? i)%nat; ring.
  - simpl. unfold vec_sub_at. destruct (idx =? i)%nat; ring.
Qed.

Lemma pressure_body_C (k i : nat) (st : Local T) (R C : nat) :
  localMatC (pressure_body mp el k i st) R C
  = localMatC st R C
    + (if (R =? i)%nat && (i <=? C)%nat && (C <? np)%nat
       then - penalty_C mp el k i C else s0).
Proof.
  unfold pressure_body, penalty_C. cbv zeta.
  destruct (m_lambda mp) as [lam|].
  - rewrite (for_range_accum Tring (fun s => localMatC s R C) _
               (fun j => if (j =? C)%nat
                         then (if (R =? i)%nat
                               then - (nearmup mp el k lam * basisVals_p el i k
                                       * basisVals_p el j k)
                               else s0)
                         else s0)).
    + rewrite (sum_range_single Tring). simpl.
      destruct (R =? i)%nat, (i <=? C)%nat, (C <? np)%nat; simpl; ring.
    + intros j s' _. simpl. unfold mat_sub_at. rewrite (Nat.eqb_sym j C).
      destruct (R =? i)%nat, (C =? j)%nat; simpl; ring.
  - simpl. destruct ((R =? i)%nat && (i <=? C)%nat && (C <? np)%nat); ring.
Qed.

Lemma pressure_loop_frame (k : nat) (st : Local T) :
  let st' := pressure_loop mp el k st in
  localMatK st' = localMatK st /\ localMatB st' = localMatB st /\
  localRhs_u st' = localRhs_u st.
Proof.
  unfold pressure_loop. cbv zeta.
  apply (for_range_inv (fun s => localMatK s = localMatK st /\ localMatB s = localMatB st /\
                                 localRhs_u s = localRhs_u st)); [tauto|].
  intros i s' _ Hs'.
  destruct (pressure_body_frame k i s') as (-> & -> & ->). exact Hs'.
Qed.

Lemma pressure_loop_rhs_p (k i : nat) (st : Local T) :
  localRhs_p (pressure_loop mp el k st) i
  = localRhs_p st i
    + (if (i <? np)%nat
       then penalty_rhs mp el k i - logdetF mp el k * basisVals_p el i k else s0).
Proof.
  unfold pressure_loop.
  rewrite (for_range_accum Tring (fun s => localRhs_p s i) _
             (fun i' => if (i' =? i)%nat
                        then penalty_rhs mp el k i' - logdetF mp el k * basisVals_p el i' k
                        else s0)).
  - now rewrite (sum_range_from_0 np), (big_sum_single Tring).
  - intros i' s' _. rewrite pressure_body_rhs_p, (Nat.eqb_sym i i'). reflexivity.
Qed.

Lemma pressure_loop_C (k i j : nat) (st : Local T) :
  localMatC (pressure_loop mp el k st) i j
  = localMatC st i j
    + (if (i <=? j)%nat && (j <? np)%nat then - penalty_C mp el k i j else s0).
Proof.
  unfold pressure_loop.
  rewrite (for_range_accum Tring (fun s => localMatC s i j) _
             (fun i' => if (i' =? i)%nat
                        then (if (i' <=? j)%nat && (j <? np)%nat
                              then - penalty_C mp el k i' j else s0)
                        else s0)).
  - rewrite (sum_range_from_0 np), (big_sum_single Tring).
    destruct (Nat.ltb_spec i np) as [Hlt|Hge]; [reflexivity|].
    destruct (Nat.leb_spec i j), (Nat.ltb_spec j np); simpl; try reflexivity; lia.
  - intros i' s' _. rewrite pressure_body_C, (Nat.eqb_sym i i').
    destruct (i' =? i)%nat; simpl; reflexivity.
Qed.

(** *** The body force *)

Lemma bodyForce_loop_frame (k : nat) (st : Local T) :
  let st' := bodyForce_loop mp el k st in
  localMatK st' = localMatK st /\ localMatB st' = localMatB st /\
  localMatC st' = localMatC st /\ localRhs_p st' = localRhs_p st.
Proof.
  unfold bodyForce_loop. cbv zeta.
  apply (for_range_inv (fun s => localMatK s = localMatK st /\ localMatB s = localMatB st /\
                                 localMatC s = localMatC st /\ localRhs_p s = localRhs_p st));
    [tauto|].
  intros j s' _ Hs'. exact Hs'.
Qed.

Lemma bodyForce_loop_rhs_u (k i di : nat) (st : Local T) :
  (i < n)%nat -> (di < dim)%nat ->
  localRhs_u (bodyForce_loop mp el k st) (di * n + i)%nat
  = localRhs_u st (di * n + i)%nat + force_rhs mp el k i di.
Proof.
  intros Hi Hdi. unfold bodyForce_loop.
  rewrite (for_range_accum Tring (fun s => localRhs_u s (di * n + i)%nat) _
             (fun j => if (j =? di)%nat then force_rhs mp el k i j else s0)).
  - rewrite (sum_range_from_0 dim), (big_sum_single Tring).
    replace (di <? dim)%nat with true by (symmetry; apply Nat.ltb_lt; lia).
    reflexivity.
  - intros j s' _. simpl. unfold middleRows_add, force_rhs.
    destruct (Nat.eqb_spec j di) as [->|Hne].
    + replace (di * n <=? di * n + i)%nat with true by (symmetry; apply Nat.leb_le; lia).
      replace (di * n + i <? di * n + n)%nat with true by (symmetry; apply Nat.ltb_lt; lia).
      simpl. replace (di * n + i - di * n)%nat with i by lia. reflexivity.
    + replace ((j * n <=? di * n + i)%nat && (di * n + i <? j * n + n)%nat) with false;
        [ring|].
      symmetry. apply andb_false_iff.
      destruct (Nat.lt_trichotomy j di) as [Hlt|[Heq|Hgt]]; [|lia|].
      * right. apply Nat.ltb_ge. nia.
      * left. apply Nat.leb_gt. nia.
Qed.

Lemma quad_point_K (k : nat) (st : Local T) :
  localMatK (quad_point mp el k st) = localMatK (displacement_loop mp el k st).
Proof.
  unfold quad_point.
  destruct (bodyForce_loop_frame k (pressure_loop mp el k (displacement_loop mp el k st)))
    as (-> & _).
  destruct (pressure_loop_frame k (displacement_loop mp el k st)) as (-> & _).
  reflexivity.
Qed.

Lemma quad_point_diag_blocks (k : nat) (st : Local T) :
  diag_blocks_symmetric el (localMatK st) ->
  diag_blocks_symmetric el (localMatK (quad_point mp el k st)).
Proof.
  intros Hsym a ci cj Ha Hci Hcj. rewrite quad_point_K.
  rewrite !displacement_loop_K by assumption.
  rewrite (Hsym a ci cj) by assumption.
  rewrite (locKtgVal_swap k a ci cj). reflexivity.
Qed.

(** [assemble] keeps the blocks of one basis function symmetric. *)
Lemma assemble_diag_blocks (st : Local T) :
  diag_blocks_symmetric el (localMatK st) ->
  diag_blocks_symmetric el (localMatK (assemble mp el st)).
Proof.
  intros Hsym. unfold assemble.
  apply (for_range_inv (fun s => diag_blocks_symmetric el (localMatK s))); [exact Hsym|].
  intros k s' _. apply quad_point_diag_blocks.
Qed.

Lemma quad_point_rhs_p (k i : nat) (st : Local T) :
  localRhs_p (quad_point mp el k st) i
  = localRhs_p st i
    + (if (i <? np)%nat
       then penalty_rhs mp el k i - logdetF mp el k * basisVals_p el i k else s0).
Proof.
  unfold quad_point.
  destruct (bodyForce_loop_frame k (pressure_loop mp el k (displacement_loop mp el k st)))
    as (_ & _ & _ & ->).
  rewrite pressure_loop_rhs_p.
  destruct (displacement_loop_frame k st) as (_ & ->). reflexivity.
Qed.

Lemma quad_point_C (k i j : nat) (st : Local T) :
  localMatC (quad_point mp el k st) i j
  = localMatC st i j
    + (if (i <=? j)%nat && (j <? np)%nat then - penalty_C mp el k i j else s0).
Proof.
  unfold quad_point.
  destruct (bodyForce_loop_frame k (pressure_loop mp el k (displacement_loop mp el k st)))
    as (_ & _ & -> & _).
  rewrite pressure_loop_C.
  destruct (displacement_loop_frame k st) as (-> & _). reflexivity.
Qed.

(** The contraction of the stress with the gradient of basis function [i],
    written as in the specification:
    [weight * ((mu (F - F^-T) + prex F^-T) grad(phi_i))_di]. *)
Lemma locResVec_spec (k i di : nat) :
  locResVec mp el k i di
  = weight el k
    * big_sum dim (fun c =>
        (mu * (defGrad el k di c - transpose (defGrad_inv el k) di c)
         + prex_k mp el k * transpose (defGrad_inv el k) di c)
        * physGrad el k c i).
Proof.
  unfold locResVec, mat_vec, locResMat, mat_add, mat_scale, mat_sub, col.
  rewrite <- (big_sum_scale Tring).
  apply big_sum_ext. intros c _. ring.
Qed.

(** C3: at quadrature node [k], for every active displacement function
    [i] and component [di], the loop over the displacement rows subtracts
    [weight * ((mu (F - F^-T) + prex F^-T) grad(phi_i))_di] from row
    [di * numActive + i] of the local displacement residual, where
    [prex = mu * p], [weight] is the quadrature weight times the measure and
    [F = I + H^T]; over the whole pass of the node the row receives this
    subtraction and the body force. *)
Theorem displacement_residual_at_node (k i di : nat) (st : Local T) :
  (i < n)%nat -> (di < dim)%nat ->
  let F := defGrad el k in
  let FinvT := transpose (defGrad_inv el k) in
  let stress :=
    weight el k
    * big_sum dim (fun c =>
        (mu * (F di c - FinvT di c) + prex_k mp el k * FinvT di c) * physGrad el k c i) in
  localRhs_u (displacement_loop mp el k st) (di * n + i)%nat
    = localRhs_u st (di * n + i)%nat - stress
  /\ localRhs_u (quad_point mp el k st) (di * n + i)%nat
    = localRhs_u st (di * n + i)%nat - stress + force_rhs mp el k i di
  /\ prex_k mp el k = mu * pressure el k
  /\ weight el k = quWeights el k * measure el k
  /\ (forall r c, (r < dim)%nat -> (c < dim)%nat ->
        F r c = (if (r =? c)%nat then s1 else s0) + displGrad el k c r).
Proof.
  intros Hi Hdi F FinvT stress.
  assert (Hloop : localRhs_u (displacement_loop mp el k st) (di * n + i)%nat
                  = localRhs_u st (di * n + i)%nat - stress).
  { rewrite displacement_loop_rhs_u by assumption.
    now rewrite locResVec_spec. }
  split; [exact Hloop|]. split.
  - unfold quad_point. rewrite bodyForce_loop_rhs_u by assumption.
    destruct (pressure_loop_frame k (displacement_loop mp el k st)) as (_ & _ & ->).
    now rewrite Hloop.
  - split; [reflexivity|]. split; [reflexivity|].
    intros r c Hr Hc. unfold F, defGrad, transpose.
    replace (r <? dim)%nat with true by (symmetry; apply Nat.ltb_lt; lia).
    rewrite andb_true_r. destruct (r =? c)%nat; ring.
Qed.

End AssembleFacts.

Section PressureFacts.
Import Visitor.
Context {T : Type} `{Scalar T} `{Eigen T}.
Hypothesis Tfield : field_theory s0 s1 sadd smul ssub sopp sdiv sinv (@eq T).
Add Ring Tfield_ring : (F_R Tfield).
Local Open Scope scalar_scope.

Variable mp : Material T.
Variable el : Element T.

Local Abbreviation np := (numActive_p el).
Local Abbreviation mu := (m_mu mp).

Lemma penalty_cancel_mu (lam w p : T) :
  mu <> s0 -> mu * mu / lam * w / mu * (mu * p) = mu * mu / lam * w * p.
Proof.
  intros Hmu. rewrite !(Fdiv_def Tfield).
  transitivity (mu * mu * sinv lam * w * p * (sinv mu * mu)).
  - ring.
  - rewrite (Finv_l Tfield) by assumption. ring.
Qed.

(** C7: at quadrature node [k] the visitor subtracts
    [weight * mu * log(J) * psi_i] from row [i] of the local pressure
    residual for every active pressure function [i].  When [m_lambda] is
    finite it also adds [(mu^2/lambda) * weight * p * psi_i] to that row and
    subtracts [(mu^2/lambda) * weight * psi_i * psi_j] from the entry [(i,j)]
    of C for [i <= j]; when [m_lambda] is infinite neither is done and C is
    left as it was.  No other entry of C changes. *)
Theorem pressure_rows_at_node (k : nat) (st : Local T) :
  mu <> s0 ->
  let w := weight el k in
  let p := pressure el k in
  let J := detF el k in
  (forall i, (i < np)%nat ->
     localRhs_p (quad_point mp el k st) i
     = match m_lambda mp with
       | Finite lam =>
           localRhs_p st i - w * mu * slog J * basisVals_p el i k
           + mu * mu / lam * w * p * basisVals_p el i k
       | Infinity => localRhs_p st i - w * mu * slog J * basisVals_p el i k
       end)
  /\ (forall i j,
        localMatC (quad_point mp el k st) i j
        = match m_lambda mp with
          | Finite lam =>
              if (i <=? j)%nat && (j <? np)%nat
              then localMatC st i j
                   - mu * mu / lam * w * basisVals_p el i k * basisVals_p el j k
              else localMatC st i j
          | Infinity => localMatC st i j
          end).
Proof.
  intros Hmu w p J. split.
  - intros i Hi. rewrite (quad_point_rhs_p (F_R Tfield)).
    replace (i <? np)%nat with true by (symmetry; apply Nat.ltb_lt; lia).
    unfold penalty_rhs, logdetF, nearmup, prex_k.
    destruct (m_lambda mp) as [lam|].
    + fold w p J. rewrite (penalty_cancel_mu lam w p Hmu). ring.
    + fold w J. ring.
  - intros i j. rewrite (quad_point_C (F_R Tfield)).
    unfold penalty_C, nearmup.
    destruct (m_lambda mp) as [lam|].
    + fold w. destruct ((i <=? j)%nat && (j <? np)%nat); ring.
    + destruct ((i <=? j)%nat && (j <? np)%nat); ring.
Qed.

End PressureFacts.

(** ** What [localToGlobal] writes *)

Section ScatterFrame.
Import Visitor.
Context {T : Type} `{Scalar T}.
Variable el : Element T.
Variable maps : DofMaps.
Variable loc : Local T.

Local Abbreviation n := (numActive el).
Local Abbreviation np := (numActive_p el).
Local Abbreviation dim := (m_dim el).

Lemma add_sys_lookup_ne (g : Global T) (r' c' : nat) (x : T) (r c : nat) :
  (r', c') <> (r, c) ->
  sysMatrix (add_sys g r' c' x) !! (r, c) = sysMatrix g !! (r, c).
Proof. intros Hne. simpl. unfold coeffRef_add. now rewrite lookup_insert_ne. Qed.

Lemma untouched_add_sys (r : nat) (g0 g : Global T) (r' c' : nat) (x : T) :
  r' <> r -> c' <> r -> untouched r g0 g -> untouched r g0 (add_sys g r' c' x).
Proof.
  intros Hr Hc [Hm Hv]. split; [|exact Hv].
  intros c. rewrite !add_sys_lookup_ne by congruence. apply Hm.
Qed.

Lemma untouched_add_rhs (r : nat) (g0 g : Global T) (r' : nat) (x : T) :
  r' <> r -> untouched r g0 g -> untouched r g0 (add_rhs g r' x).
Proof.
  intros Hr [Hm Hv]. split; [exact Hm|].
  simpl. unfold vec_add_at.
  destruct (Nat.eqb_spec r r'); [congruence|exact Hv].
Qed.

(** A free resolved index is not an eliminated one. *)
Lemma free_not_eliminated (r ci a : nat) :
  eliminated_index el maps r -> local_dof el ci a ->
  is_free_index maps ci (ci_actives maps ci a) = true ->
  ci_actives maps ci a <> r.
Proof.
  intros Helim Hdof Hfree Heq.
  specialize (Helim ci a Hdof Heq). rewrite Heq in Hfree. congruence.
Qed.

Lemma scatterK_loop_untouched (r ci ai : nat) (g0 g : Global T) :
  eliminated_index el maps r -> (ci < dim)%nat -> (ai < n)%nat ->
  is_free_index maps ci (ci_actives maps ci ai) = true ->
  untouched r g0 g -> untouched r g0 (scatterK_loop el maps loc ci ai g).
Proof.
  intros Helim Hci Hai Hfree Hg. unfold scatterK_loop. cbv zeta.
  apply for_range_inv; [exact Hg|].
  intros aj g1 Haj Hg1. apply for_range_inv; [exact Hg1|].
  intros cj g2 Hcj Hg2.
  destruct (is_free_index maps cj (ci_actives maps cj aj)) eqn:Hfj; [|exact Hg2].
  assert (Hii : ci_actives maps ci ai <> r).
  { apply (free_not_eliminated r ci ai Helim); [left; lia|exact Hfree]. }
  assert (Hjj : ci_actives maps cj aj <> r).
  { apply (free_not_eliminated r cj aj Helim); [left; lia|exact Hfj]. }
  destruct (ai <? aj)%nat; repeat apply untouched_add_sys; assumption.
Qed.

Lemma scatterB_loop_untouched (r ci ai : nat) (g0 g : Global T) :
  eliminated_index el maps r -> (ci < dim)%nat -> (ai < n)%nat ->
  is_free_index maps ci (ci_actives maps ci ai) = true ->
  untouched r g0 g -> untouched r g0 (scatterB_loop el maps loc ci ai g).
Proof.
  intros Helim Hci Hai Hfree Hg. unfold scatterB_loop. cbv zeta.
  apply for_range_inv; [exact Hg|].
  intros aj g1 Haj Hg1.
  destruct (is_free_index maps dim (ci_actives maps dim aj)) eqn:Hfj; [|exact Hg1].
  assert (Hii : ci_actives maps ci ai <> r).
  { apply (free_not_eliminated r ci ai Helim); [left; lia|exact Hfree]. }
  assert (Hjj : ci_actives maps dim aj <> r).
  { apply (free_not_eliminated r dim aj Helim); [right; lia|exact Hfj]. }
  repeat apply untouched_add_sys; assumption.
Qed.

Lemma scatterC_loop_untouched (r ai : nat) (g0 g : Global T) :
  eliminated_index el maps r -> (ai < np)%nat ->
  is_free_index maps dim (ci_actives maps dim ai) = true ->
  untouched r g0 g -> untouched r g0 (scatterC_loop el maps loc ai g).
Proof.
  intros Helim Hai Hfree Hg. unfold scatterC_loop. cbv zeta.
  apply for_range_inv; [exact Hg|].
  intros aj g1 Haj Hg1.
  destruct (is_free_index maps dim (ci_actives maps dim aj)) eqn:Hfj; [|exact Hg1].
  assert (Hii : ci_actives maps dim ai <> r).
  { apply (free_not_eliminated r dim ai Helim); [right; lia|exact Hfree]. }
  assert (Hjj : ci_actives maps dim aj <> r).
  { apply (free_not_eliminated r dim aj Helim); [right; lia|exact Hfj]. }
  destruct (ai <? aj)%nat; repeat apply untouched_add_sys; assumption.
Qed.

(** C4: a global index at which every local degree of freedom of the
    element is reported as eliminated is skipped by [localToGlobal]: no
    entry of the sparse matrix in that row or in that column is created or
    changed, and that row of the right-hand side keeps its value.  Only rows
    and columns of free indices are written. *)
Theorem eliminated_dofs_are_skipped (g : Global T) (r : nat) :
  eliminated_index el maps r ->
  let g' := localToGlobal el maps loc g in
  (forall c, sysMatrix g' !! (r, c) = sysMatrix g !! (r, c)
             /\ sysMatrix g' !! (c, r) = sysMatrix g !! (c, r))
  /\ rhsMatrix g' r = rhsMatrix g r.
Proof.
  intros Helim. cbv zeta. change (untouched r g (localToGlobal el maps loc g)).
  unfold localToGlobal. cbv zeta.
  apply for_range_inv.
  - apply for_range_inv; [split; [intros c; split|]; reflexivity|].
    intros ci g1 Hci Hg1. apply for_range_inv; [exact Hg1|].
    intros ai g2 Hai Hg2. unfold scatter_u_body. cbv zeta.
    destruct (is_free_index maps ci (ci_actives maps ci ai)) eqn:Hfree; [|exact Hg2].
    apply scatterB_loop_untouched; try assumption; try lia.
    apply scatterK_loop_untouched; try assumption; try lia.
    apply untouched_add_rhs; [|exact Hg2].
    apply (free_not_eliminated r ci ai Helim); [left; lia|exact Hfree].
  - intros ai g1 Hai Hg1. unfold scatter_p_body. cbv zeta.
    destruct (is_free_index maps dim (ci_actives maps dim ai)) eqn:Hfree; [|exact Hg1].
    apply scatterC_loop_untouched; try assumption; try lia.
    apply untouched_add_rhs; [|exact Hg1].
    apply (free_not_eliminated r dim ai Helim); [right; lia|exact Hfree].
Qed.

End ScatterFrame.

Section ScatterSum.
Import Visitor.
Context {T : Type} `{Scalar T}.
Hypothesis Tring : ring_theory s0 s1 sadd smul ssub sopp (@eq T).
Add Ring Tring_ring4 : Tring.
Local Open Scope scalar_scope.

Variable el : Element T.
Variable maps : DofMaps.
Variable loc : Local T.

Local Abbreviation n := (numActive el).
Local Abbreviation np := (numActive_p el).
Local Abbreviation dim := (m_dim el).

Lemma coeff_add_sys (g : Global T) (r' c' : nat) (x : T) (r c : nat) :
  coeff (sysMatrix (add_sys g r' c' x)) r c
  = coeff (sysMatrix g) r c + entry r' c' r c x.
Proof.
  simpl. unfold coeffRef_add, coeff, entry.
  destruct (Nat.eqb_spec r' r) as [->|Hr]; simpl.
  - destruct (Nat.eqb_spec c' c) as [->|Hc].
    + now rewrite lookup_insert_eq.
    + rewrite lookup_insert_ne by congruence. ring.
  - rewrite lookup_insert_ne by congruence. ring.
Qed.

Lemma coeff_add_rhs (g : Global T) (r' : nat) (x : T) (r c : nat) :
  coeff (sysMatrix (add_rhs g r' x)) r c = coeff (sysMatrix g) r c.
Proof. reflexivity. Qed.

Lemma scatterK_loop_coeff (ci ai : nat) (g : Global T) (r c : nat) :
  coeff (sysMatrix (scatterK_loop el maps loc ci ai g)) r c
  = coeff (sysMatrix g) r c
    + sum_range ai n (fun aj => big_sum dim (fun cj => contribK el maps loc ci ai aj cj r c)).
Proof.
  unfold scatterK_loop. cbv zeta.
  apply (for_range_accum Tring (fun g0 => coeff (sysMatrix g0) r c)).
  intros aj g1 _.
  rewrite (for_range_accum Tring (fun g0 => coeff (sysMatrix g0) r c) _
             (fun cj => contribK el maps loc ci ai aj cj r c)).
  - now rewrite (sum_range_from_0 dim).
  - intros cj g2 _. unfold contribK. cbv zeta.
    destruct (is_free_index maps cj (ci_actives maps cj aj)); [|ring].
    destruct (ai <? aj)%nat; rewrite ?coeff_add_sys; ring.
Qed.

Lemma scatterB_loop_coeff (ci ai : nat) (g : Global T) (r c : nat) :
  coeff (sysMatrix (scatterB_loop el maps loc ci ai g)) r c
  = coeff (sysMatrix g) r c + big_sum np (fun aj => contribB el maps loc ci ai aj r c).
Proof.
  unfold scatterB_loop. cbv zeta. rewrite <- (sum_range_from_0 np).
  apply (for_range_accum Tring (fun g0 => coeff (sysMatrix g0) r c)).
  intros aj g1 _. unfold contribB. cbv zeta.
  destruct (is_free_index maps dim (ci_actives maps dim aj)); [|ring].
  rewrite !coeff_add_sys. ring.
Qed.

Lemma scatterC_loop_coeff (ai : nat) (g : Global T) (r c : nat) :
  coeff (sysMatrix (scatterC_loop el maps loc ai g)) r c
  = coeff (sysMatrix g) r c + sum_range ai np (fun aj => contribC el maps loc ai aj r c).
Proof.
  unfold scatterC_loop. cbv zeta.
  apply (for_range_accum Tring (fun g0 => coeff (sysMatrix g0) r c)).
  intros aj g1 _. unfold contribC. cbv zeta.
  destruct (is_free_index maps dim (ci_actives maps dim aj)); [|ring].
  destruct (ai <? aj)%nat; rewrite ?coeff_add_sys; ring.
Qed.

(** The entry [(r, c)] after the call is the entry before plus the
    contribution of the element. *)
Lemma localToGlobal_coeff (g : Global T) (r c : nat) :
  coeff (sysMatrix (localToGlobal el maps loc g)) r c
  = coeff (sysMatrix g) r c + contribution el maps loc r c.
Proof.
  unfold localToGlobal, contribution. cbv zeta.
  rewrite (for_range_accum Tring (fun g0 => coeff (sysMatrix g0) r c) _
             (fun ai => contrib_p el maps loc ai r c)).
  - rewrite (for_range_accum Tring (fun g0 => coeff (sysMatrix g0) r c) _
               (fun ci => big_sum n (fun ai => contrib_u el maps loc ci ai r c))).
    + rewrite !sum_range_from_0. ring.
    + intros ci g1 _.
      rewrite (for_range_accum Tring (fun g0 => coeff (sysMatrix g0) r c) _
                 (fun ai => contrib_u el maps loc ci ai r c)).
      * now rewrite sum_range_from_0.
      * intros ai g2 _. unfold scatter_u_body, contrib_u. cbv zeta.
        destruct (is_free_index maps ci (ci_actives maps ci ai)); [|ring].
        rewrite scatterB_loop_coeff, scatterK_loop_coeff, coeff_add_rhs. ring.
  - intros ai g1 _. unfold scatter_p_body, contrib_p. cbv zeta.
    destruct (is_free_index maps dim (ci_actives maps dim ai)); [|ring].
    rewrite scatterC_loop_coeff, coeff_add_rhs. reflexivity.
Qed.

(** *** Symmetry of the contribution *)

Lemma entry_swap (a b r c : nat) (x : T) : entry a b r c x = entry b a c r x.
Proof. unfold entry. now rewrite andb_comm. Qed.

Lemma contribC_sym (ai aj r c : nat) :
  (ai <= aj)%nat ->
  contribC el maps loc ai aj r c = contribC el maps loc ai aj c r.
Proof.
  intros Hle. unfold contribC. cbv zeta.
  destruct (is_free_index maps dim (ci_actives maps dim aj)); [|reflexivity].
  destruct (Nat.ltb_spec ai aj) as [Hlt|Hge].
  - rewrite (entry_swap (ci_actives maps dim ai) (ci_actives maps dim aj) c r).
    rewrite (entry_swap (ci_actives maps dim aj) (ci_actives maps dim ai) c r). ring.
  - assert (aj = ai) as -> by lia.
    now rewrite (entry_swap _ _ c r).
Qed.

Lemma contribB_sym (ci ai aj r c : nat) :
  contribB el maps loc ci ai aj r c = contribB el maps loc ci ai aj c r.
Proof.
  unfold contribB. cbv zeta.
  destruct (is_free_index maps dim (ci_actives maps dim aj)); [|reflexivity].
  rewrite (entry_swap (ci_actives maps ci ai) (ci_actives maps dim aj) c r).
  rewrite (entry_swap (ci_actives maps dim aj) (ci_actives maps ci ai) c r). ring.
Qed.

Lemma contribK_sym_above (ci ai aj cj r c : nat) :
  (ai < aj)%nat ->
  contribK el maps loc ci ai aj cj r c = contribK el maps loc ci ai aj cj c r.
Proof.
  intros Hlt. unfold contribK. cbv zeta.
  destruct (is_free_index maps cj (ci_actives maps cj aj)); [|reflexivity].
  replace (ai <? aj)%nat with true by (symmetry; apply Nat.ltb_lt; lia).
  rewrite (entry_swap (ci_actives maps ci ai) (ci_actives maps cj aj) c r).
  rewrite (entry_swap (ci_actives maps cj aj) (ci_actives maps ci ai) c r). ring.
Qed.

Lemma contrib_p_sym (ai r c : nat) :
  contrib_p el maps loc ai r c = contrib_p el maps loc ai c r.
Proof.
  unfold contrib_p.
  destruct (is_free_index maps dim (ci_actives maps dim ai)); [|reflexivity].
  apply sum_range_ext. intros aj Haj. apply contribC_sym. lia.
Qed.

(** The part of [contrib_u] that pairs the row [(ci, ai)] with the columns
    [(cj, ai)] of the same basis function. *)
Lemma contrib_u_split (ci ai r c : nat) :
  (ai < n)%nat ->
  contrib_u el maps loc ci ai r c
  = big_sum dim (fun cj =>
      if is_free_index maps ci (ci_actives maps ci ai) then
        if is_free_index maps cj (ci_actives maps cj ai) then
          entry (ci_actives maps ci ai) (ci_actives maps cj ai) r c
                (localMatK loc (ci * n + ai)%nat (cj * n + ai)%nat)
        else s0
      else s0)
    + (if is_free_index maps ci (ci_actives maps ci ai) then
         sum_range (S ai) n (fun aj =>
           big_sum dim (fun cj => contribK el maps loc ci ai aj cj r c))
         + big_sum np (fun aj => contribB el maps loc ci ai aj r c)
       else s0).
Proof.
  intros Hai. unfold contrib_u.
  rewrite (big_sum_guard Tring).
  destruct (is_free_index maps ci (ci_actives maps ci ai)); [|ring].
  rewrite (sum_range_first Tring) by assumption.
  rewrite (big_sum_ext dim
             (fun cj => contribK el maps loc ci ai ai cj r c)
             (fun cj => if is_free_index maps cj (ci_actives maps cj ai)
                        then entry (ci_actives maps ci ai) (ci_actives maps cj ai) r c
                               (localMatK loc (ci * n + ai)%nat (cj * n + ai)%nat)
                        else s0)).
  - ring.
  - intros cj _. unfold contribK. cbv zeta. rewrite Nat.ltb_irrefl.
    destruct (is_free_index maps cj (ci_actives maps cj ai)); ring.
Qed.

Lemma big_sum_swap3 (d m : nat) (F : nat -> nat -> nat -> T) :
  big_sum d (fun x => big_sum m (fun a => big_sum d (fun y => F y a x)))
  = big_sum d (fun y => big_sum m (fun a => big_sum d (fun x => F y a x))).
Proof.
  rewrite (big_sum_swap Tring d m).
  rewrite (big_sum_ext m _ (fun a => big_sum d (fun y => big_sum d (fun x => F y a x)))).
  - now rewrite (big_sum_swap Tring m d).
  - intros a _. apply (big_sum_swap Tring).
Qed.

(** The core of the symmetry: the contribution of an element to the global matrix is
    symmetric as soon as the blocks of the local K that belong to one basis
    function are. *)
Lemma contribution_sym (r c : nat) :
  diag_blocks_symmetric el (localMatK loc) ->
  contribution el maps loc r c = contribution el maps loc c r.
Proof.
  intros Hsym. unfold contribution. f_equal.
  2:{ apply big_sum_ext. intros ai _. apply contrib_p_sym. }
  rewrite (big_sum_ext dim _ (fun ci => big_sum n (fun ai =>
     big_sum dim (fun cj =>
      if is_free_index maps ci (ci_actives maps ci ai) then
        if is_free_index maps cj (ci_actives maps cj ai) then
          entry (ci_actives maps ci ai) (ci_actives maps cj ai) r c
                (localMatK loc (ci * n + ai)%nat (cj * n + ai)%nat)
        else s0
      else s0)
    + (if is_free_index maps ci (ci_actives maps ci ai) then
         sum_range (S ai) n (fun aj =>
           big_sum dim (fun cj => contribK el maps loc ci ai aj cj r c))
         + big_sum np (fun aj => contribB el maps loc ci ai aj r c)
       else s0))));
    [|intros ci _; apply big_sum_ext; intros ai Hai; now apply contrib_u_split].
  symmetry.
  rewrite (big_sum_ext dim _ (fun ci => big_sum n (fun ai =>
     big_sum dim (fun cj =>
      if is_free_index maps ci (ci_actives maps ci ai) then
        if is_free_index maps cj (ci_actives maps cj ai) then
          entry (ci_actives maps ci ai) (ci_actives maps cj ai) c r
                (localMatK loc (ci * n + ai)%nat (cj * n + ai)%nat)
        else s0
      else s0)
    + (if is_free_index maps ci (ci_actives maps ci ai) then
         sum_range (S ai) n (fun aj =>
           big_sum dim (fun cj => contribK el maps loc ci ai aj cj c r))
         + big_sum np (fun aj => contribB el maps loc ci ai aj c r)
       else s0))));
    [|intros ci _; apply big_sum_ext; intros ai Hai; now apply contrib_u_split].
  rewrite (big_sum_ext dim _ (fun ci =>
      big_sum n (fun ai => big_sum dim (fun cj =>
        if is_free_index maps ci (ci_actives maps ci ai) then
          if is_free_index maps cj (ci_actives maps cj ai) then
            entry (ci_actives maps ci ai) (ci_actives maps cj ai) c r
                  (localMatK loc (ci * n + ai)%nat (cj * n + ai)%nat)
          else s0
        else s0))
      + big_sum n (fun ai =>
          if is_free_index maps ci (ci_actives maps ci ai) then
            sum_range (S ai) n (fun aj =>
              big_sum dim (fun cj => contribK el maps loc ci ai aj cj c r))
            + big_sum np (fun aj => contribB el maps loc ci ai aj c r)
          else s0)));
    [|intros ci _; apply (big_sum_plus Tring)].
  rewrite (big_sum_plus Tring). symmetry.
  rewrite (big_sum_ext dim _ (fun ci =>
      big_sum n (fun ai => big_sum dim (fun cj =>
        if is_free_index maps ci (ci_actives maps ci ai) then
          if is_free_index maps cj (ci_actives maps cj ai) then
            entry (ci_actives maps ci ai) (ci_actives maps cj ai) r c
                  (localMatK loc (ci * n + ai)%nat (cj * n + ai)%nat)
          else s0
        else s0))
      + big_sum n (fun ai =>
          if is_free_index maps ci (ci_actives maps ci ai) then
            sum_range (S ai) n (fun aj =>
              big_sum dim (fun cj => contribK el maps loc ci ai aj cj r c))
            + big_sum np (fun aj => contribB el maps loc ci ai aj r c)
          else s0)));
    [|intros ci _; apply (big_sum_plus Tring)].
  rewrite (big_sum_plus Tring).
  f_equal.
  - (* the blocks of one basis function: exchange the two components *)
    rewrite <- (big_sum_swap3 dim n (fun ci ai cj =>
        if is_free_index maps ci (ci_actives maps ci ai) then
          if is_free_index maps cj (ci_actives maps cj ai) then
            entry (ci_actives maps ci ai) (ci_actives maps cj ai) c r
                  (localMatK loc (ci * n + ai)%nat (cj * n + ai)%nat)
          else s0
        else s0)).
    apply big_sum_ext. intros ci Hci. apply big_sum_ext. intros ai Hai.
    apply big_sum_ext. intros cj Hcj.
    rewrite (Hsym ai ci cj) by assumption.
    rewrite (entry_swap (ci_actives maps ci ai) (ci_actives maps cj ai) r c).
    destruct (is_free_index maps ci (ci_actives maps ci ai)),
             (is_free_index maps cj (ci_actives maps cj ai)); reflexivity.
  - (* the blocks of two different basis functions, and B *)
    apply big_sum_ext. intros ci _. apply big_sum_ext. intros ai _.
    destruct (is_free_index maps ci (ci_actives maps ci ai)); [|reflexivity].
    f_equal.
    + apply sum_range_ext. intros aj Haj. apply big_sum_ext. intros cj _.
      apply contribK_sym_above. lia.
    + apply big_sum_ext. intros aj _. apply contribB_sym.
Qed.

End ScatterSum.

Section ScatterExact.
Import Visitor.
Context {T : Type} `{Scalar T} `{Eigen T}.
Hypothesis Tring : ring_theory s0 s1 sadd smul ssub sopp (@eq T).
Add Ring Tring_ring5 : Tring.
Local Open Scope scalar_scope.

(** In a commutative ring of coefficients the amount added to the entry
    [(r, c)] is [contribution], and it is the amount added to [(c, r)]. *)
Lemma scatter_exact (mp : Material T) (el : Element T) (maps : DofMaps)
    (loc0 : Local T) (g : Global T) :
  diag_blocks_symmetric el (localMatK loc0) ->
  let loc := assemble mp el loc0 in
  let g' := localToGlobal el maps loc g in
  forall r c,
    coeff (sysMatrix g') r c - coeff (sysMatrix g) r c
    = coeff (sysMatrix g') c r - coeff (sysMatrix g) c r
    /\ coeff (sysMatrix g') r c = coeff (sysMatrix g) r c + contribution el maps loc r c.
Proof.
  intros Hsym loc g' r c. unfold g'.
  rewrite !(localToGlobal_coeff Tring).
  rewrite (contribution_sym Tring el maps loc r c)
    by (apply (assemble_diag_blocks Tring); exact Hsym).
  split; ring.
Qed.

End ScatterExact.

(** *** The mirrored writes, whatever the arithmetic *)

Section ScatterMirror.
Import Visitor.
Context {T : Type} `{Scalar T}.
Local Open Scope scalar_scope.

Variable el : Element T.
Variable maps : DofMaps.
Variable loc : Local T.

Local Abbreviation n := (numActive el).
Local Abbreviation np := (numActive_p el).
Local Abbreviation dim := (m_dim el).

Lemma coeff_add_sys_hit (g : Global T) (a b : nat) (v : T) :
  coeff (sysMatrix (add_sys g a b v)) a b = coeff (sysMatrix g) a b + v.
Proof.
  simpl. unfold coeffRef_add. unfold coeff at 1. now rewrite lookup_insert_eq.
Qed.

Lemma coeff_add_sys_miss (g : Global T) (a b : nat) (v : T) (r c : nat) :
  (a, b) <> (r, c) ->
  coeff (sysMatrix (add_sys g a b v)) r c = coeff (sysMatrix g) r c.
Proof. intros Hne. unfold coeff. now rewrite add_sys_lookup_ne. Qed.

(** The two writes of lines 246 and 248, [M(ii,jj) += v; M(jj,ii) += v],
    keep two mirror entries equal. *)
Lemma mirror_write_keeps (g : Global T) (a b : nat) (v : T) (r c : nat) :
  coeff (sysMatrix g) r c = coeff (sysMatrix g) c r ->
  coeff (sysMatrix (add_sys (add_sys g a b v) b a v)) r c
  = coeff (sysMatrix (add_sys (add_sys g a b v) b a v)) c r.
Proof.
  intros Hg.
  destruct (decide ((a, b) = (r, c))) as [Hab|Hab];
    destruct (decide ((b, a) = (r, c))) as [Hba|Hba].
  - assert (r = c) as -> by congruence. reflexivity.
  - injection Hab as -> ->.
    rewrite (coeff_add_sys_miss _ c r v r c) by exact Hba.
    rewrite !coeff_add_sys_hit.
    rewrite (coeff_add_sys_miss _ r c v c r) by congruence.
    now rewrite Hg.
  - injection Hba as -> ->.
    rewrite !coeff_add_sys_hit.
    rewrite (coeff_add_sys_miss _ c r v r c) by exact Hab.
    rewrite (coeff_add_sys_miss _ r c v c r) by congruence.
    rewrite coeff_add_sys_hit. now rewrite Hg.
  - rewrite !coeff_add_sys_miss by congruence. exact Hg.
Qed.

(** A single write on the diagonal keeps two mirror entries equal. *)
Lemma diagonal_write_keeps (g : Global T) (a : nat) (v : T) (r c : nat) :
  coeff (sysMatrix g) r c = coeff (sysMatrix g) c r ->
  coeff (sysMatrix (add_sys g a a v)) r c = coeff (sysMatrix (add_sys g a a v)) c r.
Proof.
  intros Hg.
  destruct (decide ((a, a) = (r, c))) as [Haa|Haa].
  - assert (r = c) as -> by congruence. reflexivity.
  - rewrite !coeff_add_sys_miss by congruence. exact Hg.
Qed.

(** A single write elsewhere does not touch the two entries. *)
Lemma other_write_keeps (g : Global T) (a b : nat) (v : T) (r c : nat) :
  (a, b) <> (r, c) -> (a, b) <> (c, r) ->
  coeff (sysMatrix g) r c = coeff (sysMatrix g) c r ->
  coeff (sysMatrix (add_sys g a b v)) r c = coeff (sysMatrix (add_sys g a b v)) c r.
Proof.
  intros H1 H2 Hg. rewrite !coeff_add_sys_miss by assumption. exact Hg.
Qed.

Lemma unmirrored_swap (r c : nat) : unmirrored el maps c r -> unmirrored el maps r c.
Proof.
  intros (a & ci & cj & Ha & Hci & Hcj & Hr & Hc & Hfi & Hfj & Hne).
  exists a, cj, ci. repeat split; try assumption. congruence.
Qed.

Lemma scatterK_loop_mirror (r c ci ai : nat) (g : Global T) :
  ~ unmirrored el maps r c -> (ci < dim)%nat -> (ai < n)%nat ->
  is_free_index maps ci (ci_actives maps ci ai) = true ->
  coeff (sysMatrix g) r c = coeff (sysMatrix g) c r ->
  coeff (sysMatrix (scatterK_loop el maps loc ci ai g)) r c
  = coeff (sysMatrix (scatterK_loop el maps loc ci ai g)) c r.
Proof.
  intros Hnot Hci Hai Hfree Hg. unfold scatterK_loop. cbv zeta.
  apply (for_range_inv (fun g0 => coeff (sysMatrix g0) r c = coeff (sysMatrix g0) c r));
    [exact Hg|].
  intros aj g1 Haj Hg1.
  apply (for_range_inv (fun g0 => coeff (sysMatrix g0) r c = coeff (sysMatrix g0) c r));
    [exact Hg1|].
  intros cj g2 Hcj Hg2.
  destruct (is_free_index maps cj (ci_actives maps cj aj)) eqn:Hfj; [|exact Hg2].
  destruct (Nat.ltb_spec ai aj) as [Hlt|Hge].
  - now apply mirror_write_keeps.
  - assert (aj = ai) as -> by lia.
    destruct (Nat.eq_dec (ci_actives maps ci ai) (ci_actives maps cj ai)) as [Heq|Hne].
    + rewrite <- Heq. now apply diagonal_write_keeps.
    + apply other_write_keeps; [| |exact Hg2].
      * intros Hhit. injection Hhit as Hr Hc. apply Hnot.
        exists ai, ci, cj. subst r c. repeat split; try assumption; lia.
      * intros Hhit. injection Hhit as Hc Hr. apply Hnot. apply unmirrored_swap.
        exists ai, ci, cj. subst r c. repeat split; try assumption; lia.
Qed.

Lemma scatterB_loop_mirror (r c ci ai : nat) (g : Global T) :
  coeff (sysMatrix g) r c = coeff (sysMatrix g) c r ->
  coeff (sysMatrix (scatterB_loop el maps loc ci ai g)) r c
  = coeff (sysMatrix (scatterB_loop el maps loc ci ai g)) c r.
Proof.
  intros Hg. unfold scatterB_loop. cbv zeta.
  apply (for_range_inv (fun g0 => coeff (sysMatrix g0) r c = coeff (sysMatrix g0) c r));
    [exact Hg|].
  intros aj g1 _ Hg1.
  destruct (is_free_index maps dim (ci_actives maps dim aj)); [|exact Hg1].
  now apply mirror_write_keeps.
Qed.

Lemma scatterC_loop_mirror (r c ai : nat) (g : Global T) :
  coeff (sysMatrix g) r c = coeff (sysMatrix g) c r ->
  coeff (sysMatrix (scatterC_loop el maps loc ai g)) r c
  = coeff (sysMatrix (scatterC_loop el maps loc ai g)) c r.
Proof.
  intros Hg. unfold scatterC_loop. cbv zeta.
  apply (for_range_inv (fun g0 => coeff (sysMatrix g0) r c = coeff (sysMatrix g0) c r));
    [exact Hg|].
  intros aj g1 Haj Hg1.
  destruct (is_free_index maps dim (ci_actives maps dim aj)); [|exact Hg1].
  destruct (Nat.ltb_spec ai aj) as [Hlt|Hge].
  - now apply mirror_write_keeps.
  - assert (aj = ai) as -> by lia. now apply diagonal_write_keeps.
Qed.

(** Two mirror entries that are not an unmirrored pair of the element and
    are equal before the call are equal after it; no law of arithmetic is
    used. *)
Lemma localToGlobal_mirror (r c : nat) (g : Global T) :
  ~ unmirrored el maps r c ->
  coeff (sysMatrix g) r c = coeff (sysMatrix g) c r ->
  coeff (sysMatrix (localToGlobal el maps loc g)) r c
  = coeff (sysMatrix (localToGlobal el maps loc g)) c r.
Proof.
  intros Hnot Hg. unfold localToGlobal. cbv zeta.
  apply (for_range_inv (fun g0 => coeff (sysMatrix g0) r c = coeff (sysMatrix g0) c r)).
  - apply (for_range_inv (fun g0 => coeff (sysMatrix g0) r c = coeff (sysMatrix g0) c r));
      [exact Hg|].
    intros ci g1 Hci Hg1.
    apply (for_range_inv (fun g0 => coeff (sysMatrix g0) r c = coeff (sysMatrix g0) c r));
      [exact Hg1|].
    intros ai g2 Hai Hg2. unfold scatter_u_body. cbv zeta.
    destruct (is_free_index maps ci (ci_actives maps ci ai)) eqn:Hfree; [|exact Hg2].
    apply scatterB_loop_mirror. apply scatterK_loop_mirror; try assumption; try lia.
  - intros ai g1 Hai Hg1. unfold scatter_p_body. cbv zeta.
    destruct (is_free_index maps dim (ci_actives maps dim ai)); [|exact Hg1].
    apply scatterC_loop_mirror. exact Hg1.
Qed.

End ScatterMirror.

Section ScatterSymmetry.
Import Visitor.
Context {T : Type} `{Scalar T} `{Eigen T}.
Local Open Scope scalar_scope.

(** C2 (as amended): what [localToGlobal] scatters of the local matrices
    [assemble] leaves.  Whatever the arithmetic of the coefficients, every
    pair of mirror entries [(r, c)], [(c, r)] of the global matrix is written
    with the same values in the same order - the block B, the block C and
    the entries of K of two different basis functions - unless [r] and [c]
    are the indices of two components of one displacement basis function:
    two such entries that are equal before the call are equal after it.  The
    entries of two components of one basis function are not mirrored; each
    receives the value [assemble] computed for it.  When the coefficients
    form a commutative ring (exact arithmetic) and the local K was symmetric
    on the blocks of each basis function to start with (zeroed buffers in
    particular), these values agree as well, and for every pair of indices
    the amount added to the entry [(r, c)] equals the amount added to
    [(c, r)]; both are [contribution]. *)
Theorem scatter_symmetric_where_mirrored (mp : Material T) (el : Element T)
    (maps : DofMaps) (loc0 : Local T) (g : Global T) :
  let loc := assemble mp el loc0 in
  let g' := localToGlobal el maps loc g in
  (forall r c,
     ~ unmirrored el maps r c ->
     coeff (sysMatrix g) r c = coeff (sysMatrix g) c r ->
     coeff (sysMatrix g') r c = coeff (sysMatrix g') c r)
  /\ (forall r c, unmirrored el maps r c <-> unmirrored el maps c r)
  /\ (ring_theory s0 s1 sadd smul ssub sopp (@eq T) ->
      diag_blocks_symmetric el (localMatK loc0) ->
      forall r c,
        coeff (sysMatrix g') r c - coeff (sysMatrix g) r c
        = coeff (sysMatrix g') c r - coeff (sysMatrix g) c r
        /\ coeff (sysMatrix g') r c
           = coeff (sysMatrix g) r c + contribution el maps loc r c).
Proof.
  cbv zeta. split; [|split].
  - intros r c Hnot Hg. now apply localToGlobal_mirror.
  - intros r c. split; apply unmirrored_swap.
  - intros Tring Hsym r c. exact (scatter_exact Tring mp el maps loc0 g Hsym r c).
Qed.

End ScatterSymmetry.

(** ** The Newton driver *)

Section NewtonFacts.
Import Newton.
Context {T : Type} `{Scalar T}.
Variable env : Collaborators T.
Local Open Scope Z_scope.

Implicit Types (st s : State env).

Lemma set_numIterations_same s : set_numIterations env (m_numIterations env s) s = s.
Proof. destruct s; reflexivity. Qed.

Lemma set_numIterations_twice s a b :
  set_numIterations env a (set_numIterations env b s) = set_numIterations env a s.
Proof. reflexivity. Qed.

Lemma nextIteration_set_numIterations s a :
  nextIteration env (set_numIterations env a s) = set_numIterations env a (nextIteration env s).
Proof. reflexivity. Qed.

Lemma iter_set_numIterations (k : nat) s a :
  Nat.iter k (nextIteration env) (set_numIterations env a s)
  = set_numIterations env a (Nat.iter k (nextIteration env) s).
Proof.
  induction k as [|k IH]; [reflexivity|].
  simpl. now rewrite IH, nextIteration_set_numIterations.
Qed.

Lemma iter_nextIteration_shift (k : nat) s :
  Nat.iter k (nextIteration env) (nextIteration env s)
  = Nat.iter (S k) (nextIteration env) s.
Proof. now rewrite Nat.iter_succ_r. Qed.

(** [nextIteration] reads and writes neither the budget, nor the tolerance,
    nor the counter, nor the flag. *)
Lemma iter_control (k : nat) s :
  let s' := Nat.iter k (nextIteration env) s in
  m_maxIterations env s' = m_maxIterations env s
  /\ m_tolerance env s' = m_tolerance env s
  /\ m_numIterations env s' = m_numIterations env s
  /\ m_converged env s' = m_converged env s.
Proof.
  induction k as [|k IH]; [simpl; tauto|].
  cbv zeta. simpl. exact IH.
Qed.

(** The loop when the criteria first hold after pass [k]. *)
Lemma solve_loop_hit (fuel : nat) (r u : T) :
  forall (k : nat) s,
    (1 <= k)%nat -> (k <= fuel)%nat ->
    m_numIterations env s + Z.of_nat k - 1 < m_maxIterations env s ->
    criteria env r u (Nat.iter k (nextIteration env) s) = true ->
    (forall j, (1 <= j < k)%nat ->
       criteria env r u (Nat.iter j (nextIteration env) s) = false) ->
    solve_loop env fuel r u s
    = set_converged env true
        (set_numIterations env (m_numIterations env s + Z.of_nat k - 1)
           (Nat.iter k (nextIteration env) s)).
Proof.
  induction fuel as [|fuel IH]; intros k s Hk Hfuel Hlt Hhit Hbefore; [lia|].
  cbn [solve_loop].
  replace (m_numIterations env s <? m_maxIterations env s) with true
    by (symmetry; apply Z.ltb_lt; lia).
  destruct (Nat.eq_dec k 1%nat) as [->|Hk1].
  - change (Nat.iter 1 (nextIteration env) s) with (nextIteration env s) in *.
    rewrite Hhit. f_equal.
    replace (m_numIterations env s + Z.of_nat 1 - 1)
      with (m_numIterations env (nextIteration env s)) by (cbn; lia).
    now rewrite set_numIterations_same.
  - assert (Hfirst : criteria env r u (nextIteration env s) = false)
      by (apply (Hbefore 1%nat); lia).
    rewrite Hfirst.
    destruct k as [|k]; [lia|].
    rewrite (IH k); try lia.
    + rewrite iter_set_numIterations, iter_nextIteration_shift.
      rewrite set_numIterations_twice.
      do 2 f_equal. cbn [m_numIterations set_numIterations nextIteration]. lia.
    + cbn [m_numIterations m_maxIterations set_numIterations nextIteration]. lia.
    + rewrite iter_set_numIterations, iter_nextIteration_shift. exact Hhit.
    + intros j Hj. rewrite iter_set_numIterations, iter_nextIteration_shift.
      apply (Hbefore (S j)). lia.
Qed.

(** The loop when the criteria hold after no pass within the budget. *)
Lemma solve_loop_exhausted (fuel : nat) (r u : T) :
  forall s,
    (Z.to_nat (m_maxIterations env s - m_numIterations env s) <= fuel)%nat ->
    (forall k, (1 <= k)%nat ->
       m_numIterations env s + Z.of_nat k - 1 < m_maxIterations env s ->
       criteria env r u (Nat.iter k (nextIteration env) s) = false) ->
    solve_loop env fuel r u s
    = set_numIterations env (Z.max (m_numIterations env s) (m_maxIterations env s))
        (Nat.iter (Z.to_nat (m_maxIterations env s - m_numIterations env s))
           (nextIteration env) s).
Proof.
  induction fuel as [|fuel IH]; intros s Hfuel Hno.
  - cbn [solve_loop].
    replace (Z.to_nat (m_maxIterations env s - m_numIterations env s)) with 0%nat by lia.
    replace (Z.max (m_numIterations env s) (m_maxIterations env s))
      with (m_numIterations env s) by lia.
    cbn [Nat.iter nat_rect]. now rewrite set_numIterations_same.
  - cbn [solve_loop].
    destruct (Z.ltb_spec (m_numIterations env s) (m_maxIterations env s)) as [Hlt|Hge].
    + assert (Hfirst : criteria env r u (nextIteration env s) = false)
        by (apply (Hno 1%nat); lia).
      rewrite Hfirst. rewrite IH.
      * rewrite iter_set_numIterations, iter_nextIteration_shift, set_numIterations_twice.
        cbn [m_numIterations m_maxIterations set_numIterations nextIteration].
        replace (S (Z.to_nat (m_maxIterations env s - (m_numIterations env s + 1))))
          with (Z.to_nat (m_maxIterations env s - m_numIterations env s)) by lia.
        f_equal. lia.
      * cbn [m_numIterations m_maxIterations set_numIterations nextIteration]. lia.
      * intros k Hk Hlt'. rewrite iter_set_numIterations, iter_nextIteration_shift.
        apply (Hno (S k)); [lia|].
        cbn [m_numIterations m_maxIterations set_numIterations nextIteration] in Hlt'. lia.
    + replace (Z.to_nat (m_maxIterations env s - m_numIterations env s)) with 0%nat by lia.
      replace (Z.max (m_numIterations env s) (m_maxIterations env s))
        with (m_numIterations env s) by lia.
      cbn [Nat.iter nat_rect]. now rewrite set_numIterations_same.
Qed.

(** Within a bound, either the criteria never hold or there is a first pass
    after which they do. *)
Lemma first_hit (f : nat -> bool) (N : nat) :
  (forall k, (1 <= k <= N)%nat -> f k = false)
  \/ exists k, (1 <= k <= N)%nat /\ f k = true /\
               forall j, (1 <= j < k)%nat -> f j = false.
Proof.
  induction N as [|N [Hnone|(k & Hk & Hfk & Hmin)]].
  - left. intros k Hk. lia.
  - destruct (f (S N)) eqn:HfN.
    + right. exists (S N). split; [lia|]. split; [exact HfN|].
      intros j Hj. apply Hnone. lia.
    + left. intros k Hk. destruct (Nat.eq_dec k (S N)) as [->|Hne]; [exact HfN|].
      apply Hnone. lia.
  - right. exists k. split; [lia|]. split; assumption.
Qed.

Lemma solve_unfold st :
  solve env st
  = solve_loop env (Z.to_nat (m_maxIterations env st - 1))
      (m_residue env (firstIteration env st)) (m_updnorm env (firstIteration env st))
      (set_numIterations env 1 (firstIteration env st)).
Proof. reflexivity. Qed.

Lemma meets_iter (k : nat) st :
  criteria env (m_residue env (firstIteration env st)) (m_updnorm env (firstIteration env st))
    (Nat.iter k (nextIteration env) (set_numIterations env 1 (firstIteration env st)))
  = meets env k st.
Proof. rewrite iter_set_numIterations. reflexivity. Qed.

(** [solve] when the criteria first hold after pass [k]. *)
Lemma solve_hit st (k : nat) :
  (1 <= k)%nat -> Z.of_nat k < m_maxIterations env st ->
  meets env k st = true ->
  (forall j, (1 <= j < k)%nat -> meets env j st = false) ->
  solve env st
  = set_converged env true (set_numIterations env (Z.of_nat k) (iterate env k st)).
Proof.
  intros Hk Hlt Hhit Hmin. rewrite solve_unfold.
  rewrite (solve_loop_hit _ _ _ k); try lia.
  - rewrite iter_set_numIterations, set_numIterations_twice.
    cbn [m_numIterations set_numIterations]. unfold iterate. do 2 f_equal. lia.
  - cbn [m_numIterations m_maxIterations set_numIterations firstIteration]. lia.
  - now rewrite meets_iter.
  - intros j Hj. rewrite meets_iter. now apply Hmin.
Qed.

(** [solve] when the criteria never hold within the budget. *)
Lemma solve_exhausted st :
  (forall k, (1 <= k)%nat -> Z.of_nat k < m_maxIterations env st -> meets env k st = false) ->
  solve env st
  = set_numIterations env (Z.max 1 (m_maxIterations env st))
      (iterate env (Z.to_nat (m_maxIterations env st - 1)) st).
Proof.
  intros Hno. rewrite solve_unfold.
  rewrite solve_loop_exhausted.
  - cbn [m_numIterations m_maxIterations set_numIterations firstIteration].
    now rewrite iter_set_numIterations, set_numIterations_twice.
  - cbn [m_numIterations m_maxIterations set_numIterations firstIteration]. lia.
  - intros k Hk Hlt. rewrite meets_iter. apply Hno; [exact Hk|].
    cbn [m_numIterations m_maxIterations set_numIterations firstIteration] in Hlt. lia.
Qed.

Lemma iterate_converged (k : nat) st : m_converged env (iterate env k st) = false.
Proof.
  unfold iterate.
  destruct (iter_control k (firstIteration env st)) as (_ & _ & _ & ->). reflexivity.
Qed.

Lemma iterate_tolerance (k : nat) st : m_tolerance env (iterate env k st) = m_tolerance env st.
Proof.
  unfold iterate.
  destruct (iter_control k (firstIteration env st)) as (_ & -> & _). reflexivity.
Qed.

(** The bound on the passes is not felt: any larger bound gives the same
    final state, so [solve] is the result of the loop as the code runs it. *)
Lemma solve_fuel_enough st (fuel : nat) :
  (Z.to_nat (m_maxIterations env st - 1) <= fuel)%nat ->
  solve_loop env fuel
    (m_residue env (firstIteration env st)) (m_updnorm env (firstIteration env st))
    (set_numIterations env 1 (firstIteration env st))
  = solve env st.
Proof.
  intros Hfuel. rewrite solve_unfold.
  destruct (first_hit (fun k => meets env k st) (Z.to_nat (m_maxIterations env st - 1)))
    as [Hnone|(k & Hk & Hhit & Hmin)].
  - rewrite !solve_loop_exhausted; try reflexivity;
      cbn [m_numIterations m_maxIterations set_numIterations firstIteration];
      try lia;
      intros k Hk Hlt; rewrite meets_iter; apply Hnone; lia.
  - rewrite !(solve_loop_hit _ _ _ k); try reflexivity;
      cbn [m_numIterations m_maxIterations set_numIterations firstIteration];
      try lia;
      try (rewrite meets_iter; exact Hhit);
      intros j Hj; rewrite meets_iter; now apply Hmin.
Qed.

Lemma meets_spec (k : nat) st :
  meets env k st = true <->
  ((sabs (m_updnorm env (iterate env k st) / m_updnorm env (firstIteration env st))
      <? m_tolerance env st)%S = true
   \/ (sabs (m_residue env (iterate env k st) / m_residue env (firstIteration env st))
         <? m_tolerance env st)%S = true).
Proof.
  unfold meets, criteria. rewrite iterate_tolerance. apply orb_true_iff.
Qed.

(** C5: [solve] sets the converged flag exactly when, after some iteration
    [k >= 1] within the budget, the relative update norm or the relative
    residual norm is below the tolerance, both taken relative to the norms
    the first iteration recorded; either test alone is enough.  The loop
    leaves at the first such [k]: no further iteration is made and the
    counter stays at [k]. *)
Theorem converged_exactly_when_criteria_met st :
  (converged env (solve env st) = true <->
   exists k : nat,
     (1 <= k)%nat /\ Z.of_nat k < m_maxIterations env st /\
     ((sabs (m_updnorm env (iterate env k st) / m_updnorm env (firstIteration env st))
         <? m_tolerance env st)%S = true
      \/ (sabs (m_residue env (iterate env k st) / m_residue env (firstIteration env st))
            <? m_tolerance env st)%S = true))
  /\ (forall k : nat,
        (1 <= k)%nat -> Z.of_nat k < m_maxIterations env st ->
        meets env k st = true ->
        (forall j, (1 <= j < k)%nat -> meets env j st = false) ->
        solve env st
        = set_converged env true (set_numIterations env (Z.of_nat k) (iterate env k st))).
Proof.
  split; [|intros k Hk Hlt Hhit Hmin; now apply solve_hit].
  destruct (first_hit (fun k => meets env k st) (Z.to_nat (m_maxIterations env st - 1)))
    as [Hnone|(k & Hk & Hhit & Hmin)].
  - split.
    + intros Hconv. rewrite solve_exhausted in Hconv by (intros; apply Hnone; lia).
      unfold converged in Hconv. cbn [m_converged set_numIterations] in Hconv.
      rewrite iterate_converged in Hconv. discriminate.
    + intros (k & Hk & Hlt & Hhit). apply meets_spec in Hhit.
      rewrite Hnone in Hhit by lia. discriminate.
  - split.
    + intros _. exists k. split; [lia|]. split; [lia|]. now apply meets_spec.
    + intros _. rewrite (solve_hit st k) by (assumption || lia). reflexivity.
Qed.

(** C6: the first iteration overwrites the current displacement and
    pressure by the fields of the first linear solve (through
    [constructSolution]), so that its result does not depend on the fields
    the driver was started with, and records the norms of the right-hand
    side and of the update; every later iteration adds the fields of its
    linear solve to the current ones (through [updateSolution]).  The norms
    of the first iteration are the baselines of the criteria. *)
Theorem first_iteration_replaces_next_adds st :
  let a := asm_assemble env (m_assembler env st) in
  let upd := lu_solve env (lu_compute env (m_solver env st) (asm_matrix env a)) (asm_rhs env a) in
  let st1 := firstIteration env st in
  m_curSolution env st1 = constructSolution env a upd (m_curSolution env st) 0
  /\ m_curPressure env st1 = constructSolution env a upd (m_curPressure env st) 1
  /\ m_curSolution env st1 = field_of env a upd 0
  /\ m_curPressure env st1 = field_of env a upd 1
  /\ m_residue env st1 = norm env (asm_rhs env a)
  /\ m_updnorm env st1 = norm env upd
  /\ (forall u p, firstIteration env (with_fields env u p st) = st1)
  /\ (forall s,
        let a' := asm_assemble_at env (m_curSolution env s) (m_curPressure env s)
                    (m_assembler env s) in
        let upd' := lu_solve env (lu_factorize env (m_solver env s) (asm_matrix env a'))
                      (asm_rhs env a') in
        (m_curSolution env (nextIteration env s), m_curPressure env (nextIteration env s))
          = updateSolution env a' upd' (m_curSolution env s) (m_curPressure env s)
        /\ m_curSolution env (nextIteration env s)
           = field_add env (m_curSolution env s) (field_of env a' upd' 0)
        /\ m_curPressure env (nextIteration env s)
           = field_add env (m_curPressure env s) (field_of env a' upd' 1))
  /\ (forall k : nat,
        meets env k st
        = ((sabs (m_updnorm env (iterate env k st) / norm env upd)
              <? m_tolerance env (iterate env k st))
           || (sabs (m_residue env (iterate env k st) / norm env (asm_rhs env a))
                 <? m_tolerance env (iterate env k st)))%S).
Proof.
  cbv zeta. repeat split; reflexivity.
Qed.

(** C8: when the iteration budget is used up and the criteria held after
    no iteration, [solve] returns normally, [converged()] is false, and
    [solution(0)], [solution(1)] are the displacement and pressure of the
    last iteration made. *)
Theorem budget_exhausted_returns_last_solution st :
  (forall k, (1 <= k)%nat -> Z.of_nat k < m_maxIterations env st -> meets env k st = false) ->
  let last := iterate env (Z.to_nat (m_maxIterations env st - 1)) st in
  call_solve env st = Returned (solve env st)
  /\ converged env (solve env st) = false
  /\ solution env (solve env st) 0 = m_curSolution env last
  /\ solution env (solve env st) 1 = m_curPressure env last
  /\ numIterations env (solve env st) = Z.max 1 (m_maxIterations env st).
Proof.
  intros Hno last. split; [reflexivity|].
  rewrite (solve_exhausted st Hno). fold last.
  unfold converged, solution, numIterations.
  cbn [m_converged m_curSolution m_curPressure m_numIterations set_numIterations].
  unfold last. rewrite iterate_converged.
  repeat split; reflexivity.
Qed.

(** C9: with [m_maxIterations <= 1] the loop of [solve] is not entered:
    [solve] is [firstIteration] followed by setting the counter to 1.
    Whatever the tolerance and the problem, [converged()] is false and
    [numIterations()] is 1 afterwards. *)
Theorem single_iteration_budget st :
  m_maxIterations env st <= 1 ->
  solve env st = set_numIterations env 1 (firstIteration env st)
  /\ converged env (solve env st) = false
  /\ numIterations env (solve env st) = 1.
Proof.
  intros Hmax.
  assert (Hs : solve env st = set_numIterations env 1 (firstIteration env st)).
  { rewrite solve_unfold.
    replace (Z.to_nat (m_maxIterations env st - 1)) with 0%nat by lia. reflexivity. }
  rewrite Hs. repeat split; reflexivity.
Qed.

(** C10: [solution(i)] is the current displacement for [i = 0] and the
    current pressure for every other [i], negative or beyond 1 included;
    the accessor has no failing case. *)
Theorem solution_selects_field st (i : Z) :
  (i = 0 -> solution env st i = m_curSolution env st)
  /\ (i <> 0 -> solution env st i = m_curPressure env st).
Proof.
  unfold solution. split; intros Hi.
  - subst i. reflexivity.
  - destruct (Z.eqb_spec i 0) as [Heq|_]; [contradiction|reflexivity].
Qed.

End NewtonFacts.

(** ** No exit on an invalid configuration *)

Section NoInvalidConfiguration.
Import Visitor.
Context {T : Type} `{Scalar T} `{Eigen T}.
Hypothesis Tring : ring_theory s0 s1 sadd smul ssub sopp (@eq T).
Add Ring Tring_ring6 : Tring.
Local Open Scope scalar_scope.

Variable mp : Material T.
Variable el : Element T.
Variable env : Newton.Collaborators T.

Local Abbreviation np := (numActive_p el).
Local Abbreviation dim := (m_dim el).
Local Abbreviation mu := (m_mu mp).

(** A loop whose passes all return returns what the plain loop computes. *)
Lemma for_loop_returned {St : Type} (body : nat -> St -> St) (valid : nat -> bool)
    (len lo : nat) (s : St) :
  (forall k, valid k = true) ->
  for_loop lo len
    (fun k r =>
       match r with
       | Returned s' => if valid k then Returned (body k s') else Thrown InvalidConfiguration
       | Thrown e => Thrown e
       end)
    (Returned s)
  = Returned (for_loop lo len body s).
Proof.
  intros Hvalid. revert lo s.
  induction len as [|len IH]; intros lo s; [reflexivity|].
  cbn [for_loop]. rewrite Hvalid. apply IH.
Qed.

Lemma assemble_with_test_passing (st : Local T) :
  assemble_with_test (fun _ => true) mp el st = Returned (assemble mp el st).
Proof.
  unfold assemble_with_test, assemble, for_range.
  exact (for_loop_returned (quad_point mp el) (fun _ => true) _ _ st (fun _ => eq_refl)).
Qed.

(** C1 (as amended): neither the visitor nor the driver has an exit for an
    invalid configuration.  [assemble] makes no test of [J = det F]: a call
    behaves as the specified loop over the quadrature nodes with the test of
    [J] left out, so it returns normally whatever the sign of [J] at any
    node; every node is processed, and row [i] of the pressure residual has
    received, summed over all the nodes, [- weight * mu * log(J) * psi_i]
    (and the penalty) computed from whatever [log] yields at [J].  [solve]
    returns normally as well and ends in one of two ways only: at the first
    iteration within the budget that meets the criteria, with the flag set,
    or after the budget is used up, with the flag clear. *)
Theorem no_invalid_configuration_exit (st : Local T) (d : Newton.State env) :
  call_assemble mp el st = assemble_with_test (fun _ => true) mp el st
  /\ call_assemble mp el st = Returned (assemble mp el st)
  /\ call_assemble mp el st <> Thrown InvalidConfiguration
  /\ (forall i, (i < np)%nat ->
        localRhs_p (assemble mp el st) i
        = localRhs_p st i
          + big_sum (quRows el) (fun k =>
              penalty_rhs mp el k i
              - weight el k * mu * slog (determinant dim (defGrad el k))
                * basisVals_p el i k))
  /\ (forall k st' i, (i < np)%nat ->
        localRhs_p (quad_point mp el k st') i
        = localRhs_p st' i
          + (penalty_rhs mp el k i
             - weight el k * mu * slog (determinant dim (defGrad el k))
               * basisVals_p el i k))
  /\ call_solve env d = Returned (Newton.solve env d)
  /\ call_solve env d <> Thrown InvalidConfiguration
  /\ ((exists k : nat,
         (1 <= k)%nat /\ (Z.of_nat k < Newton.m_maxIterations env d)%Z
         /\ Newton.meets env k d = true
         /\ (forall j, (1 <= j < k)%nat -> Newton.meets env j d = false)
         /\ Newton.solve env d
            = Newton.set_converged env true
                (Newton.set_numIterations env (Z.of_nat k) (Newton.iterate env k d)))
      \/ ((forall k : nat, (1 <= k)%nat -> (Z.of_nat k < Newton.m_maxIterations env d)%Z ->
             Newton.meets env k d = false)
          /\ Newton.solve env d
             = Newton.set_numIterations env (Z.max 1 (Newton.m_maxIterations env d))
                 (Newton.iterate env (Z.to_nat (Newton.m_maxIterations env d - 1)) d))).
Proof.
  assert (Hnode : forall k st' i, (i < np)%nat ->
            localRhs_p (quad_point mp el k st') i
            = localRhs_p st' i
              + (penalty_rhs mp el k i
                 - weight el k * mu * slog (determinant dim (defGrad el k))
                   * basisVals_p el i k)).
  { intros k st' i Hi. rewrite (quad_point_rhs_p Tring).
    replace (i <? np)%nat with true by (symmetry; apply Nat.ltb_lt; lia).
    reflexivity. }
  split; [symmetry; apply assemble_with_test_passing|].
  split; [reflexivity|]. split; [discriminate|]. split; [|split; [exact Hnode|]].
  - intros i Hi. unfold assemble. rewrite <- (sum_range_from_0 (quRows el)).
    apply (for_range_accum Tring (fun s => localRhs_p s i)).
    intros k s' _. now apply Hnode.
  - split; [reflexivity|]. split; [discriminate|].
    destruct (first_hit (fun k => Newton.meets env k d)
                (Z.to_nat (Newton.m_maxIterations env d - 1)))
      as [Hnone|(k & Hk & Hhit & Hmin)].
    + right.
      assert (Hno : forall k : nat, (1 <= k)%nat ->
                (Z.of_nat k < Newton.m_maxIterations env d)%Z ->
                Newton.meets env k d = false)
        by (intros k Hk Hlt; apply Hnone; lia).
      split; [exact Hno|]. now apply solve_exhausted.
    + left. exists k. split; [lia|]. split; [lia|]. split; [exact Hhit|].
      split; [exact Hmin|]. apply solve_hit; try assumption; lia.
Qed.

End NoInvalidConfiguration.

(** ** Worked instances *)

(** The displayed element has [F = diag(-1, 1)] at its node, hence [J = -1];
    the material has [lambda = 10], [mu = 2]; the pressure at the node is 3. *)

Example unit_element_detF :
  Visitor.detF (unit_element (-2) 3) 0 = qz (-1).
Proof. apply Qc_is_canon. vm_compute. reflexivity. Qed.

(** C1, counterexample: at the node of this element [J = -1 <= 0], and the
    call of [assemble] returns local buffers; it does not fail with
    [InvalidConfiguration]. *)
Lemma inverted_element_is_assembled :
  let mp := material (Finite (qz 10)) 2 in
  let el := unit_element (-2) 3 in
  (0 < Visitor.quRows el)%nat
  /\ Visitor.detF el 0 = qz (-1)
  /\ (Visitor.detF el 0 <= 0)%Qc
  /\ call_assemble mp el Visitor.zeroLocal <> Thrown InvalidConfiguration
  /\ exists loc, call_assemble mp el Visitor.zeroLocal = Returned loc.
Proof.
  cbv zeta. split; [simpl; lia|]. split; [exact unit_element_detF|].
  split; [rewrite unit_element_detF; vm_compute; discriminate|].
  split; [discriminate|].
  eexists. reflexivity.
Qed.

(** The algorithm with the test [J > 0] of the specification leaves with
    [InvalidConfiguration] on this element; the code returns. *)
Example specified_assembly_rejects_inverted_element :
  let mp := material (Finite (qz 10)) 2 in
  let el := unit_element (-2) 3 in
  assemble_as_specified mp el Visitor.zeroLocal = Thrown InvalidConfiguration
  /\ call_assemble mp el Visitor.zeroLocal <> assemble_as_specified mp el Visitor.zeroLocal.
Proof.
  cbv zeta.
  assert (Hs : assemble_as_specified (material (Finite (qz 10)) 2) (unit_element (-2) 3)
                 Visitor.zeroLocal = Thrown InvalidConfiguration)
    by (vm_compute; reflexivity).
  split; [exact Hs|]. rewrite Hs. discriminate.
Qed.

Lemma halving_first_meets :
  Newton.meets _ 2 (toy_driver halving 100 (Q2Qc (3 # 10))) = true.
Proof. vm_compute. reflexivity. Defined.

Lemma no_invalid_configuration_exit_witness :
  let mp := material (Finite (qz 10)) 2 in
  let el := unit_element (-2) 3 in
  let d := toy_driver halving 100 (Q2Qc (3 # 10)) in
  call_assemble mp el Visitor.zeroLocal = Returned (Visitor.assemble mp el Visitor.zeroLocal)
  /\ Visitor.localRhs_p (Visitor.assemble mp el Visitor.zeroLocal) 0
     = Qcplus (qz 0)
         (Qcplus (qz 0)
           (Qcminus (Visitor.penalty_rhs mp el 0 0)
              (Qcmult (Qcmult (Qcmult (qz 1) (qz 2)) (slog (qz (-1)))) (qz 1))))
  /\ call_solve _ d = Returned (Newton.solve _ d)
  /\ Newton.converged _ (Newton.solve _ d) = true.
Proof.
  cbv zeta.
  destruct (no_invalid_configuration_exit Qc_ring_theory (material (Finite (qz 10)) 2)
              (unit_element (-2) 3) (toy halving) Visitor.zeroLocal
              (toy_driver halving 100 (Q2Qc (3 # 10))))
    as (_ & Hret & _ & Hsum & _ & Hsolve & _ & [(k & _ & _ & _ & _ & Hhit)|(Hnone & _)]).
  - split; [exact Hret|]. split; [|split; [exact Hsolve|]].
    + rewrite (Hsum 0%nat) by (simpl; lia).
      apply Qc_is_canon. vm_compute. reflexivity.
    + rewrite Hhit. reflexivity.
  - specialize (Hnone 2%nat ltac:(lia) ltac:(simpl; lia)).
    rewrite halving_first_meets in Hnone. discriminate.
Defined.

Lemma unit_maps_3_4_mirrored : ~ unmirrored (unit_element (-2) 3) unit_maps 3 4.
Proof.
  intros (a & ci & cj & Ha & Hci & Hcj & Hr & Hc & _). simpl in *. lia.
Defined.

Lemma scatter_symmetric_where_mirrored_witness :
  let mp := material (Finite (qz 10)) 2 in
  let el := unit_element (-2) 3 in
  let loc := Visitor.assemble mp el Visitor.zeroLocal in
  let g' := Visitor.localToGlobal el unit_maps loc empty_system in
  ~ unmirrored el unit_maps 3 4
  /\ Visitor.coeff (Visitor.sysMatrix g') 3 4 = Visitor.coeff (Visitor.sysMatrix g') 4 3
  /\ Visitor.diag_blocks_symmetric el (Visitor.localMatK Visitor.zeroLocal)
  /\ forall r c,
       Qcminus (Visitor.coeff (Visitor.sysMatrix g') r c)
               (Visitor.coeff (Visitor.sysMatrix empty_system) r c)
       = Qcminus (Visitor.coeff (Visitor.sysMatrix g') c r)
                 (Visitor.coeff (Visitor.sysMatrix empty_system) c r).
Proof.
  cbv zeta.
  assert (Hz : Visitor.diag_blocks_symmetric (unit_element (-2) 3)
                 (Visitor.localMatK (T := Qc) Visitor.zeroLocal))
    by (intros a ci cj _ _ _; reflexivity).
  destruct (scatter_symmetric_where_mirrored (material (Finite (qz 10)) 2)
              (unit_element (-2) 3) unit_maps Visitor.zeroLocal empty_system)
    as (Hmirror & _ & Hexact).
  split; [exact unit_maps_3_4_mirrored|].
  split; [exact (Hmirror 3%nat 4%nat unit_maps_3_4_mirrored eq_refl)|].
  split; [exact Hz|].
  intros r c. exact (proj1 (Hexact Qc_ring_theory Hz r c)).
Defined.

(** C2, counterexample: in double precision the element [sheared_element]
    is valid, [J = 53/64 > 0], its two displacement components are free
    with the global indices 0 and 1, and the global matrix is empty before
    the call; after [assemble] and [localToGlobal] the entry [(0, 1)] and
    the entry [(1, 0)] hold different numbers, so the amounts added to the
    two entries differ. *)
Lemma scatter_not_symmetric_in_binary64 :
  let el := Binary64.sheared_element in
  let g := Binary64.empty_system in
  let loc := Visitor.assemble Binary64.unit_material el Visitor.zeroLocal in
  let g' := Visitor.localToGlobal el Binary64.component_maps loc g in
  Visitor.detF el 0 = Binary64.sheared_J
  /\ sltb s0 (Visitor.detF el 0) = true
  /\ Visitor.is_free_index Binary64.component_maps 0 0 = true
  /\ Visitor.is_free_index Binary64.component_maps 1 1 = true
  /\ Visitor.coeff (Visitor.sysMatrix g) 0 1 = s0
  /\ Visitor.coeff (Visitor.sysMatrix g) 1 0 = s0
  /\ Visitor.coeff (Visitor.sysMatrix g') 0 1 = Binary64.sheared_K01
  /\ Visitor.coeff (Visitor.sysMatrix g') 1 0 = Binary64.sheared_K10
  /\ PrimFloat.eqb (Visitor.coeff (Visitor.sysMatrix g') 0 1)
       (Visitor.coeff (Visitor.sysMatrix g') 1 0) = false
  /\ Visitor.coeff (Visitor.sysMatrix g') 0 1 <> Visitor.coeff (Visitor.sysMatrix g') 1 0
  /\ ssub (Visitor.coeff (Visitor.sysMatrix g') 0 1) (Visitor.coeff (Visitor.sysMatrix g) 0 1)
     <> ssub (Visitor.coeff (Visitor.sysMatrix g') 1 0) (Visitor.coeff (Visitor.sysMatrix g) 1 0).
Proof.
  cbv zeta.
  repeat (split; [vm_compute; reflexivity|]).
  split.
  - intros Heq.
    apply (f_equal (fun x => PrimFloat.eqb x Binary64.sheared_K10)) in Heq.
    vm_compute in Heq. discriminate.
  - intros Heq.
    apply (f_equal (fun x => PrimFloat.eqb x Binary64.sheared_K10)) in Heq.
    vm_compute in Heq. discriminate.
Qed.

(** The same two numbers are the two tangent values of the exchanged rows:
    in double precision [locKtgVal] is not symmetric. *)
Example tangent_value_not_symmetric_in_binary64 :
  Visitor.locKtgVal Binary64.unit_material Binary64.sheared_element 0 0 0 1 0
    = Binary64.sheared_K01
  /\ Visitor.locKtgVal Binary64.unit_material Binary64.sheared_element 0 1 0 0 0
    = Binary64.sheared_K10
  /\ PrimFloat.eqb Binary64.sheared_K01 Binary64.sheared_K10 = false.
Proof. repeat split; vm_compute; reflexivity. Qed.

(** The entries the element couples through K and B, read back. *)
Example scatter_mirrored_entries :
  let g' := Visitor.localToGlobal (unit_element (-2) 3) unit_maps
              (Visitor.assemble (material (Finite (qz 10)) 2) (unit_element (-2) 3)
                 Visitor.zeroLocal) empty_system in
  Visitor.coeff (Visitor.sysMatrix g') 3 4 = qz 2
  /\ Visitor.coeff (Visitor.sysMatrix g') 4 3 = qz 2
  /\ Visitor.coeff (Visitor.sysMatrix g') 0 4 = qz (-2)
  /\ Visitor.coeff (Visitor.sysMatrix g') 4 0 = qz (-2).
Proof.
  cbv zeta. repeat split; apply Qc_is_canon; vm_compute; reflexivity.
Qed.

Lemma displacement_residual_at_node_witness :
  let mp := material (Finite (qz 10)) 2 in
  let el := unit_element (-2) 3 in
  (0 < Visitor.numActive el)%nat /\ (0 < Visitor.m_dim el)%nat
  /\ Visitor.localRhs_u (Visitor.displacement_loop mp el 0 Visitor.zeroLocal) 0 = qz 6
  /\ Visitor.localRhs_u (Visitor.quad_point mp el 0 Visitor.zeroLocal) 0 = qz 6.
Proof.
  cbv zeta.
  assert (Hi : (0 < Visitor.numActive (unit_element (-2) 3))%nat) by (simpl; lia).
  assert (Hd : (0 < Visitor.m_dim (unit_element (-2) 3))%nat) by (simpl; lia).
  split; [exact Hi|]. split; [exact Hd|].
  destruct (displacement_residual_at_node Qc_ring_theory (material (Finite (qz 10)) 2)
              (unit_element (-2) 3) 0 0 0 Visitor.zeroLocal Hi Hd)
    as (Hloop & Hnode & _).
  split.
  - etransitivity; [exact Hloop|]. apply Qc_is_canon. vm_compute. reflexivity.
  - etransitivity; [exact Hnode|]. apply Qc_is_canon. vm_compute. reflexivity.
Defined.

Lemma unit_maps_index_1_eliminated :
  Visitor.eliminated_index (unit_element (-2) 3) unit_maps 1.
Proof.
  intros ci a Hdof Heq. simpl in Heq.
  assert (ci = 0%nat) as -> by lia. reflexivity.
Defined.

Lemma eliminated_dofs_are_skipped_witness :
  let el := unit_element (-2) 3 in
  let loc := Visitor.assemble (material (Finite (qz 10)) 2) el Visitor.zeroLocal in
  let g' := Visitor.localToGlobal el unit_maps loc empty_system in
  Visitor.eliminated_index el unit_maps 1
  /\ (forall c, Visitor.sysMatrix g' !! (1%nat, c) = None
                /\ Visitor.sysMatrix g' !! (c, 1%nat) = None)
  /\ Visitor.rhsMatrix g' 1 = qz 0.
Proof.
  cbv zeta. split; [exact unit_maps_index_1_eliminated|].
  destruct (eliminated_dofs_are_skipped (unit_element (-2) 3) unit_maps
              (Visitor.assemble (material (Finite (qz 10)) 2) (unit_element (-2) 3)
                 Visitor.zeroLocal)
              empty_system 1 unit_maps_index_1_eliminated) as [Hm Hv].
  split; [|exact Hv].
  intros c. destruct (Hm c) as [Hr Hc]. split; [exact Hr|exact Hc].
Defined.

Lemma pressure_rows_at_node_witness :
  let mp := material (Finite (qz 10)) 2 in
  let el := unit_element (-2) 3 in
  Visitor.m_mu mp <> qz 0
  /\ Visitor.localRhs_p (Visitor.quad_point mp el 0 Visitor.zeroLocal) 0 = Q2Qc (26 # 5)
  /\ Visitor.localMatC (Visitor.quad_point mp el 0 Visitor.zeroLocal) 0 0 = Q2Qc (- 2 # 5).
Proof.
  cbv zeta.
  assert (Hmu : Visitor.m_mu (material (Finite (qz 10)) 2) <> qz 0) by discriminate.
  split; [exact Hmu|].
  destruct (pressure_rows_at_node Qc_field_theory (material (Finite (qz 10)) 2)
              (unit_element (-2) 3) 0 Visitor.zeroLocal Hmu) as [Hrow Hblock].
  split.
  - rewrite (Hrow 0%nat) by (simpl; lia). apply Qc_is_canon. vm_compute. reflexivity.
  - rewrite (Hblock 0%nat 0%nat). apply Qc_is_canon. vm_compute. reflexivity.
Defined.

(** With an infinite [m_lambda] the block C stays zero and the pressure row
    holds the logarithmic term alone. *)
Example incompressible_limit_leaves_C :
  let mp := material Infinity 2 in
  let el := unit_element 1 3 in
  Visitor.localMatC (Visitor.assemble mp el Visitor.zeroLocal) 0 0 = qz 0
  /\ Visitor.localRhs_p (Visitor.assemble mp el Visitor.zeroLocal) 0 = qz (-2).
Proof.
  cbv zeta. split; apply Qc_is_canon; vm_compute; reflexivity.
Qed.

(** The driver on the halving problem, budget 100 and tolerance 3/10: the
    relative norms are 1/2 after iteration 1 and 1/4 after iteration 2. *)
Lemma converged_exactly_when_criteria_met_witness :
  let d := toy_driver halving 100 (Q2Qc (3 # 10)) in
  Newton.converged _ (Newton.solve _ d) = true
  /\ Newton.numIterations _ (Newton.solve _ d) = 2%Z
  /\ Newton.solution _ (Newton.solve _ d) 0 = Q2Qc (21 # 8).
Proof.
  cbv zeta.
  destruct (converged_exactly_when_criteria_met (toy halving)
              (toy_driver halving 100 (Q2Qc (3 # 10)))) as [_ Hexit].
  rewrite (Hexit 2%nat).
  - split; [reflexivity|]. split; [reflexivity|].
    apply Qc_is_canon. vm_compute. reflexivity.
  - lia.
  - vm_compute. reflexivity.
  - vm_compute. reflexivity.
  - intros j Hj. assert (j = 1%nat) as -> by lia. vm_compute. reflexivity.
Defined.

Lemma stalled_never_meets (k : nat) :
  (1 <= k)%nat ->
  (Z.of_nat k < Newton.m_maxIterations _ (toy_driver stalled 4 (Q2Qc (3 # 10))))%Z ->
  Newton.meets _ k (toy_driver stalled 4 (Q2Qc (3 # 10))) = false.
Proof.
  intros Hk Hlt. change (Z.of_nat k < 4)%Z in Hlt.
  assert (k = 1 \/ k = 2 \/ k = 3)%nat as [->|[->| ->]] by lia;
    vm_compute; reflexivity.
Defined.

Lemma budget_exhausted_returns_last_solution_witness :
  let d := toy_driver stalled 4 (Q2Qc (3 # 10)) in
  call_solve _ d = Returned (Newton.solve _ d)
  /\ Newton.converged _ (Newton.solve _ d) = false
  /\ Newton.solution _ (Newton.solve _ d) 0 = qz 4
  /\ Newton.numIterations _ (Newton.solve _ d) = 4%Z.
Proof.
  cbv zeta.
  destruct (budget_exhausted_returns_last_solution (toy stalled)
              (toy_driver stalled 4 (Q2Qc (3 # 10))) stalled_never_meets)
    as (Hret & Hconv & Hu & _ & Hnum).
  split; [exact Hret|]. split; [exact Hconv|]. split.
  - etransitivity; [exact Hu|]. apply Qc_is_canon. vm_compute. reflexivity.
  - etransitivity; [exact Hnum|]. reflexivity.
Defined.

Lemma single_iteration_budget_witness :
  let d := toy_driver halving 1 (Q2Qc (3 # 10)) in
  (Newton.m_maxIterations _ d <= 1)%Z
  /\ Newton.converged _ (Newton.solve _ d) = false
  /\ Newton.numIterations _ (Newton.solve _ d) = 1%Z.
Proof.
  cbv zeta.
  assert (Hmax : (Newton.m_maxIterations _ (toy_driver halving 1 (Q2Qc (3 # 10))) <= 1)%Z)
    by (simpl; lia).
  split; [exact Hmax|].
  exact (proj2 (single_iteration_budget (toy halving)
                  (toy_driver halving 1 (Q2Qc (3 # 10))) Hmax)).
Defined.

Lemma solution_selects_field_witness :
  let d := Newton.solve _ (toy_driver halving 100 (Q2Qc (3 # 10))) in
  Newton.solution _ d (-1) = Newton.m_curPressure _ d
  /\ Newton.solution _ d 7 = Newton.m_curPressure _ d
  /\ Newton.solution _ d 0 = Newton.m_curSolution _ d.
Proof.
  cbv zeta. split; [|split].
  - apply (proj2 (solution_selects_field (toy halving) _ (-1)%Z)). lia.
  - apply (proj2 (solution_selects_field (toy halving) _ 7%Z)). lia.
  - apply (proj1 (solution_selects_field (toy halving) _ 0%Z)). reflexivity.
Defined.

(** ** More on the Newton driver *)

Section NewtonMore.
Import Newton.
Context {T : Type} `{Scalar T}.
Variable env : Collaborators T.
Local Open Scope Z_scope.

Implicit Types (st s : State env).

Lemma set_converged_same s : set_converged env (m_converged env s) s = s.
Proof. destruct s; reflexivity. Qed.

(** The state [solve] returns is the state after some number of iterations,
    up to the counter and the flag. *)
Lemma solve_is_iterate st :
  exists (k : nat) (n : Z) (b : bool),
    solve env st = set_converged env b (set_numIterations env n (iterate env k st)).
Proof.
  destruct (first_hit (fun k => meets env k st) (Z.to_nat (m_maxIterations env st - 1)))
    as [Hnone|(k & Hk & Hhit & Hmin)].
  - exists (Z.to_nat (m_maxIterations env st - 1)), (Z.max 1 (m_maxIterations env st)), false.
    rewrite solve_exhausted by (intros; apply Hnone; lia).
    set (X := set_numIterations env (Z.max 1 (m_maxIterations env st))
                (iterate env (Z.to_nat (m_maxIterations env st - 1)) st)).
    assert (HX : m_converged env X = false) by apply iterate_converged.
    rewrite <- HX. symmetry. apply set_converged_same.
  - exists k, (Z.of_nat k), true. apply solve_hit; assumption || lia.
Qed.

(** What every iteration leaves in the norms and the update vector. *)
Lemma iterate_norms (k : nat) st :
  let s := iterate env k st in
  m_residue env s = norm env (asm_rhs env (m_assembler env s))
  /\ m_updnorm env s = norm env (m_updateVector env s)
  /\ m_updateVector env s = lu_solve env (m_solver env s) (asm_rhs env (m_assembler env s)).
Proof.
  destruct k as [|k]; cbv zeta; unfold iterate; [|rewrite Nat.iter_succ];
    repeat split; reflexivity.
Qed.

Lemma iterate_maxIterations (k : nat) st :
  m_maxIterations env (iterate env k st) = m_maxIterations env st.
Proof.
  unfold iterate.
  destruct (iter_control env k (firstIteration env st)) as (-> & _). reflexivity.
Qed.

(** After [solve], [residue()] is the norm of the right-hand side the
    assembler holds, the update norm is the norm of the stored update, the
    stored update is the solve of that right-hand side with the stored
    factorisation, and neither the tolerance nor the iteration budget has
    been changed. *)
Theorem solve_keeps_settings_and_norms st :
  let s := solve env st in
  tolerance env s = tolerance env st
  /\ m_maxIterations env s = m_maxIterations env st
  /\ residue env s = norm env (asm_rhs env (m_assembler env s))
  /\ m_updnorm env s = norm env (m_updateVector env s)
  /\ m_updateVector env s = lu_solve env (m_solver env s) (asm_rhs env (m_assembler env s)).
Proof.
  cbv zeta. destruct (solve_is_iterate st) as (k & n & b & ->).
  unfold tolerance, residue.
  cbn [m_tolerance m_maxIterations m_residue m_updnorm m_updateVector m_assembler m_solver
       set_converged set_numIterations].
  rewrite iterate_tolerance, iterate_maxIterations.
  destruct (iterate_norms k st) as (Hr & Hu & Hv).
  repeat split; assumption.
Qed.

(** The counter after [solve] lies between 1 and the budget (1 when the
    budget is below 1).  When the flag is set the counter is below the
    budget and the norms of the returned state meet the criteria; when it is
    not set the counter has reached the budget. *)
Theorem numIterations_range st :
  let s := solve env st in
  let r0 := m_residue env (firstIteration env st) in
  let u0 := m_updnorm env (firstIteration env st) in
  1 <= numIterations env s <= Z.max 1 (m_maxIterations env st)
  /\ (converged env s = true ->
      numIterations env s < m_maxIterations env st /\ criteria env r0 u0 s = true)
  /\ (converged env s = false ->
      numIterations env s = Z.max 1 (m_maxIterations env st)).
Proof.
  cbv zeta.
  destruct (first_hit (fun k => meets env k st) (Z.to_nat (m_maxIterations env st - 1)))
    as [Hnone|(k & Hk & Hhit & Hmin)].
  - rewrite solve_exhausted by (intros; apply Hnone; lia).
    unfold numIterations, converged.
    cbn [m_numIterations m_converged set_numIterations].
    rewrite iterate_converged.
    split; [lia|]. split; [discriminate|reflexivity].
  - rewrite (solve_hit env st k) by (assumption || lia).
    unfold numIterations, converged.
    cbn [m_numIterations m_converged set_numIterations set_converged].
    split; [lia|]. split; [|discriminate].
    intros _. split; [lia|exact Hhit].
Qed.

Lemma iterate_setMaxIterations (k : nat) (M : Z) st :
  iterate env k (setMaxIterations env M st) = setMaxIterations env M (iterate env k st).
Proof.
  unfold iterate. induction k as [|k IH]; [reflexivity|].
  rewrite !Nat.iter_succ, IH. reflexivity.
Qed.

Lemma meets_setMaxIterations (k : nat) (M : Z) st :
  meets env k (setMaxIterations env M st) = meets env k st.
Proof. unfold meets. rewrite iterate_setMaxIterations. reflexivity. Qed.

(** A run that converged is not changed by a larger iteration budget: with
    any budget at least as large, [solve] stops after the same iteration
    with the same fields, norms and counter. *)
Theorem larger_budget_same_result st (M : Z) :
  converged env (solve env st) = true ->
  m_maxIterations env st <= M ->
  solve env (setMaxIterations env M st) = setMaxIterations env M (solve env st).
Proof.
  intros Hconv HM.
  destruct (first_hit (fun k => meets env k st) (Z.to_nat (m_maxIterations env st - 1)))
    as [Hnone|(k & Hk & Hhit & Hmin)].
  - rewrite solve_exhausted in Hconv by (intros; apply Hnone; lia).
    unfold converged in Hconv. cbn [m_converged set_numIterations] in Hconv.
    rewrite iterate_converged in Hconv. discriminate.
  - rewrite (solve_hit env st k) by (assumption || lia).
    rewrite (solve_hit env (setMaxIterations env M st) k).
    + rewrite iterate_setMaxIterations. reflexivity.
    + lia.
    + cbn [m_maxIterations setMaxIterations]. lia.
    + now rewrite meets_setMaxIterations.
    + intros j Hj. rewrite meets_setMaxIterations. now apply Hmin.
Qed.

End NewtonMore.

Lemma larger_budget_same_result_witness :
  let d := toy_driver halving 100 (Q2Qc (3 # 10)) in
  Newton.converged _ (Newton.solve _ d) = true
  /\ (Newton.m_maxIterations _ d <= 500)%Z
  /\ Newton.numIterations _ (Newton.solve _ (Newton.setMaxIterations _ 500 d)) = 2%Z
  /\ Newton.converged _ (Newton.solve _ (Newton.setMaxIterations _ 500 d)) = true.
Proof.
  cbv zeta.
  assert (Hc : Newton.converged _ (Newton.solve _ (toy_driver halving 100 (Q2Qc (3 # 10))))
               = true) by (vm_compute; reflexivity).
  assert (Hm : (Newton.m_maxIterations _ (toy_driver halving 100 (Q2Qc (3 # 10))) <= 500)%Z)
    by (simpl; lia).
  split; [exact Hc|]. split; [exact Hm|].
  rewrite (larger_budget_same_result (toy halving) _ 500%Z Hc Hm).
  split; vm_compute; reflexivity.
Defined.

(** ** More on [assemble] *)

Section AssembleMore.
Import Visitor.
Context {T : Type} `{Scalar T} `{Eigen T}.
Hypothesis Tring : ring_theory s0 s1 sadd smul ssub sopp (@eq T).
Add Ring Tring_ring6 : Tring.
Local Open Scope scalar_scope.

Variable mp : Material T.
Variable el : Element T.

Local Abbreviation n := (numActive el).
Local Abbreviation np := (numActive_p el).
Local Abbreviation dim := (m_dim el).
Local Abbreviation mu := (m_mu mp).

Lemma big_sum_scale_r (m : nat) (a : T) (f : nat -> T) :
  big_sum m (fun k => f k * a) = big_sum m f * a.
Proof. induction m as [|m IH]; simpl; [ring|]. rewrite IH. ring. Qed.

Lemma big_sum_mul (m m' : nat) (x y : nat -> T) :
  big_sum m x * big_sum m' y = big_sum m (fun a => big_sum m' (fun b => x a * y b)).
Proof.
  rewrite <- big_sum_scale_r. apply big_sum_ext. intros a _.
  now rewrite (big_sum_scale Tring).
Qed.

Lemma defGrad_inv_gradU_entry (k di i a b : nat) :
  (di < dim)%nat ->
  defGrad_inv_gradU el k di i a b = defGrad_inv el k a di * physGrad el k b i.
Proof.
  intros Hdi. unfold defGrad_inv_gradU, mat_mul.
  rewrite (big_sum_ext dim _
             (fun r => if (r =? di)%nat
                       then defGrad_inv el k a r * physGrad el k b i else s0)).
  - rewrite (big_sum_single Tring).
    replace (di <? dim)%nat with true by (symmetry; apply Nat.ltb_lt; lia).
    reflexivity.
  - intros r _. unfold gradU, set_row, setZero, col.
    destruct (r =? di)%nat; ring.
Qed.

Lemma defGrad_inv_gradU_trace_spec (k di i : nat) :
  (di < dim)%nat -> defGrad_inv_gradU_trace el k di i = FinvT_grad el k i di.
Proof.
  intros Hdi. unfold defGrad_inv_gradU_trace, trace, FinvT_grad.
  apply big_sum_ext. intros a _. now apply defGrad_inv_gradU_entry.
Qed.

Lemma trace_gradU_gradV (k di i dj j : nat) :
  (di < dim)%nat ->
  trace dim (mat_mul dim (transpose (gradU el k di i)) (gradU el k dj j))
  = if (di =? dj)%nat then grad_dot el k i j else s0.
Proof.
  intros Hdi. unfold trace, mat_mul, transpose, grad_dot.
  rewrite (big_sum_ext dim _
             (fun c => if (di =? dj)%nat
                       then physGrad el k c i * physGrad el k c j else s0)).
  - apply (big_sum_guard Tring).
  - intros c _.
    rewrite (big_sum_ext dim _
               (fun r => if (r =? di)%nat
                         then physGrad el k c i * gradU el k dj j r c else s0)).
    + rewrite (big_sum_single Tring).
      replace (di <? dim)%nat with true by (symmetry; apply Nat.ltb_lt; lia).
      unfold gradU, set_row, setZero, col.
      destruct (di =? dj)%nat; ring.
    + intros r _. unfold gradU at 1. unfold set_row, setZero, col.
      destruct (r =? di)%nat; ring.
Qed.

Lemma trace_FiU_FiV (k di i dj j : nat) :
  (di < dim)%nat -> (dj < dim)%nat ->
  trace dim (mat_mul dim (defGrad_inv_gradU el k di i) (defGrad_inv_gradU el k dj j))
  = FinvT_grad el k j di * FinvT_grad el k i dj.
Proof.
  intros Hdi Hdj. unfold trace, mat_mul, FinvT_grad.
  rewrite big_sum_mul.
  apply big_sum_ext. intros a _. apply big_sum_ext. intros b _.
  rewrite !defGrad_inv_gradU_entry by assumption. ring.
Qed.

(** The tangent value of two displacement rows in closed form. *)
Lemma locKtgVal_closed_form (k di i dj j : nat) :
  (di < dim)%nat -> (dj < dim)%nat ->
  locKtgVal mp el k di i dj j
  = mu * (if (di =? dj)%nat then grad_dot el k i j else s0)
    + muprex mp el k * (FinvT_grad el k j di * FinvT_grad el k i dj).
Proof.
  intros Hdi Hdj. unfold locKtgVal.
  now rewrite trace_gradU_gradV, trace_FiU_FiV by assumption.
Qed.

(** In exact arithmetic (the coefficients form a commutative ring) the
    tangent value does not change when the two rows are exchanged: the
    value [assemble] computes for the pair of rows [(di, i)], [(dj, j)] is
    the one it would compute for [(dj, j)], [(di, i)].  This is what allows
    the code to fill the upper block triangle only.  The two values are sums
    of the same products taken in different orders; in double precision
    they can differ in the last digit
    ([tangent_value_not_symmetric_in_binary64]). *)
Theorem tangent_value_symmetric (k di i dj j : nat) :
  locKtgVal mp el k di i dj j = locKtgVal mp el k dj j di i.
Proof.
  unfold locKtgVal.
  rewrite (trace_transpose_mul_comm Tring dim (gradU el k di i)).
  rewrite (trace_mul_comm Tring dim (defGrad_inv_gradU el k di i)).
  reflexivity.
Qed.

(** [K(di*n+i, dj*n+j)] for [i <= j] receives at node [k]
    [weight * (mu [di = dj] grad(phi_i).grad(phi_j)
               + (mu - prex) (F^-T grad(phi_j))_di (F^-T grad(phi_i))_dj)];
    the entries with [j < i] are not written. *)
Theorem tangent_block_K_at_node (k i di j dj : nat) (st : Local T) :
  (i < n)%nat -> (j < n)%nat -> (di < dim)%nat -> (dj < dim)%nat ->
  localMatK (quad_point mp el k st) (di * n + i)%nat (dj * n + j)%nat
  = if (i <=? j)%nat
    then localMatK st (di * n + i)%nat (dj * n + j)%nat
         + weight el k
           * (mu * (if (di =? dj)%nat then grad_dot el k i j else s0)
              + (mu - mu * pressure el k)
                * (FinvT_grad el k j di * FinvT_grad el k i dj))
    else localMatK st (di * n + i)%nat (dj * n + j)%nat.
Proof.
  intros Hi Hj Hdi Hdj.
  rewrite quad_point_K, (displacement_loop_K Tring) by assumption.
  destruct (i <=? j)%nat; [|ring].
  now rewrite locKtgVal_closed_form by assumption.
Qed.

(** *** The coupling block B *)

Lemma couplingB_loop_B (k i di : nat) (st : Local T) (R C : nat) :
  localMatB (couplingB_loop mp el k i di st) R C
  = localMatB st R C
    + (if (R <? np)%nat && (C =? di * n + i)%nat
       then weight el k * mu * defGrad_inv_gradU_trace el k di i * basisVals_p el R k
       else s0).
Proof.
  unfold couplingB_loop.
  rewrite (for_range_accum Tring (fun s => localMatB s R C) _
             (fun j => if (j =? R)%nat
                       then (if (C =? di * n + i)%nat
                             then weight el k * mu * defGrad_inv_gradU_trace el k di i
                                  * basisVals_p el j k
                             else s0)
                       else s0)).
  - rewrite (sum_range_from_0 np), (big_sum_single Tring).
    destruct (R <? np)%nat; reflexivity.
  - intros j s' _. simpl. unfold mat_add_at. rewrite (Nat.eqb_sym j R).
    destruct (R =? j)%nat, (C =? di * n + i)%nat; simpl; ring.
Qed.

Lemma displacement_body_B (k i di : nat) (st : Local T) (R C : nat) :
  localMatB (displacement_body mp el k i di st) R C
  = localMatB st R C
    + (if (R <? np)%nat && (C =? di * n + i)%nat
       then weight el k * mu * defGrad_inv_gradU_trace el k di i * basisVals_p el R k
       else s0).
Proof.
  unfold displacement_body. cbv zeta. rewrite couplingB_loop_B.
  match goal with |- context [tangentK_loop mp el k i di ?x] =>
    destruct (tangentK_loop_frame mp el k i di x) as (-> & _) end.
  reflexivity.
Qed.

Lemma displacement_loop_B (k i di j : nat) (st : Local T) :
  (i < n)%nat -> (di < dim)%nat ->
  localMatB (displacement_loop mp el k st) j (di * n + i)%nat
  = localMatB st j (di * n + i)%nat
    + (if (j <? np)%nat
       then weight el k * mu * defGrad_inv_gradU_trace el k di i * basisVals_p el j k
       else s0).
Proof.
  intros Hi Hdi. unfold displacement_loop.
  rewrite (for_range_accum Tring (fun s => localMatB s j (di * n + i)%nat) _
             (fun i' => big_sum dim (fun d' =>
                if (di * n + i =? d' * n + i')%nat
                then (if (j <? np)%nat
                      then weight el k * mu * defGrad_inv_gradU_trace el k d' i'
                           * basisVals_p el j k
                      else s0)
                else s0))).
  - now rewrite (sum_range_from_0 n), (big_sum_block_single Tring) by assumption.
  - intros i' s' _.
    rewrite (for_range_accum Tring (fun s => localMatB s j (di * n + i)%nat) _
               (fun d' => if (di * n + i =? d' * n + i')%nat
                          then (if (j <? np)%nat
                                then weight el k * mu * defGrad_inv_gradU_trace el k d' i'
                                     * basisVals_p el j k
                                else s0)
                          else s0)).
    + now rewrite (sum_range_from_0 dim).
    + intros d' s'' _. rewrite displacement_body_B.
      destruct (j <? np)%nat, (di * n + i =? d' * n + i')%nat; reflexivity.
Qed.

Lemma quad_point_B (k : nat) (st : Local T) :
  localMatB (quad_point mp el k st) = localMatB (displacement_loop mp el k st).
Proof.
  unfold quad_point.
  destruct (bodyForce_loop_frame mp el k (pressure_loop mp el k (displacement_loop mp el k st)))
    as (_ & -> & _).
  destruct (pressure_loop_frame mp el k (displacement_loop mp el k st)) as (_ & -> & _).
  reflexivity.
Qed.

(** The entry of B that couples the pressure function [j] with the
    displacement row [(di, i)] receives at node [k]
    [weight * mu * (F^-T grad(phi_i))_di * psi_j]. *)
Theorem coupling_block_B_at_node (k i di j : nat) (st : Local T) :
  (i < n)%nat -> (di < dim)%nat -> (j < np)%nat ->
  localMatB (quad_point mp el k st) j (di * n + i)%nat
  = localMatB st j (di * n + i)%nat
    + weight el k * mu * FinvT_grad el k i di * basisVals_p el j k.
Proof.
  intros Hi Hdi Hj. rewrite quad_point_B, displacement_loop_B by assumption.
  replace (j <? np)%nat with true by (symmetry; apply Nat.ltb_lt; lia).
  now rewrite defGrad_inv_gradU_trace_spec by assumption.
Qed.

(** *** [assemble] as a sum over the quadrature nodes *)

Lemma quad_point_rhs_u (k i di : nat) (st : Local T) :
  (i < n)%nat -> (di < dim)%nat ->
  localRhs_u (quad_point mp el k st) (di * n + i)%nat
  = localRhs_u st (di * n + i)%nat
    + (force_rhs mp el k i di - locResVec mp el k i di).
Proof.
  intros Hi Hdi. unfold quad_point.
  rewrite (bodyForce_loop_rhs_u Tring) by assumption.
  destruct (pressure_loop_frame mp el k (displacement_loop mp el k st)) as (_ & _ & ->).
  rewrite (displacement_loop_rhs_u Tring) by assumption. ring.
Qed.

(** After [assemble] every entry holds its value before the call plus the
    sum, over the quadrature nodes of the element, of what the node adds:
    stress and body force for the displacement residual, logarithm and
    penalty for the pressure residual, the tangent values for the upper
    block triangles of K and C, and the coupling values for B. *)
Theorem assemble_sums_over_nodes (st : Local T) :
  let st' := assemble mp el st in
  let q := quRows el in
  (forall i di, (i < n)%nat -> (di < dim)%nat ->
     localRhs_u st' (di * n + i)%nat
     = localRhs_u st (di * n + i)%nat
       + big_sum q (fun k => force_rhs mp el k i di - locResVec mp el k i di))
  /\ (forall i, (i < np)%nat ->
        localRhs_p st' i
        = localRhs_p st i
          + big_sum q (fun k => penalty_rhs mp el k i - logdetF mp el k * basisVals_p el i k))
  /\ (forall i di j dj, (i <= j)%nat -> (j < n)%nat -> (di < dim)%nat -> (dj < dim)%nat ->
        localMatK st' (di * n + i)%nat (dj * n + j)%nat
        = localMatK st (di * n + i)%nat (dj * n + j)%nat
          + big_sum q (fun k => weight el k * locKtgVal mp el k di i dj j))
  /\ (forall i di j, (i < n)%nat -> (di < dim)%nat -> (j < np)%nat ->
        localMatB st' j (di * n + i)%nat
        = localMatB st j (di * n + i)%nat
          + big_sum q (fun k => weight el k * mu * FinvT_grad el k i di * basisVals_p el j k))
  /\ (forall i j, (i <= j)%nat -> (j < np)%nat ->
        localMatC st' i j
        = localMatC st i j + big_sum q (fun k => - penalty_C mp el k i j)).
Proof.
  cbv zeta. unfold assemble. repeat split.
  - intros i di Hi Hdi. rewrite <- (sum_range_from_0 (quRows el)).
    apply (for_range_accum Tring (fun s => localRhs_u s (di * n + i)%nat)).
    intros k s' _. now apply quad_point_rhs_u.
  - intros i Hi. rewrite <- (sum_range_from_0 (quRows el)).
    apply (for_range_accum Tring (fun s => localRhs_p s i)).
    intros k s' _. rewrite (quad_point_rhs_p Tring).
    replace (i <? np)%nat with true by (symmetry; apply Nat.ltb_lt; lia).
    reflexivity.
  - intros i di j dj Hij Hj Hdi Hdj. rewrite <- (sum_range_from_0 (quRows el)).
    apply (for_range_accum Tring
             (fun s => localMatK s (di * n + i)%nat (dj * n + j)%nat)).
    intros k s' _. rewrite quad_point_K, (displacement_loop_K Tring) by lia.
    replace (i <=? j)%nat with true by (symmetry; apply Nat.leb_le; lia).
    reflexivity.
  - intros i di j Hi Hdi Hj. rewrite <- (sum_range_from_0 (quRows el)).
    apply (for_range_accum Tring (fun s => localMatB s j (di * n + i)%nat)).
    intros k s' _. rewrite quad_point_B, displacement_loop_B by assumption.
    replace (j <? np)%nat with true by (symmetry; apply Nat.ltb_lt; lia).
    now rewrite defGrad_inv_gradU_trace_spec by assumption.
  - intros i j Hij Hj. rewrite <- (sum_range_from_0 (quRows el)).
    apply (for_range_accum Tring (fun s => localMatC s i j)).
    intros k s' _. rewrite (quad_point_C Tring).
    replace (i <=? j)%nat with true by (symmetry; apply Nat.leb_le; lia).
    replace (j <? np)%nat with true by (symmetry; apply Nat.ltb_lt; lia).
    reflexivity.
Qed.

End AssembleMore.

(** *** Where [assemble] writes *)

Section AssembleBounds.
Import Visitor.
Context {T : Type} `{Scalar T} `{Eigen T}.
Local Open Scope scalar_scope.

Variable mp : Material T.
Variable el : Element T.

Local Abbreviation n := (numActive el).
Local Abbreviation np := (numActive_p el).
Local Abbreviation dim := (m_dim el).

Lemma block_index_lt (d i : nat) :
  (d < dim)%nat -> (i < n)%nat -> (d * n + i < dim * n)%nat.
Proof. intros Hd Hi. nia. Qed.

Lemma mat_add_at_other (A : Mat T) (r c : nat) (x : T) (R C : nat) :
  R <> r \/ C <> c -> mat_add_at A r c x R C = A R C.
Proof.
  intros Hne. unfold mat_add_at.
  destruct (Nat.eqb_spec R r), (Nat.eqb_spec C c); simpl; try reflexivity. lia.
Qed.

Lemma mat_sub_at_other (A : Mat T) (r c : nat) (x : T) (R C : nat) :
  R <> r \/ C <> c -> mat_sub_at A r c x R C = A R C.
Proof.
  intros Hne. unfold mat_sub_at.
  destruct (Nat.eqb_spec R r), (Nat.eqb_spec C c); simpl; try reflexivity. lia.
Qed.

Lemma vec_add_at_other (v : Vec T) (i : nat) (x : T) (R : nat) :
  R <> i -> vec_add_at v i x R = v R.
Proof. intros Hne. unfold vec_add_at. destruct (Nat.eqb_spec R i); [lia|reflexivity]. Qed.

Lemma vec_sub_at_other (v : Vec T) (i : nat) (x : T) (R : nat) :
  R <> i -> vec_sub_at v i x R = v R.
Proof. intros Hne. unfold vec_sub_at. destruct (Nat.eqb_spec R i); [lia|reflexivity]. Qed.

Lemma displacement_body_outside (k i di : nat) (st s : Local T) :
  (i < n)%nat -> (di < dim)%nat ->
  outside_kept el st s -> outside_kept el st (displacement_body mp el k i di s).
Proof.
  intros Hi Hdi Hs. pose proof (block_index_lt di i Hdi Hi) as Hrow.
  unfold displacement_body, couplingB_loop, tangentK_loop. cbv zeta.
  apply for_range_inv.
  - apply for_range_inv.
    + destruct Hs as (HK & HB & HC & Hu & Hp).
      repeat split; try assumption.
      intros R HR. simpl. rewrite vec_sub_at_other by lia. now apply Hu.
    + intros j s1 Hj Hs1. apply for_range_inv; [exact Hs1|].
      intros dj s2 Hdj (HK & HB & HC & Hu & Hp).
      pose proof (block_index_lt dj j) as Hcol.
      repeat split; try assumption.
      intros R C HRC. simpl. rewrite mat_add_at_other by lia. now apply HK.
  - intros j s1 Hj (HK & HB & HC & Hu & Hp).
    repeat split; try assumption.
    intros R C HRC. simpl. rewrite mat_add_at_other by lia. now apply HB.
Qed.

Lemma pressure_body_outside (k i : nat) (st s : Local T) :
  (i < np)%nat ->
  outside_kept el st s -> outside_kept el st (pressure_body mp el k i s).
Proof.
  intros Hi (HK & HB & HC & Hu & Hp). unfold pressure_body. cbv zeta.
  destruct (m_lambda mp) as [lam|].
  - apply for_range_inv.
    + repeat split; try assumption.
      intros R HR. simpl. rewrite vec_add_at_other, vec_sub_at_other by lia. now apply Hp.
    + intros j s1 Hj (HK1 & HB1 & HC1 & Hu1 & Hp1).
      repeat split; try assumption.
      intros R C HRC. simpl. rewrite mat_sub_at_other by lia. now apply HC1.
  - repeat split; try assumption.
    intros R HR. simpl. rewrite vec_sub_at_other by lia. now apply Hp.
Qed.

Lemma bodyForce_loop_outside (k : nat) (st s : Local T) :
  outside_kept el st s -> outside_kept el st (bodyForce_loop mp el k s).
Proof.
  intros Hs. unfold bodyForce_loop. apply for_range_inv; [exact Hs|].
  intros j s1 Hj (HK & HB & HC & Hu & Hp).
  repeat split; try assumption.
  intros R HR. simpl. unfold middleRows_add.
  replace (R <? j * n + n)%nat with false; [rewrite andb_false_r; now apply Hu|].
  symmetry. apply Nat.ltb_ge. nia.
Qed.

(** [assemble] writes only inside the blocks: rows and columns below
    [m_dim * numActive] of K, rows below [numActive_p] and columns below
    [m_dim * numActive] of B, rows and columns below [numActive_p] of C,
    and the corresponding rows of the two residuals.  No coefficient with
    an index beyond these bounds is changed. *)
Theorem assemble_writes_inside_blocks (st : Local T) :
  let st' := assemble mp el st in
  (forall R C, (dim * n <= R)%nat \/ (dim * n <= C)%nat ->
     localMatK st' R C = localMatK st R C)
  /\ (forall R C, (np <= R)%nat \/ (dim * n <= C)%nat ->
        localMatB st' R C = localMatB st R C)
  /\ (forall R C, (np <= R)%nat \/ (np <= C)%nat ->
        localMatC st' R C = localMatC st R C)
  /\ (forall R, (dim * n <= R)%nat -> localRhs_u st' R = localRhs_u st R)
  /\ (forall R, (np <= R)%nat -> localRhs_p st' R = localRhs_p st R).
Proof.
  cbv zeta. change (outside_kept el st (assemble mp el st)).
  unfold assemble. apply for_range_inv.
  - repeat split; reflexivity.
  - intros k s Hk Hs. unfold quad_point.
    apply bodyForce_loop_outside.
    unfold pressure_loop. apply for_range_inv.
    + unfold displacement_loop. apply for_range_inv; [exact Hs|].
      intros i s1 Hi Hs1. apply for_range_inv; [exact Hs1|].
      intros di s2 Hdi Hs2. apply displacement_body_outside; [lia|lia|exact Hs2].
    + intros i s1 Hi Hs1. apply pressure_body_outside; [lia|exact Hs1].
Qed.

End AssembleBounds.

(** ** More on [localToGlobal] *)

Section ScatterMore.
Import Visitor.
Context {T : Type} `{Scalar T}.
Hypothesis Tring : ring_theory s0 s1 sadd smul ssub sopp (@eq T).
Add Ring Tring_ring7 : Tring.
Local Open Scope scalar_scope.

Variable el : Element T.
Variable maps : DofMaps.
Variable loc : Local T.

Local Abbreviation n := (numActive el).
Local Abbreviation np := (numActive_p el).
Local Abbreviation dim := (m_dim el).

Lemma scatterK_loop_rhs (ci ai : nat) (g : Global T) :
  rhsMatrix (scatterK_loop el maps loc ci ai g) = rhsMatrix g.
Proof.
  unfold scatterK_loop. cbv zeta.
  apply (for_range_inv (fun s => rhsMatrix s = rhsMatrix g)); [reflexivity|].
  intros aj g1 _ Hg1. apply for_range_inv; [exact Hg1|].
  intros cj g2 _ Hg2.
  destruct (is_free_index maps cj (ci_actives maps cj aj)); [|exact Hg2].
  destruct (ai <? aj)%nat; exact Hg2.
Qed.

Lemma scatterB_loop_rhs (ci ai : nat) (g : Global T) :
  rhsMatrix (scatterB_loop el maps loc ci ai g) = rhsMatrix g.
Proof.
  unfold scatterB_loop. cbv zeta.
  apply (for_range_inv (fun s => rhsMatrix s = rhsMatrix g)); [reflexivity|].
  intros aj g1 _ Hg1.
  destruct (is_free_index maps dim (ci_actives maps dim aj)); exact Hg1.
Qed.

Lemma scatterC_loop_rhs (ai : nat) (g : Global T) :
  rhsMatrix (scatterC_loop el maps loc ai g) = rhsMatrix g.
Proof.
  unfold scatterC_loop. cbv zeta.
  apply (for_range_inv (fun s => rhsMatrix s = rhsMatrix g)); [reflexivity|].
  intros aj g1 _ Hg1.
  destruct (is_free_index maps dim (ci_actives maps dim aj)); [|exact Hg1].
  destruct (ai <? aj)%nat; exact Hg1.
Qed.

Lemma localToGlobal_rhs (g : Global T) (r : nat) :
  rhsMatrix (localToGlobal el maps loc g) r
  = rhsMatrix g r + contribution_rhs el maps loc r.
Proof.
  unfold localToGlobal, contribution_rhs. cbv zeta.
  rewrite (for_range_accum Tring (fun g0 => rhsMatrix g0 r) _
             (fun ai => if is_free_index maps dim (ci_actives maps dim ai)
                           && (ci_actives maps dim ai =? r)%nat
                        then localRhs_p loc ai else s0)).
  - rewrite (for_range_accum Tring (fun g0 => rhsMatrix g0 r) _
               (fun ci => big_sum n (fun ai =>
                  if is_free_index maps ci (ci_actives maps ci ai)
                     && (ci_actives maps ci ai =? r)%nat
                  then localRhs_u loc (ci * n + ai)%nat else s0))).
    + rewrite !sum_range_from_0. ring.
    + intros ci g1 _.
      rewrite (for_range_accum Tring (fun g0 => rhsMatrix g0 r) _
                 (fun ai => if is_free_index maps ci (ci_actives maps ci ai)
                               && (ci_actives maps ci ai =? r)%nat
                            then localRhs_u loc (ci * n + ai)%nat else s0)).
      * now rewrite sum_range_from_0.
      * intros ai g2 _. unfold scatter_u_body. cbv zeta.
        destruct (is_free_index maps ci (ci_actives maps ci ai)); [|simpl; ring].
        rewrite scatterB_loop_rhs, scatterK_loop_rhs. simpl. unfold vec_add_at.
        rewrite (Nat.eqb_sym r). destruct (ci_actives maps ci ai =? r)%nat; ring.
  - intros ai g1 _. unfold scatter_p_body. cbv zeta.
    destruct (is_free_index maps dim (ci_actives maps dim ai)); [|simpl; ring].
    rewrite scatterC_loop_rhs. simpl. unfold vec_add_at.
    rewrite (Nat.eqb_sym r). destruct (ci_actives maps dim ai =? r)%nat; ring.
Qed.

(** Row [r] of the global right-hand side receives the local residual rows
    of exactly those local degrees of freedom that are free and resolve to
    [r], each once; the displacement rows come from [localRhs_u], the
    pressure rows from [localRhs_p]. *)
Theorem scatter_adds_free_residual_rows (g : Global T) (r : nat) :
  rhsMatrix (localToGlobal el maps loc g) r
  = rhsMatrix g r
    + (big_sum dim (fun ci => big_sum n (fun ai =>
         if is_free_index maps ci (ci_actives maps ci ai)
            && (ci_actives maps ci ai =? r)%nat
         then localRhs_u loc (ci * n + ai)%nat else s0))
       + big_sum np (fun ai =>
           if is_free_index maps dim (ci_actives maps dim ai)
              && (ci_actives maps dim ai =? r)%nat
           then localRhs_p loc ai else s0)).
Proof. apply localToGlobal_rhs. Qed.

End ScatterMore.

Section ScatterEdge.
Import Visitor.
Context {T : Type} `{Scalar T}.

(** An element all of whose local degrees of freedom are eliminated leaves
    the global system as it is: no matrix entry is created and no row of
    the right-hand side is changed. *)
Theorem all_eliminated_changes_nothing (el : Element T) (maps : DofMaps)
    (loc : Local T) (g : Global T) :
  (forall ci a, local_dof el ci a ->
     is_free_index maps ci (ci_actives maps ci a) = false) ->
  localToGlobal el maps loc g = g.
Proof.
  intros Helim. unfold localToGlobal. cbv zeta.
  apply (for_range_inv (fun s => s = g)).
  - apply (for_range_inv (fun s => s = g)); [reflexivity|].
    intros ci g1 Hci ->. apply (for_range_inv (fun s => s = g)); [reflexivity|].
    intros ai g2 Hai ->. unfold scatter_u_body. cbv zeta.
    rewrite Helim; [reflexivity|]. left. lia.
  - intros ai g1 Hai ->. unfold scatter_p_body. cbv zeta.
    rewrite Helim; [reflexivity|]. right. lia.
Qed.

Hypothesis Tring : ring_theory s0 s1 sadd smul ssub sopp (@eq T).
Add Ring Tring_ring8 : Tring.
Local Open Scope scalar_scope.

(** The scatters of two elements into the same global system commute: the
    value of every matrix entry and of every right-hand-side row is the
    same whichever element is scattered first. *)
Theorem scatter_order_is_irrelevant (el1 el2 : Element T) (maps1 maps2 : DofMaps)
    (loc1 loc2 : Local T) (g : Global T) (r c : nat) :
  coeff (sysMatrix (localToGlobal el1 maps1 loc1 (localToGlobal el2 maps2 loc2 g))) r c
  = coeff (sysMatrix (localToGlobal el2 maps2 loc2 (localToGlobal el1 maps1 loc1 g))) r c
  /\ rhsMatrix (localToGlobal el1 maps1 loc1 (localToGlobal el2 maps2 loc2 g)) r
     = rhsMatrix (localToGlobal el2 maps2 loc2 (localToGlobal el1 maps1 loc1 g)) r.
Proof.
  rewrite !(localToGlobal_coeff Tring), !(localToGlobal_rhs Tring). split; ring.
Qed.

End ScatterEdge.

Section ScatterInvariant.
Import Visitor.
Context {T : Type} `{Scalar T} `{Eigen T}.
Hypothesis Tring : ring_theory s0 s1 sadd smul ssub sopp (@eq T).
Add Ring Tring_ring10 : Tring.
Local Open Scope scalar_scope.

(** In exact arithmetic (the coefficients form a commutative ring) a
    symmetric global matrix stays symmetric when an element is assembled and
    scattered into it (local buffers with a K symmetric on the blocks of
    each basis function to start with, zeroed buffers in particular).  In
    double precision the entries of two components of one basis function
    can come out different in the last digit. *)
Theorem scatter_keeps_matrix_symmetric (mp : Material T) (el : Element T)
    (maps : DofMaps) (loc0 : Local T) (g : Global T) :
  diag_blocks_symmetric el (localMatK loc0) ->
  (forall r c, coeff (sysMatrix g) r c = coeff (sysMatrix g) c r) ->
  let g' := localToGlobal el maps (assemble mp el loc0) g in
  forall r c, coeff (sysMatrix g') r c = coeff (sysMatrix g') c r.
Proof.
  intros Hsym Hg g' r c. unfold g'.
  rewrite !(localToGlobal_coeff Tring), (Hg r c).
  rewrite (contribution_sym Tring el maps (assemble mp el loc0) r c)
    by (apply (assemble_diag_blocks Tring); exact Hsym).
  reflexivity.
Qed.

End ScatterInvariant.

(** ** Reading back what [localToGlobal] scattered *)

Section ScatterReadBack.
Import Visitor.
Context {T : Type} `{Scalar T}.
Hypothesis Tring : ring_theory s0 s1 sadd smul ssub sopp (@eq T).
Add Ring Tring_ring9 : Tring.
Local Open Scope scalar_scope.

Variable el : Element T.
Variable maps : DofMaps.
Variable loc : Local T.
Hypothesis Hdist : dofs_distinct el maps.

Local Abbreviation n := (numActive el).
Local Abbreviation np := (numActive_p el).
Local Abbreviation dim := (m_dim el).

Lemma big_sum_all_zero (m : nat) (f : nat -> T) :
  (forall k, (k < m)%nat -> f k = s0) -> big_sum m f = s0.
Proof.
  intros Hf. rewrite (big_sum_ext m f (fun _ => s0)) by assumption.
  apply (big_sum_zero Tring).
Qed.

Lemma big_sum_unique (m k0 : nat) (f : nat -> T) :
  (k0 < m)%nat -> (forall k, (k < m)%nat -> k <> k0 -> f k = s0) ->
  big_sum m f = f k0.
Proof.
  intros Hk Hf.
  rewrite (big_sum_ext m f (fun k => if (k =? k0)%nat then f k else s0)).
  - rewrite (big_sum_single Tring).
    replace (k0 <? m)%nat with true by (symmetry; apply Nat.ltb_lt; lia). reflexivity.
  - intros k Hkm. destruct (Nat.eqb_spec k k0); [reflexivity|now apply Hf].
Qed.

Lemma sum_range_all_zero (lo hi : nat) (f : nat -> T) :
  (forall k, (lo <= k < hi)%nat -> f k = s0) -> sum_range lo hi f = s0.
Proof.
  intros Hf. unfold sum_range. apply big_sum_all_zero. intros k Hk. apply Hf. lia.
Qed.

Lemma sum_range_unique (lo hi k0 : nat) (f : nat -> T) :
  (lo <= k0 < hi)%nat ->
  (forall k, (lo <= k < hi)%nat -> k <> k0 -> f k = s0) ->
  sum_range lo hi f = f k0.
Proof.
  intros Hk Hf. unfold sum_range.
  rewrite (big_sum_unique (hi - lo) (k0 - lo)); [|lia|].
  - f_equal. lia.
  - intros k Hkm Hne. apply Hf; lia.
Qed.

(** Decide the value of the [entry] tests in the goal from the
    distinctness of the resolved indices. *)
Ltac entries :=
  unfold entry;
  repeat match goal with
         | |- context [(?a =? ?b)%nat] => destruct (Nat.eqb_spec a b)
         end;
  cbn [andb];
  repeat match goal with
         | Heq : ci_actives maps _ _ = ci_actives maps _ _ |- _ =>
             apply Hdist in Heq; [destruct Heq | unfold local_dof; lia | unfold local_dof; lia]
         end;
  subst;
  try (exfalso; lia);
  try congruence;
  try ring.

(** The pressure rows with the block C. *)
Lemma contrib_p_direct (a b : nat) :
  (a <= b)%nat -> (b < np)%nat ->
  is_free_index maps dim (ci_actives maps dim a) = true ->
  is_free_index maps dim (ci_actives maps dim b) = true ->
  big_sum np (fun ai =>
    contrib_p el maps loc ai (ci_actives maps dim a) (ci_actives maps dim b))
  = localMatC loc a b.
Proof.
  intros Hab Hb Hfa Hfb.
  rewrite (big_sum_unique np a); [|lia|].
  - unfold contrib_p. rewrite Hfa.
    rewrite (sum_range_unique a np b); [|lia|].
    + unfold contribC. cbv zeta. rewrite Hfb.
      destruct (Nat.ltb_spec a b); entries.
    + intros aj Haj Hne. unfold contribC. cbv zeta.
      destruct (is_free_index maps dim (ci_actives maps dim aj)); [|reflexivity].
      destruct (Nat.ltb_spec a aj); entries.
  - intros ai Hai Hne. unfold contrib_p.
    destruct (is_free_index maps dim (ci_actives maps dim ai)); [|reflexivity].
    apply sum_range_all_zero. intros aj Haj. unfold contribC. cbv zeta.
    destruct (is_free_index maps dim (ci_actives maps dim aj)); [|reflexivity].
    destruct (Nat.ltb_spec ai aj); entries.
Qed.

Lemma contrib_p_mirror (a b : nat) :
  (a < b)%nat -> (b < np)%nat ->
  is_free_index maps dim (ci_actives maps dim a) = true ->
  is_free_index maps dim (ci_actives maps dim b) = true ->
  big_sum np (fun ai =>
    contrib_p el maps loc ai (ci_actives maps dim b) (ci_actives maps dim a))
  = localMatC loc a b.
Proof.
  intros Hab Hb Hfa Hfb.
  rewrite (big_sum_unique np a); [|lia|].
  - unfold contrib_p. rewrite Hfa.
    rewrite (sum_range_unique a np b); [|lia|].
    + unfold contribC. cbv zeta. rewrite Hfb.
      destruct (Nat.ltb_spec a b); entries.
    + intros aj Haj Hne. unfold contribC. cbv zeta.
      destruct (is_free_index maps dim (ci_actives maps dim aj)); [|reflexivity].
      destruct (Nat.ltb_spec a aj); entries.
  - intros ai Hai Hne. unfold contrib_p.
    destruct (is_free_index maps dim (ci_actives maps dim ai)); [|reflexivity].
    apply sum_range_all_zero. intros aj Haj. unfold contribC. cbv zeta.
    destruct (is_free_index maps dim (ci_actives maps dim aj)); [|reflexivity].
    destruct (Nat.ltb_spec ai aj); entries.
Qed.

(** The displacement rows add nothing to an entry of two pressure indices. *)
Lemma contrib_u_none_pp (a b ci ai : nat) :
  (a < np)%nat -> (b < np)%nat -> (ci < dim)%nat -> (ai < n)%nat ->
  contrib_u el maps loc ci ai (ci_actives maps dim a) (ci_actives maps dim b) = s0.
Proof.
  intros Ha Hb Hci Hai. unfold contrib_u.
  destruct (is_free_index maps ci (ci_actives maps ci ai)); [|reflexivity].
  rewrite sum_range_all_zero, big_sum_all_zero; [ring| |].
  - intros aj Haj. unfold contribB. cbv zeta.
    destruct (is_free_index maps dim (ci_actives maps dim aj)); [|reflexivity].
    entries.
  - intros aj Haj. apply big_sum_all_zero. intros cj Hcj.
    unfold contribK. cbv zeta.
    destruct (is_free_index maps cj (ci_actives maps cj aj)); [|reflexivity].
    destruct (Nat.ltb_spec ai aj); entries.
Qed.

(** The pressure rows add nothing to an entry with a displacement index. *)
Lemma contrib_p_none_u (ci a r c ai : nat) :
  (ci < dim)%nat -> (a < n)%nat -> (ai < np)%nat ->
  r = ci_actives maps ci a \/ c = ci_actives maps ci a ->
  contrib_p el maps loc ai r c = s0.
Proof.
  intros Hci Ha Hai Hrc. unfold contrib_p.
  destruct (is_free_index maps dim (ci_actives maps dim ai)); [|reflexivity].
  apply sum_range_all_zero. intros aj Haj. unfold contribC. cbv zeta.
  destruct (is_free_index maps dim (ci_actives maps dim aj)); [|reflexivity].
  destruct Hrc as [-> | ->]; destruct (Nat.ltb_spec ai aj); entries.
Qed.

(** With distinct global indices, the entry of two free pressure indices
    receives the entry of the local block C of the two pressure functions,
    taken from the upper triangle: what was scattered is read back. *)
Theorem read_back_block_C (g : Global T) (a b : nat) :
  (a < np)%nat -> (b < np)%nat ->
  is_free_index maps dim (ci_actives maps dim a) = true ->
  is_free_index maps dim (ci_actives maps dim b) = true ->
  coeff (sysMatrix (localToGlobal el maps loc g))
        (ci_actives maps dim a) (ci_actives maps dim b)
  = coeff (sysMatrix g) (ci_actives maps dim a) (ci_actives maps dim b)
    + C_mirrored loc a b.
Proof.
  intros Ha Hb Hfa Hfb. rewrite (localToGlobal_coeff Tring). f_equal.
  unfold contribution.
  rewrite (big_sum_all_zero dim).
  2:{ intros ci Hci. apply big_sum_all_zero. intros ai Hai.
      now apply contrib_u_none_pp. }
  unfold C_mirrored. destruct (Nat.leb_spec a b) as [Hab|Hba].
  - rewrite contrib_p_direct by assumption. ring.
  - rewrite contrib_p_mirror by assumption. ring.
Qed.

(** The displacement rows with the block B. *)
Lemma contrib_u_B_direct (ci a b : nat) :
  (ci < dim)%nat -> (a < n)%nat -> (b < np)%nat ->
  is_free_index maps ci (ci_actives maps ci a) = true ->
  is_free_index maps dim (ci_actives maps dim b) = true ->
  big_sum dim (fun ci' => big_sum n (fun ai =>
    contrib_u el maps loc ci' ai (ci_actives maps ci a) (ci_actives maps dim b)))
  = localMatB loc b (ci * n + a)%nat.
Proof.
  intros Hci Ha Hb Hfa Hfb.
  rewrite (big_sum_unique dim ci); [|lia|].
  - rewrite (big_sum_unique n a); [|lia|].
    + unfold contrib_u. rewrite Hfa.
      rewrite sum_range_all_zero.
      * rewrite (big_sum_unique np b); [|lia|].
        -- unfold contribB. cbv zeta. rewrite Hfb. entries.
        -- intros aj Haj Hne. unfold contribB. cbv zeta.
           destruct (is_free_index maps dim (ci_actives maps dim aj)); [|reflexivity].
           entries.
      * intros aj Haj. apply big_sum_all_zero. intros cj Hcj.
        unfold contribK. cbv zeta.
        destruct (is_free_index maps cj (ci_actives maps cj aj)); [|reflexivity].
        destruct (Nat.ltb_spec a aj); entries.
    + intros ai Hai Hne. unfold contrib_u.
      destruct (is_free_index maps ci (ci_actives maps ci ai)); [|reflexivity].
      rewrite sum_range_all_zero, big_sum_all_zero; [ring| |].
      * intros aj Haj. unfold contribB. cbv zeta.
        destruct (is_free_index maps dim (ci_actives maps dim aj)); [|reflexivity].
        entries.
      * intros aj Haj. apply big_sum_all_zero. intros cj Hcj.
        unfold contribK. cbv zeta.
        destruct (is_free_index maps cj (ci_actives maps cj aj)); [|reflexivity].
        destruct (Nat.ltb_spec ai aj); entries.
  - intros ci' Hci' Hne. apply big_sum_all_zero. intros ai Hai. unfold contrib_u.
    destruct (is_free_index maps ci' (ci_actives maps ci' ai)); [|reflexivity].
    rewrite sum_range_all_zero, big_sum_all_zero; [ring| |].
    + intros aj Haj. unfold contribB. cbv zeta.
      destruct (is_free_index maps dim (ci_actives maps dim aj)); [|reflexivity].
      entries.
    + intros aj Haj. apply big_sum_all_zero. intros cj Hcj.
      unfold contribK. cbv zeta.
      destruct (is_free_index maps cj (ci_actives maps cj aj)); [|reflexivity].
      destruct (Nat.ltb_spec ai aj); entries.
Qed.

Lemma contrib_u_B_mirror (ci a b : nat) :
  (ci < dim)%nat -> (a < n)%nat -> (b < np)%nat ->
  is_free_index maps ci (ci_actives maps ci a) = true ->
  is_free_index maps dim (ci_actives maps dim b) = true ->
  big_sum dim (fun ci' => big_sum n (fun ai =>
    contrib_u el maps loc ci' ai (ci_actives maps dim b) (ci_actives maps ci a)))
  = localMatB loc b (ci * n + a)%nat.
Proof.
  intros Hci Ha Hb Hfa Hfb.
  rewrite (big_sum_unique dim ci); [|lia|].
  - rewrite (big_sum_unique n a); [|lia|].
    + unfold contrib_u. rewrite Hfa.
      rewrite sum_range_all_zero.
      * rewrite (big_sum_unique np b); [|lia|].
        -- unfold contribB. cbv zeta. rewrite Hfb. entries.
        -- intros aj Haj Hne. unfold contribB. cbv zeta.
           destruct (is_free_index maps dim (ci_actives maps dim aj)); [|reflexivity].
           entries.
      * intros aj Haj. apply big_sum_all_zero. intros cj Hcj.
        unfold contribK. cbv zeta.
        destruct (is_free_index maps cj (ci_actives maps cj aj)); [|reflexivity].
        destruct (Nat.ltb_spec a aj); entries.
    + intros ai Hai Hne. unfold contrib_u.
      destruct (is_free_index maps ci (ci_actives maps ci ai)); [|reflexivity].
      rewrite sum_range_all_zero, big_sum_all_zero; [ring| |].
      * intros aj Haj. unfold contribB. cbv zeta.
        destruct (is_free_index maps dim (ci_actives maps dim aj)); [|reflexivity].
        entries.
      * intros aj Haj. apply big_sum_all_zero. intros cj Hcj.
        unfold contribK. cbv zeta.
        destruct (is_free_index maps cj (ci_actives maps cj aj)); [|reflexivity].
        destruct (Nat.ltb_spec ai aj); entries.
  - intros ci' Hci' Hne. apply big_sum_all_zero. intros ai Hai. unfold contrib_u.
    destruct (is_free_index maps ci' (ci_actives maps ci' ai)); [|reflexivity].
    rewrite sum_range_all_zero, big_sum_all_zero; [ring| |].
    + intros aj Haj. unfold contribB. cbv zeta.
      destruct (is_free_index maps dim (ci_actives maps dim aj)); [|reflexivity].
      entries.
    + intros aj Haj. apply big_sum_all_zero. intros cj Hcj.
      unfold contribK. cbv zeta.
      destruct (is_free_index maps cj (ci_actives maps cj aj)); [|reflexivity].
      destruct (Nat.ltb_spec ai aj); entries.
Qed.

(** With distinct global indices, the two entries that pair a free
    displacement index with a free pressure index both receive the entry
    of the local block B for that pressure function and displacement row. *)
Theorem read_back_block_B (g : Global T) (ci a b : nat) :
  (ci < dim)%nat -> (a < n)%nat -> (b < np)%nat ->
  is_free_index maps ci (ci_actives maps ci a) = true ->
  is_free_index maps dim (ci_actives maps dim b) = true ->
  let g' := localToGlobal el maps loc g in
  let ii := ci_actives maps ci a in
  let jj := ci_actives maps dim b in
  coeff (sysMatrix g') ii jj = coeff (sysMatrix g) ii jj + localMatB loc b (ci * n + a)%nat
  /\ coeff (sysMatrix g') jj ii = coeff (sysMatrix g) jj ii + localMatB loc b (ci * n + a)%nat.
Proof.
  intros Hci Ha Hb Hfa Hfb. cbv zeta.
  rewrite !(localToGlobal_coeff Tring). unfold contribution.
  rewrite contrib_u_B_direct, contrib_u_B_mirror by assumption.
  rewrite !(big_sum_all_zero np).
  - split; ring.
  - intros ai Hai. apply (contrib_p_none_u ci a); auto.
  - intros ai Hai. apply (contrib_p_none_u ci a); auto.
Qed.

(** A pass of the displacement rows that adds nothing to the entry at hand. *)
Ltac pass_adds_nothing :=
  unfold contrib_u;
  match goal with |- context [is_free_index maps ?x ?y] =>
    destruct (is_free_index maps x y); [|reflexivity] end;
  rewrite sum_range_all_zero, big_sum_all_zero;
  [ ring
  | intros ?aj ?Haj; unfold contribB; cbv zeta;
    match goal with |- context [is_free_index maps ?x ?y] =>
      destruct (is_free_index maps x y); [|reflexivity] end;
    entries
  | intros ?aj ?Haj; apply big_sum_all_zero; intros ?cj ?Hcj;
    unfold contribK; cbv zeta;
    match goal with |- context [is_free_index maps ?x ?y] =>
      destruct (is_free_index maps x y); [|reflexivity] end;
    match goal with |- context [(?u <? ?v)%nat] => destruct (Nat.ltb_spec u v) end;
    entries ].

(** The displacement rows with the block K. *)
Lemma contrib_u_K_direct (ci a cj b : nat) :
  (ci < dim)%nat -> (cj < dim)%nat -> (a <= b)%nat -> (b < n)%nat ->
  is_free_index maps ci (ci_actives maps ci a) = true ->
  is_free_index maps cj (ci_actives maps cj b) = true ->
  big_sum dim (fun ci' => big_sum n (fun ai =>
    contrib_u el maps loc ci' ai (ci_actives maps ci a) (ci_actives maps cj b)))
  = localMatK loc (ci * n + a)%nat (cj * n + b)%nat.
Proof.
  intros Hci Hcj Hab Hb Hfa Hfb.
  rewrite (big_sum_unique dim ci); [|lia|].
  - rewrite (big_sum_unique n a); [|lia|].
    + unfold contrib_u. rewrite Hfa.
      rewrite (big_sum_all_zero np).
      * rewrite (sum_range_unique a n b); [|lia|].
        -- rewrite (big_sum_unique dim cj); [|lia|].
           ++ unfold contribK. cbv zeta. rewrite Hfb.
              destruct (Nat.ltb_spec a b); entries.
           ++ intros cj' Hcj' Hne. unfold contribK. cbv zeta.
              destruct (is_free_index maps cj' (ci_actives maps cj' b)); [|reflexivity].
              destruct (Nat.ltb_spec a b); entries.
        -- intros aj Haj Hne. apply big_sum_all_zero. intros cj' Hcj'.
           unfold contribK. cbv zeta.
           destruct (is_free_index maps cj' (ci_actives maps cj' aj)); [|reflexivity].
           destruct (Nat.ltb_spec a aj); entries.
      * intros aj Haj. unfold contribB. cbv zeta.
        destruct (is_free_index maps dim (ci_actives maps dim aj)); [|reflexivity].
        entries.
    + intros ai Hai Hne. pass_adds_nothing.
  - intros ci' Hci' Hne. apply big_sum_all_zero. intros ai Hai. pass_adds_nothing.
Qed.

Lemma contrib_u_K_mirror (ci a cj b : nat) :
  (ci < dim)%nat -> (cj < dim)%nat -> (a < b)%nat -> (b < n)%nat ->
  is_free_index maps ci (ci_actives maps ci a) = true ->
  is_free_index maps cj (ci_actives maps cj b) = true ->
  big_sum dim (fun ci' => big_sum n (fun ai =>
    contrib_u el maps loc ci' ai (ci_actives maps cj b) (ci_actives maps ci a)))
  = localMatK loc (ci * n + a)%nat (cj * n + b)%nat.
Proof.
  intros Hci Hcj Hab Hb Hfa Hfb.
  rewrite (big_sum_unique dim ci); [|lia|].
  - rewrite (big_sum_unique n a); [|lia|].
    + unfold contrib_u. rewrite Hfa.
      rewrite (big_sum_all_zero np).
      * rewrite (sum_range_unique a n b); [|lia|].
        -- rewrite (big_sum_unique dim cj); [|lia|].
           ++ unfold contribK. cbv zeta. rewrite Hfb.
              destruct (Nat.ltb_spec a b); entries.
           ++ intros cj' Hcj' Hne. unfold contribK. cbv zeta.
              destruct (is_free_index maps cj' (ci_actives maps cj' b)); [|reflexivity].
              destruct (Nat.ltb_spec a b); entries.
        -- intros aj Haj Hne. apply big_sum_all_zero. intros cj' Hcj'.
           unfold contribK. cbv zeta.
           destruct (is_free_index maps cj' (ci_actives maps cj' aj)); [|reflexivity].
           destruct (Nat.ltb_spec a aj); entries.
      * intros aj Haj. unfold contribB. cbv zeta.
        destruct (is_free_index maps dim (ci_actives maps dim aj)); [|reflexivity].
        entries.
    + intros ai Hai Hne. pass_adds_nothing.
  - intros ci' Hci' Hne. apply big_sum_all_zero. intros ai Hai. pass_adds_nothing.
Qed.

(** With distinct global indices, the entry of two free displacement
    indices receives the entry of the local block K of the two rows, taken
    from the upper block triangle (for two rows of the same basis function,
    the entry in the order of the pair): what was scattered is read back,
    although the lower block triangle of the local K is never read. *)
Theorem read_back_block_K (g : Global T) (ci a cj b : nat) :
  (ci < dim)%nat -> (a < n)%nat -> (cj < dim)%nat -> (b < n)%nat ->
  is_free_index maps ci (ci_actives maps ci a) = true ->
  is_free_index maps cj (ci_actives maps cj b) = true ->
  coeff (sysMatrix (localToGlobal el maps loc g))
        (ci_actives maps ci a) (ci_actives maps cj b)
  = coeff (sysMatrix g) (ci_actives maps ci a) (ci_actives maps cj b)
    + K_mirrored el loc ci a cj b.
Proof.
  intros Hci Ha Hcj Hb Hfa Hfb. rewrite (localToGlobal_coeff Tring). f_equal.
  unfold contribution.
  rewrite (big_sum_all_zero np)
    by (intros ai Hai; apply (contrib_p_none_u ci a); auto).
  unfold K_mirrored. cbv zeta. destruct (Nat.leb_spec a b) as [Hab|Hba].
  - rewrite contrib_u_K_direct by assumption. ring.
  - rewrite contrib_u_K_mirror by assumption. ring.
Qed.

End ScatterReadBack.

(** ** The time integrator *)

Section TimeIntegratorFacts.
Import TimeIntegrator.
Context {T : Type} `{Scalar T}.
Hypothesis Tfield : field_theory s0 s1 sadd smul ssub sopp sdiv sinv (@eq T).
Add Field Tfield_field : Tfield.
Local Open Scope scalar_scope.

Variable env : Collaborators T.

Lemma mul_nonzero (a b : T) : a <> s0 -> b <> s0 -> a * b <> s0.
Proof.
  intros Ha Hb Hab. apply Hb.
  transitivity (sinv a * a * b); [rewrite (Finv_l Tfield) by assumption; ring|].
  transitivity (sinv a * (a * b)); [ring|]. rewrite Hab. ring.
Qed.

(** Discharge the conditions [field] leaves: the denominators are products
    of [2] and of the time step. *)
Ltac nonzero H2 Hdt :=
  repeat split;
  repeat first [ exact H2 | exact Hdt | exact (F_1_neq_0 Tfield)
               | apply mul_nonzero ].

(** With [beta = 1/4] and [gamma = 1/2] the coefficients of the velocity
    update do not involve the old acceleration. *)
Lemma alpha_values (timeStep : T) :
  s1 + s1 <> s0 -> timeStep <> s0 ->
  alpha3 = s1 /\ alpha5 = - s1 /\ alpha6 timeStep = s0.
Proof.
  intros H2 Hdt. unfold alpha3, alpha5, alpha6, beta, gamma, two.
  repeat split; field; nonzero H2 Hdt.
Qed.

(** Whatever the linear solve returns as new displacement, the state after
    [makeTimeStep] satisfies, in every component, the two relations of the
    Newmark scheme with [beta = 1/4], [gamma = 1/2] (the average
    acceleration rule):
    [d' = d + dt v + dt^2/4 (a + a')] and [v' = v + dt/2 (a + a')].
    The old acceleration does not enter the velocity update:
    [v' = 2/dt (d' - d) - v]. *)
Theorem makeTimeStep_newmark_relations (timeStep : T) (st : State env) (i : nat) :
  s1 + s1 <> s0 -> timeStep <> s0 ->
  let st' := makeTimeStep env timeStep st in
  dispVector env st' i
  = dispVector env st i + timeStep * velVector env st i
    + timeStep * timeStep / ((s1 + s1) * (s1 + s1))
      * (accVector env st i + accVector env st' i)
  /\ velVector env st' i
     = velVector env st i
       + timeStep / (s1 + s1) * (accVector env st i + accVector env st' i)
  /\ velVector env st' i
     = (s1 + s1) / timeStep * (dispVector env st' i - dispVector env st i)
       - velVector env st i.
Proof.
  intros H2 Hdt. cbv zeta.
  unfold makeTimeStep. cbn [dispVector velVector accVector].
  unfold vadd, vsub, vscale, alpha1, alpha2, alpha3, alpha4, alpha5, alpha6, beta, gamma, two.
  repeat split; field; nonzero H2 Hdt.
Qed.

End TimeIntegratorFacts.

(** ** The progress bar *)

Section ProgressBarFacts.
Import ProgressBar.
Local Open Scope Z_scope.

Lemma cells_nat (W t : nat) :
  for_range 0 W (fun i out => out ++ [cell (Z.of_nat t) (Z.of_nat i)]) []
  = repeat (Txt "=") (Nat.min W t)
    ++ (if (t <? W)%nat then Txt ">" :: repeat (Txt " ") (W - t - 1) else []).
Proof.
  induction W as [|W IH]; [reflexivity|].
  rewrite for_range_last by lia. rewrite IH. unfold cell.
  destruct (Nat.ltb_spec t W) as [Hlt|Hge].
  - replace (t <? S W)%nat with true by (symmetry; apply Nat.ltb_lt; lia).
    replace (Z.of_nat W <? Z.of_nat t) with false by (symmetry; apply Z.ltb_ge; lia).
    replace (Z.of_nat W =? Z.of_nat t) with false by (symmetry; apply Z.eqb_neq; lia).
    replace (Nat.min (S W) t) with (Nat.min W t) by lia.
    replace (S W - t - 1)%nat with (S (W - t - 1)) by lia.
    rewrite <- app_assoc. f_equal. simpl. f_equal.
    symmetry. apply repeat_cons.
  - rewrite app_nil_r.
    destruct (Nat.eq_dec t W) as [->|Hne].
    + replace (W <? S W)%nat with true by (symmetry; apply Nat.ltb_lt; lia).
      rewrite Z.ltb_irrefl, Z.eqb_refl.
      replace (Nat.min (S W) W) with (Nat.min W W) by lia.
      replace (S W - W - 1)%nat with 0%nat by lia. reflexivity.
    + replace (t <? S W)%nat with false by (symmetry; apply Nat.ltb_ge; lia).
      replace (Z.of_nat W <? Z.of_nat t) with true by (symmetry; apply Z.ltb_lt; lia).
      replace (Nat.min (S W) t) with (S W) by lia.
      replace (Nat.min W t) with W by lia.
      rewrite app_nil_r. simpl. symmetry. apply repeat_cons.
Qed.

Lemma cells_spec (width threshold : Z) :
  0 <= threshold <= width ->
  cells width threshold
  = repeat (Txt "=") (Z.to_nat threshold)
    ++ (if threshold <? width
        then Txt ">" :: repeat (Txt " ") (Z.to_nat (width - threshold - 1))
        else []).
Proof.
  intros Hr. unfold cells.
  replace (fun (i : nat) (out : list token) => out ++ [cell threshold (Z.of_nat i)])
    with (fun (i : nat) (out : list token) =>
            out ++ [cell (Z.of_nat (Z.to_nat threshold)) (Z.of_nat i)])
    by (now rewrite Z2Nat.id by lia).
  rewrite cells_nat.
  replace (Nat.min (Z.to_nat width) (Z.to_nat threshold)) with (Z.to_nat threshold) by lia.
  destruct (Z.ltb_spec threshold width) as [Hlt|Hge].
  - replace (Z.to_nat threshold <? Z.to_nat width)%nat with true
      by (symmetry; apply Nat.ltb_lt; lia).
    do 3 f_equal. lia.
  - replace (Z.to_nat threshold <? Z.to_nat width)%nat with false
      by (symmetry; apply Nat.ltb_ge; lia).
    reflexivity.
Qed.

(** The threshold of a valid call lies between 0 and the width, and reaches
    the width only at the end. *)
Lemma threshold_range (w progress total : Z) :
  0 <= w -> 0 <= progress <= total -> 0 < total ->
  0 <= Z.quot (progress * w) total <= w
  /\ (progress < total -> 0 < w -> Z.quot (progress * w) total < w).
Proof.
  intros Hw Hp Ht. rewrite Z.quot_div_nonneg by nia. split.
  - split; [apply Z.div_pos; nia|].
    apply Z.div_le_upper_bound; nia.
  - intros Hlt Hw'. apply Z.div_lt_upper_bound; nia.
Qed.

Lemma filled_repeat_fill (k : nat) :
  List.length (List.filter is_fill (repeat (Txt "=") k)) = k.
Proof. induction k as [|k IH]; [reflexivity|]. simpl. now rewrite IH. Qed.

Lemma filled_repeat_blank (k : nat) :
  List.filter is_fill (repeat (Txt " ") k) = [].
Proof. induction k as [|k IH]; [reflexivity|]. simpl. exact IH. Qed.

(** The closing text has two characters, a space and a carriage return. *)
Example space_cr_characters :
  String.length space_cr = 2%nat
  /\ String.get 0 space_cr = Some (Ascii.ascii_of_nat 32)
  /\ String.get 1 space_cr = Some (Ascii.ascii_of_nat 13)
  /\ Ascii.nat_of_ascii (Ascii.ascii_of_nat 13) = 13%nat.
Proof. repeat split. Qed.

Lemma display_shape_aux (bar : gsProgressBar) (progress total : Z) :
  0 <= m_width bar -> 0 <= progress <= total -> 0 < total ->
  let w := m_width bar in
  let t := progress * w / total in
  0 <= t <= w
  /\ display bar progress total
     = Printed
         ([Txt "["]
          ++ repeat (Txt "=") (Z.to_nat t)
          ++ (if t <? w then Txt ">" :: repeat (Txt " ") (Z.to_nat (w - t - 1)) else [])
          ++ [Txt "] "; Num progress; Txt "/"; Num total; Txt space_cr; Flush]
          ++ (if progress =? total then [Endl] else []))
  /\ filled (display bar progress total) = Z.to_nat t.
Proof.
  intros Hw Hp Ht. cbv zeta.
  destruct (threshold_range (m_width bar) progress total Hw Hp Ht) as [Hr _].
  rewrite Z.quot_div_nonneg in Hr by nia.
  assert (Hd : display bar progress total
     = Printed
         ([Txt "["]
          ++ repeat (Txt "=") (Z.to_nat (progress * m_width bar / total))
          ++ (if progress * m_width bar / total <? m_width bar
              then Txt ">" :: repeat (Txt " ")
                     (Z.to_nat (m_width bar - progress * m_width bar / total - 1))
              else [])
          ++ [Txt "] "; Num progress; Txt "/"; Num total; Txt space_cr; Flush]
          ++ (if progress =? total then [Endl] else []))).
  { unfold display.
    replace ((0 <=? progress) && (progress <=? total) && (0 <=? total)) with true
      by (symmetry; rewrite !andb_true_iff, !Z.leb_le; lia).
    replace (total =? 0) with false by (symmetry; apply Z.eqb_neq; lia).
    cbn [negb]. rewrite Z.quot_div_nonneg by nia.
    rewrite cells_spec by exact Hr. now rewrite <- !app_assoc. }
  split; [exact Hr|]. split; [exact Hd|].
  rewrite Hd. unfold filled.
  rewrite !List.filter_app, !length_app, filled_repeat_fill.
  destruct (progress * m_width bar / total <? m_width bar);
    destruct (progress =? total); simpl; rewrite ?filled_repeat_blank; simpl; lia.
Qed.

(** For a valid call with [total > 0] and a bar of width [w >= 0], the
    output is [[], then [t] cells [=], then (unless [t = w]) one cell [>]
    followed by blanks up to [w] cells, then the closing text with the two
    counts, a carriage return and a flush, and an end of line exactly when
    [progress = total]; [t] is the integer part of [progress * w / total].
    The bound [w * total < 2^53] keeps the double-precision threshold of
    the code exact. *)
Theorem display_shape (bar : gsProgressBar) (progress total : Z) :
  0 <= m_width bar -> m_width bar * total < 2 ^ 53 ->
  0 <= progress <= total -> 0 < total ->
  let w := m_width bar in
  let t := progress * w / total in
  0 <= t <= w
  /\ display bar progress total
     = Printed
         ([Txt "["]
          ++ repeat (Txt "=") (Z.to_nat t)
          ++ (if t <? w then Txt ">" :: repeat (Txt " ") (Z.to_nat (w - t - 1)) else [])
          ++ [Txt "] "; Num progress; Txt "/"; Num total; Txt space_cr; Flush]
          ++ (if progress =? total then [Endl] else []))
  /\ filled (display bar progress total) = Z.to_nat t.
Proof. intros Hw _ Hp Ht. now apply display_shape_aux. Qed.

(** The bar is full, and the line is ended, exactly at the last step: for a
    bar of positive width all cells are [=] if and only if
    [progress = total]. *)
Theorem display_full_only_at_end (bar : gsProgressBar) (progress total : Z) :
  0 < m_width bar -> m_width bar * total < 2 ^ 53 ->
  0 <= progress <= total -> 0 < total ->
  (filled (display bar progress total) = Z.to_nat (m_width bar) <-> progress = total)
  /\ (progress = total ->
      display bar progress total
      = Printed ([Txt "["] ++ repeat (Txt "=") (Z.to_nat (m_width bar))
                 ++ [Txt "] "; Num total; Txt "/"; Num total; Txt space_cr; Flush; Endl])).
Proof.
  intros Hw _ Hp Ht.
  destruct (display_shape_aux bar progress total) as (Hr & Hd & Hf); try lia.
  destruct (threshold_range (m_width bar) progress total) as [_ Hlt]; try lia.
  rewrite Z.quot_div_nonneg in Hlt by nia.
  split.
  - rewrite Hf. split.
    + intros Heq. destruct (Z.eq_dec progress total) as [|Hne]; [assumption|].
      specialize (Hlt ltac:(lia) Hw). lia.
    + intros ->. rewrite (Z.mul_comm _ (m_width bar)), Z.div_mul by lia. reflexivity.
  - intros ->. rewrite Hd. rewrite (Z.mul_comm _ (m_width bar)), Z.div_mul by lia.
    rewrite Z.ltb_irrefl, Z.eqb_refl. reflexivity.
Qed.

(** The number of filled cells never decreases as the progress grows. *)
Theorem display_filled_monotone (bar : gsProgressBar) (p1 p2 total : Z) :
  0 <= m_width bar -> m_width bar * total < 2 ^ 53 ->
  0 <= p1 -> p1 <= p2 -> p2 <= total -> 0 < total ->
  (filled (display bar p1 total) <= filled (display bar p2 total))%nat.
Proof.
  intros Hw _ H1 H12 H2 Ht.
  destruct (display_shape_aux bar p1 total) as (Hr1 & _ & ->); try lia.
  destruct (display_shape_aux bar p2 total) as (Hr2 & _ & ->); try lia.
  apply Z2Nat.inj_le; try lia.
  apply Z.div_le_mono; nia.
Qed.

End ProgressBarFacts.

(** ** Worked instances of the further properties *)

Lemma unit_maps_distinct : dofs_distinct (unit_element (-2) 3) unit_maps.
Proof.
  intros ci a cj b Ha Hb Heq. unfold Visitor.local_dof in *. simpl in *. lia.
Defined.

Lemma tangent_value_symmetric_witness :
  Visitor.locKtgVal (material (Finite (qz 10)) 2) (unit_element (-2) 3) 0 1 0 0 1
  = Visitor.locKtgVal (material (Finite (qz 10)) 2) (unit_element (-2) 3) 0 0 1 1 0.
Proof.
  exact (tangent_value_symmetric Qc_ring_theory (material (Finite (qz 10)) 2)
           (unit_element (-2) 3) 0 1 0 0 1).
Defined.

Lemma tangent_block_K_at_node_witness :
  let mp := material (Finite (qz 10)) 2 in
  let el := unit_element (-2) 3 in
  (0 < Visitor.numActive el)%nat /\ (0 < Visitor.m_dim el)%nat
  /\ Visitor.localMatK (Visitor.quad_point mp el 0 Visitor.zeroLocal) 0 0 = qz (-2).
Proof.
  cbv zeta.
  assert (Hi : (0 < Visitor.numActive (unit_element (-2) 3))%nat) by (simpl; lia).
  assert (Hd : (0 < Visitor.m_dim (unit_element (-2) 3))%nat) by (simpl; lia).
  split; [exact Hi|]. split; [exact Hd|].
  etransitivity;
    [exact (tangent_block_K_at_node Qc_ring_theory (material (Finite (qz 10)) 2)
              (unit_element (-2) 3) 0 0 0 0 0 Visitor.zeroLocal Hi Hi Hd Hd)|].
  apply Qc_is_canon. vm_compute. reflexivity.
Defined.

Lemma coupling_block_B_at_node_witness :
  let mp := material (Finite (qz 10)) 2 in
  let el := unit_element (-2) 3 in
  (1 < Visitor.numActive el)%nat /\ (1 < Visitor.m_dim el)%nat
  /\ (0 < Visitor.numActive_p el)%nat
  /\ Visitor.localMatB (Visitor.quad_point mp el 0 Visitor.zeroLocal) 0 3 = qz 2.
Proof.
  cbv zeta.
  assert (Hi : (1 < Visitor.numActive (unit_element (-2) 3))%nat) by (simpl; lia).
  assert (Hd : (1 < Visitor.m_dim (unit_element (-2) 3))%nat) by (simpl; lia).
  assert (Hj : (0 < Visitor.numActive_p (unit_element (-2) 3))%nat) by (simpl; lia).
  split; [exact Hi|]. split; [exact Hd|]. split; [exact Hj|].
  etransitivity;
    [exact (coupling_block_B_at_node Qc_ring_theory (material (Finite (qz 10)) 2)
              (unit_element (-2) 3) 0 1 1 0 Visitor.zeroLocal Hi Hd Hj)|].
  apply Qc_is_canon. vm_compute. reflexivity.
Defined.

Lemma assemble_sums_over_nodes_witness :
  let mp := material (Finite (qz 10)) 2 in
  let el := unit_element (-2) 3 in
  Visitor.localRhs_p (Visitor.assemble mp el Visitor.zeroLocal) 0 = Q2Qc (26 # 5)
  /\ Visitor.localRhs_u (Visitor.assemble mp el Visitor.zeroLocal) 3 = qz (-6).
Proof.
  cbv zeta.
  destruct (assemble_sums_over_nodes Qc_ring_theory (material (Finite (qz 10)) 2)
              (unit_element (-2) 3) Visitor.zeroLocal) as (Hu & Hp & _).
  split.
  - rewrite (Hp 0%nat) by (simpl; lia). apply Qc_is_canon. vm_compute. reflexivity.
  - etransitivity; [exact (Hu 1%nat 1%nat ltac:(simpl; lia) ltac:(simpl; lia))|].
    apply Qc_is_canon. vm_compute. reflexivity.
Defined.

Lemma scatter_adds_free_residual_rows_witness :
  let el := unit_element (-2) 3 in
  let loc := Visitor.assemble (material (Finite (qz 10)) 2) el Visitor.zeroLocal in
  Visitor.rhsMatrix (Visitor.localToGlobal el unit_maps loc empty_system) 0 = qz 6
  /\ Visitor.rhsMatrix (Visitor.localToGlobal el unit_maps loc empty_system) 4
     = Q2Qc (26 # 5).
Proof.
  cbv zeta. split.
  - rewrite (scatter_adds_free_residual_rows Qc_ring_theory).
    apply Qc_is_canon. vm_compute. reflexivity.
  - rewrite (scatter_adds_free_residual_rows Qc_ring_theory).
    apply Qc_is_canon. vm_compute. reflexivity.
Defined.

Lemma all_eliminated_changes_nothing_witness :
  let el := unit_element (-2) 3 in
  let loc := Visitor.assemble (material (Finite (qz 10)) 2) el Visitor.zeroLocal in
  Visitor.localToGlobal el pinned_maps loc empty_system = empty_system.
Proof.
  cbv zeta.
  apply (all_eliminated_changes_nothing (unit_element (-2) 3) pinned_maps).
  intros ci a _. reflexivity.
Defined.

Lemma scatter_order_is_irrelevant_witness :
  let el := unit_element (-2) 3 in
  let loc := Visitor.assemble (material (Finite (qz 10)) 2) el Visitor.zeroLocal in
  let first := Visitor.localToGlobal el unit_maps loc
                 (Visitor.localToGlobal el neighbour_maps loc empty_system) in
  let second := Visitor.localToGlobal el neighbour_maps loc
                  (Visitor.localToGlobal el unit_maps loc empty_system) in
  Visitor.coeff (Visitor.sysMatrix first) 3 4 = Visitor.coeff (Visitor.sysMatrix second) 3 4
  /\ Visitor.rhsMatrix first 3 = Visitor.rhsMatrix second 3.
Proof.
  cbv zeta.
  exact (scatter_order_is_irrelevant Qc_ring_theory (unit_element (-2) 3)
           (unit_element (-2) 3) unit_maps neighbour_maps _ _ empty_system 3 4).
Defined.

Lemma read_back_block_K_witness :
  let el := unit_element (-2) 3 in
  let loc := Visitor.assemble (material (Finite (qz 10)) 2) el Visitor.zeroLocal in
  dofs_distinct el unit_maps
  /\ Visitor.coeff (Visitor.sysMatrix (Visitor.localToGlobal el unit_maps loc empty_system))
       3 0 = qz 0
  /\ Visitor.coeff (Visitor.sysMatrix (Visitor.localToGlobal el unit_maps loc empty_system))
       0 0 = qz (-2).
Proof.
  cbv zeta. split; [exact unit_maps_distinct|]. split.
  - etransitivity;
      [exact (read_back_block_K Qc_ring_theory (unit_element (-2) 3) unit_maps _
                unit_maps_distinct empty_system 1 1 0 0
                ltac:(simpl; lia) ltac:(simpl; lia) ltac:(simpl; lia) ltac:(simpl; lia)
                eq_refl eq_refl)|].
    apply Qc_is_canon. vm_compute. reflexivity.
  - etransitivity;
      [exact (read_back_block_K Qc_ring_theory (unit_element (-2) 3) unit_maps _
                unit_maps_distinct empty_system 0 0 0 0
                ltac:(simpl; lia) ltac:(simpl; lia) ltac:(simpl; lia) ltac:(simpl; lia)
                eq_refl eq_refl)|].
    apply Qc_is_canon. vm_compute. reflexivity.
Defined.

Lemma read_back_block_B_witness :
  let el := unit_element (-2) 3 in
  let loc := Visitor.assemble (material (Finite (qz 10)) 2) el Visitor.zeroLocal in
  Visitor.coeff (Visitor.sysMatrix (Visitor.localToGlobal el unit_maps loc empty_system))
    3 4 = qz 2
  /\ Visitor.coeff (Visitor.sysMatrix (Visitor.localToGlobal el unit_maps loc empty_system))
       4 3 = qz 2.
Proof.
  cbv zeta.
  destruct (read_back_block_B Qc_ring_theory (unit_element (-2) 3) unit_maps
              (Visitor.assemble (material (Finite (qz 10)) 2) (unit_element (-2) 3)
                 Visitor.zeroLocal)
              unit_maps_distinct empty_system 1 1 0
              ltac:(simpl; lia) ltac:(simpl; lia) ltac:(simpl; lia) eq_refl eq_refl)
    as [Hup Hlow].
  split.
  - etransitivity; [exact Hup|]. apply Qc_is_canon. vm_compute. reflexivity.
  - etransitivity; [exact Hlow|]. apply Qc_is_canon. vm_compute. reflexivity.
Defined.

Lemma read_back_block_C_witness :
  let el := unit_element (-2) 3 in
  let loc := Visitor.assemble (material (Finite (qz 10)) 2) el Visitor.zeroLocal in
  Visitor.coeff (Visitor.sysMatrix (Visitor.localToGlobal el unit_maps loc empty_system))
    4 4 = Q2Qc (- 2 # 5).
Proof.
  cbv zeta.
  etransitivity;
    [exact (read_back_block_C Qc_ring_theory (unit_element (-2) 3) unit_maps _
              unit_maps_distinct empty_system 0 0
              ltac:(simpl; lia) ltac:(simpl; lia) eq_refl eq_refl)|].
  apply Qc_is_canon. vm_compute. reflexivity.
Defined.

Lemma scatter_keeps_matrix_symmetric_witness :
  let el := unit_element (-2) 3 in
  let g' := Visitor.localToGlobal el unit_maps
              (Visitor.assemble (material (Finite (qz 10)) 2) el Visitor.zeroLocal)
              empty_system in
  Visitor.diag_blocks_symmetric el (Visitor.localMatK Visitor.zeroLocal)
  /\ Visitor.coeff (Visitor.sysMatrix g') 3 4 = Visitor.coeff (Visitor.sysMatrix g') 4 3.
Proof.
  cbv zeta.
  assert (Hz : Visitor.diag_blocks_symmetric (unit_element (-2) 3)
                 (Visitor.localMatK (T := Qc) Visitor.zeroLocal))
    by (intros a ci cj _ _ _; reflexivity).
  split; [exact Hz|].
  apply (scatter_keeps_matrix_symmetric Qc_ring_theory _ _ _ _ _ Hz).
  intros r c. reflexivity.
Defined.

Lemma Qc_two_nonzero : @sadd Qc _ s1 s1 <> s0.
Proof. discriminate. Defined.

Lemma makeTimeStep_newmark_relations_witness :
  let env := oscillator (qz 1) (qz 1) (qz 3) in
  let dt := Q2Qc (1 # 2) in
  let st' := TimeIntegrator.makeTimeStep env dt oscillator_start in
  dt <> qz 0
  /\ TimeIntegrator.dispVector env st' 0 = Q2Qc (6 # 17)
  /\ TimeIntegrator.velVector env st' 0 = Q2Qc (24 # 17).
Proof.
  cbv zeta.
  assert (Hdt : Q2Qc (1 # 2) <> qz 0) by discriminate.
  split; [exact Hdt|].
  destruct (makeTimeStep_newmark_relations Qc_field_theory (oscillator (qz 1) (qz 1) (qz 3))
              (Q2Qc (1 # 2)) oscillator_start 0 Qc_two_nonzero Hdt) as (Hd & _ & Hv).
  split.
  - etransitivity; [exact Hd|]. apply Qc_is_canon. vm_compute. reflexivity.
  - etransitivity; [exact Hv|]. apply Qc_is_canon. vm_compute. reflexivity.
Defined.

Lemma display_shape_witness :
  ProgressBar.display bar25 3 10
  = ProgressBar.Printed
      ([ProgressBar.Txt "["] ++ repeat (ProgressBar.Txt "=") 7
       ++ (ProgressBar.Txt ">" :: repeat (ProgressBar.Txt " ") 17)
       ++ [ProgressBar.Txt "] "; ProgressBar.Num 3; ProgressBar.Txt "/";
           ProgressBar.Num 10; ProgressBar.Txt ProgressBar.space_cr; ProgressBar.Flush]).
Proof.
  destruct (display_shape bar25 3 10) as (_ & Hd & _);
    [simpl; lia|simpl; lia|lia|lia|].
  etransitivity; [exact Hd|]. reflexivity.
Defined.

Lemma display_full_only_at_end_witness :
  ProgressBar.filled (ProgressBar.display bar25 10 10) = 25%nat
  /\ ProgressBar.filled (ProgressBar.display bar25 9 10) <> 25%nat.
Proof.
  destruct (display_full_only_at_end bar25 10 10) as [Hfull _];
    [simpl; lia|simpl; lia|lia|lia|].
  destruct (display_full_only_at_end bar25 9 10) as [Hnot _];
    [simpl; lia|simpl; lia|lia|lia|].
  split.
  - apply Hfull. reflexivity.
  - intros Heq. apply Hnot in Heq. discriminate.
Defined.

Lemma display_filled_monotone_witness :
  (ProgressBar.filled (ProgressBar.display bar25 3 10)
   <= ProgressBar.filled (ProgressBar.display bar25 4 10))%nat.
Proof.
  apply display_filled_monotone; simpl; lia.
Defined.
